(** * sotobaco-kintone: the guide crawler, cache and context builder of
    [render/title-proxy/server.js]

    A shallow embedding of the guide subsystem of the title proxy: the text
    normaliser, the entity decoder, the scope filter, the breadth-first
    crawler, the TTL cache and the relevance scorer, followed by the
    properties stated about them.

    Conventions.
    - A JavaScript string is the list of its UTF-16 code units ([jsstring]).
    - A regular expression literal of the source is written as a term of
      [Regex.regex] and run by a backtracking matcher that follows the
      ECMAScript priorities (leftmost match, alternatives left to right,
      greedy and lazy quantifiers).
    - Host functions whose definition is not part of the repository
      ([String.prototype.toLowerCase], the WHATWG [URL] constructor) are the
      fields of the class [Host]; network I/O is an oracle ([Web]).
    - A call that may throw returns a [Completion]. *)

From Stdlib Require Import Ascii String DecimalString.
From Stdlib Require Import List NArith ZArith Lia Bool.
From Stdlib Require Import Permutation Sorted.
Import ListNotations.

Set Implicit Arguments.

(* ------------------------------------------------------------------ *)
(** ** JavaScript strings *)

Module JS.

Definition jsstring : Type := list N.

(** An ASCII literal of the source. *)
Definition lit (s : String.string) : jsstring :=
  map Ascii.N_of_ascii (String.list_ascii_of_string s).

Fixpoint streq (a b : jsstring) : bool :=
  match a, b with
  | [], [] => true
  | x :: a', y :: b' => N.eqb x y && streq a' b'
  | _, _ => false
  end.

Definition isEmpty (s : jsstring) : bool :=
  match s with [] => true | _ => false end.

Definition isSome (A : Type) (o : option A) : bool :=
  match o with Some _ => true | None => false end.

(** WhiteSpace and LineTerminator code units: the class [\s] of a regular
    expression and what [String.prototype.trim] removes. *)
Definition isWhiteSpace (c : N) : bool :=
  ((9 <=? c) && (c <=? 13) || (c =? 32) || (c =? 160) || (c =? 5760)
   || ((8192 <=? c) && (c <=? 8202)) || (c =? 8232) || (c =? 8233)
   || (c =? 8239) || (c =? 8287) || (c =? 12288) || (c =? 65279))%N.

Fixpoint trimStart (s : jsstring) : jsstring :=
  match s with
  | c :: s' => if isWhiteSpace c then trimStart s' else s
  | [] => []
  end.

Definition trimEnd (s : jsstring) : jsstring := rev (trimStart (rev s)).

Definition trim (s : jsstring) : jsstring := trimEnd (trimStart s).

Fixpoint startsWith (s p : jsstring) {struct p} : bool :=
  match p, s with
  | [], _ => true
  | x :: p', y :: s' => N.eqb x y && startsWith s' p'
  | _ :: _, [] => false
  end.

Definition endsWith (s p : jsstring) : bool := startsWith (rev s) (rev p).

Fixpoint includes (s p : jsstring) : bool :=
  startsWith s p ||
  match s with
  | [] => false
  | _ :: s' => includes s' p
  end.

(** [indexFrom p s i]: [i] plus the first offset of [s] at which [p] occurs,
    or [-1]. *)
Fixpoint indexFrom (p s : jsstring) (i : Z) : Z :=
  if startsWith s p then i
  else match s with
       | [] => (-1)%Z
       | _ :: s' => indexFrom p s' (i + 1)%Z
       end.

Definition len (s : jsstring) : Z := Z.of_nat (length s).

(** [s.indexOf(p, from)] *)
Definition indexOf (s p : jsstring) (from : Z) : Z :=
  let pos := Z.min (Z.max from 0) (len s) in
  indexFrom p (skipn (Z.to_nat pos) s) pos.

(** [lastFrom p s i limit best]: the last position [k] with
    [i <= k <= limit] at which [p] occurs in the string whose suffix at
    position [i] is [s]; [best] when there is none. *)
Fixpoint lastFrom (p s : jsstring) (i limit best : Z) : Z :=
  if (limit <? i)%Z then best
  else
    let best' := if startsWith s p then i else best in
    match s with
    | [] => best'
    | _ :: s' => lastFrom p s' (i + 1)%Z limit best'
    end.

(** [s.lastIndexOf(p, from)] *)
Definition lastIndexOf (s p : jsstring) (from : Z) : Z :=
  let start := Z.min (Z.max from 0) (len s - len p) in
  lastFrom p s 0 start (-1).

(** [s.slice(a, b)]: negative indices count from the end. *)
Definition slice (s : jsstring) (a b : Z) : jsstring :=
  let n := len s in
  let from := if (a <? 0)%Z then Z.max (n + a) 0 else Z.min a n in
  let to := if (b <? 0)%Z then Z.max (n + b) 0 else Z.min b n in
  firstn (Z.to_nat (to - from)) (skipn (Z.to_nat from) s).

(** [s[i]], [None] for [undefined]. *)
Definition charAt (s : jsstring) (i : Z) : option N :=
  if (i <? 0)%Z then None else nth_error s (Z.to_nat i).

(** Lower-casing of the ASCII letters only. *)
Definition asciiLowerUnit (c : N) : N :=
  if (65 <=? c)%N && (c <=? 90)%N then (c + 32)%N else c.

Definition asciiLower (s : jsstring) : jsstring := map asciiLowerUnit s.

(** The suffixes of a string, longest first. *)
Fixpoint suffixes (s : jsstring) : list jsstring :=
  s :: match s with
       | [] => []
       | _ :: s' => suffixes s'
       end.

(** [String.fromCodePoint(cp)] for [cp <= 0x10FFFF]. *)
Definition fromCodePoint (cp : N) : jsstring :=
  if (cp <? 65536)%N then [cp]
  else [(55296 + (cp - 65536) / 1024)%N; (56320 + (cp - 65536) mod 1024)%N].

(** [arr.join(sep)] *)
Fixpoint join (sep : jsstring) (l : list jsstring) : jsstring :=
  match l with
  | [] => []
  | [x] => x
  | x :: l' => x ++ sep ++ join sep l'
  end.

(** Decimal rendering of a natural number, as in a template literal. *)
Definition ofNat (n : nat) : jsstring :=
  lit (DecimalString.NilZero.string_of_uint (Nat.to_uint n)).

(** A JavaScript [Set] of strings iterates in insertion order: it is the
    list of its members, without repetition, in the order they were added. *)
Definition has (set : list jsstring) (x : jsstring) : bool :=
  existsb (streq x) set.

Definition add (set : list jsstring) (x : jsstring) : list jsstring :=
  if has set x then set else set ++ [x].

Definition newSet (l : list jsstring) : list jsstring := fold_left add l [].

(** The outcome of a call that may throw. *)
Inductive Completion (A : Type) : Type :=
| Normal (a : A)
| Throw (message : jsstring).

Arguments Normal {A} a.
Arguments Throw {A} message.

Definition bind {A B : Type} (c : Completion A) (k : A -> Completion B)
  : Completion B :=
  match c with
  | Normal a => k a
  | Throw m => Throw m
  end.

End JS.

Import JS.

Notation "x <- c ;; k" := (bind c (fun x => k))
  (at level 61, c at next level, right associativity).

(* ------------------------------------------------------------------ *)
(** ** Regular expressions *)

Module Regex.

(** The fragment of ECMAScript regular expressions the source uses. Every
    quantifier of the source applies to a single character class, so [Rep]
    takes the class: [Rep true n p] is [p{n,}], [Rep false n p] is
    [p{n,}?]. [Eoi] is [$] (no [m] flag), [Bnd] is [\b], [Grp i r] is the
    [i]-th capture group. *)
Inductive regex : Type :=
| Eps
| Cls (p : N -> bool)
| Seq (r1 r2 : regex)
| Alt (r1 r2 : regex)
| Rep (greedy : bool) (min : nat) (p : N -> bool)
| Eoi
| Bnd
| Grp (i : nat) (r : regex).

(** A position: the code unit just before it, and what is left to read. *)
Definition pos : Type := (option N * jsstring)%type.

Definition caps : Type := list (nat * jsstring).

Fixpoint group (cs : caps) (i : nat) : option jsstring :=
  match cs with
  | [] => None
  | (j, s) :: cs' => if Nat.eqb i j then Some s else group cs' i
  end.

Definition isWordChar (c : N) : bool :=
  ((48 <=? c) && (c <=? 57) || (65 <=? c) && (c <=? 90)
   || (97 <=? c) && (c <=? 122) || (c =? 95))%N.

Definition isWordAt (c : option N) : bool :=
  match c with Some x => isWordChar x | None => false end.

Section Exec.

Variable A : Type.

Fixpoint repGreedy (p : N -> bool) (min : nat) (prev : option N)
  (s : jsstring) (k : pos -> option A) : option A :=
  let stop := match min with O => k (prev, s) | S _ => None end in
  match s with
  | c :: s' =>
      if p c then
        match repGreedy p (Nat.pred min) (Some c) s' k with
        | Some r => Some r
        | None => stop
        end
      else stop
  | [] => stop
  end.

Fixpoint repLazy (p : N -> bool) (min : nat) (prev : option N)
  (s : jsstring) (k : pos -> option A) : option A :=
  let more :=
    match s with
    | c :: s' => if p c then repLazy p (Nat.pred min) (Some c) s' k else None
    | [] => None
    end in
  match min with
  | O => match k (prev, s) with
         | Some r => Some r
         | None => more
         end
  | S _ => more
  end.

Fixpoint exec (r : regex) (st : pos) (cs : caps)
  (k : pos -> caps -> option A) : option A :=
  match r with
  | Eps => k st cs
  | Cls p =>
      match snd st with
      | c :: s' => if p c then k (Some c, s') cs else None
      | [] => None
      end
  | Seq r1 r2 => exec r1 st cs (fun st' cs' => exec r2 st' cs' k)
  | Alt r1 r2 =>
      match exec r1 st cs k with
      | Some x => Some x
      | None => exec r2 st cs k
      end
  | Rep greedy min p =>
      (if greedy then repGreedy else repLazy) p min (fst st) (snd st)
        (fun st' => k st' cs)
  | Eoi => match snd st with [] => k st cs | _ :: _ => None end
  | Bnd =>
      if xorb (isWordAt (fst st)) (isWordAt (hd_error (snd st)))
      then k st cs else None
  | Grp i r1 =>
      exec r1 st cs
        (fun st' cs' =>
           k st' ((i, firstn (length (snd st) - length (snd st')) (snd st))
                    :: cs'))
  end.

End Exec.

(** A match that starts exactly at the head of [s]: the number of code units
    it consumes and its capture groups. *)
Definition matchAt (r : regex) (prev : option N) (s : jsstring)
  : option (nat * caps) :=
  exec r (prev, s) [] (fun st' cs => Some (length s - length (snd st'), cs)).

(** The leftmost match: its index, its length and its groups. *)
Fixpoint search (r : regex) (prev : option N) (s : jsstring)
  : option (nat * nat * caps) :=
  match matchAt r prev s with
  | Some (n, cs) => Some (O, n, cs)
  | None =>
      match s with
      | [] => None
      | c :: s' =>
          match search r (Some c) s' with
          | Some (i, n, cs) => Some (S i, n, cs)
          | None => None
          end
      end
  end.

(** [re.test(s)] for a regular expression without the [g] flag. *)
Definition test (r : regex) (s : jsstring) : bool :=
  isSome (search r None s).

(** [s.replace(re, rep)] without the [g] flag: the first match only. *)
Definition replaceFirst (r : regex) (rep s : jsstring) : jsstring :=
  match search r None s with
  | Some (i, n, _) => firstn i s ++ rep ++ skipn (i + n) s
  | None => s
  end.

(** The pieces a [g] regular expression cuts a string into: code units
    outside every match, and the successive matches. *)
Inductive segment : Type :=
| Lit (c : N)
| Mat (m : jsstring) (cs : caps).

Fixpoint scanFrom (r : regex) (skip : nat) (prev : option N) (s : jsstring)
  : list segment :=
  match s with
  | [] =>
      match skip with
      | O => match matchAt r prev [] with
             | Some (_, cs) => [Mat [] cs]
             | None => []
             end
      | S _ => []
      end
  | c :: s' =>
      match skip with
      | S k => scanFrom r k (Some c) s'
      | O =>
          match matchAt r prev s with
          | Some (O, cs) => Mat [] cs :: Lit c :: scanFrom r O (Some c) s'
          | Some (S n, cs) => Mat (firstn (S n) s) cs :: scanFrom r n (Some c) s'
          | None => Lit c :: scanFrom r O (Some c) s'
          end
      end
  end.

Definition scan (r : regex) (s : jsstring) : list segment :=
  scanFrom r O None s.

(** [s.replace(re, rep)] with the [g] flag and a constant replacement that
    holds no [$] pattern. *)
Definition render (rep : jsstring) (segs : list segment) : jsstring :=
  flat_map (fun seg => match seg with Lit c => [c] | Mat _ _ => rep end) segs.

Definition replaceAll (r : regex) (rep s : jsstring) : jsstring :=
  render rep (scan r s).

(** [s.replace(re, f)] with the [g] flag and a replacer function, which may
    throw. *)
Fixpoint substitute (f : jsstring -> caps -> Completion jsstring)
  (segs : list segment) : Completion jsstring :=
  match segs with
  | [] => Normal []
  | Lit c :: segs' => out <- substitute f segs' ;; Normal (c :: out)
  | Mat m cs :: segs' =>
      rep <- f m cs ;; out <- substitute f segs' ;; Normal (rep ++ out)
  end.

Definition replaceAllWith (r : regex)
  (f : jsstring -> caps -> Completion jsstring) (s : jsstring)
  : Completion jsstring :=
  substitute f (scan r s).

(** [s.match(re)] with the [g] flag: every match, in order ([null] is the
    empty list). *)
Definition matchAll (r : regex) (s : jsstring) : list jsstring :=
  flat_map (fun seg => match seg with Lit _ => [] | Mat m _ => [m] end)
    (scan r s).

(** Character classes and literals. *)
Definition chr (c : N) : N -> bool := N.eqb c.
Definition notChr (c : N) : N -> bool := fun x => negb (N.eqb c x).
Definition range (lo hi : N) : N -> bool := fun x => (lo <=? x)%N && (x <=? hi)%N.
Definition any : N -> bool := fun _ => true.

(** An ASCII letter under the [i] flag (without [u]) matches its two cases
    and nothing else; any other code unit matches itself. *)
Definition chrI (c : N) : N -> bool :=
  fun x =>
    if range 97 122 c then N.eqb x c || N.eqb x (c - 32)%N
    else if range 65 90 c then N.eqb x c || N.eqb x (c + 32)%N
    else N.eqb x c.

Fixpoint str (s : jsstring) : regex :=
  match s with
  | [] => Eps
  | c :: s' => Seq (Cls (chr c)) (str s')
  end.

Fixpoint strI (s : jsstring) : regex :=
  match s with
  | [] => Eps
  | c :: s' => Seq (Cls (chrI c)) (strI s')
  end.

Definition star (p : N -> bool) : regex := Rep true 0 p.
Definition plus (p : N -> bool) : regex := Rep true 1 p.
Definition opt (p : N -> bool) : regex := Alt (Cls p) Eps.

End Regex.

Import Regex.

(* ------------------------------------------------------------------ *)
(** ** Host functions and configuration *)

(** What the source reads of a parsed [URL] object. *)
Record URL : Type := { href : jsstring; host : jsstring; pathname : jsstring }.

(** Built-in functions the program calls and does not define.
    - [toLowerCase s] is [s.toLowerCase()];
    - [newURL s] is [new URL(s)], [None] when the constructor throws;
    - [resolveHref raw base] is the [href] of [new URL(raw, base)] after its
      [hash] and [search] were set to the empty string, [None] when the
      constructor throws. *)
Class Host : Type := {
  toLowerCase : jsstring -> jsstring;
  newURL : jsstring -> option URL;
  resolveHref : jsstring -> jsstring -> option jsstring
}.

(** The constants read from the environment at start-up. Times are integer
    milliseconds; [GUIDE_MAX_PAGES] bounds a length. *)
Class Config : Type := {
  GUIDE_ROOT_URL : jsstring;
  GUIDE_CONTEXT_ENABLED : bool;
  GUIDE_MAX_PAGES : nat;
  GUIDE_CACHE_TTL_MS : Z
}.

(** A page record of the crawler. *)
Record Page : Type := { url : jsstring; title : jsstring; text : jsstring }.

(** The module-level object [guideCache]. *)
Record GuideCache : Type := {
  pages : list Page;
  fetchedAt : Z;
  expiresAt : Z;
  lastError : jsstring
}.

(** The documentation site as one crawl sees it: [abortableFetchText(url)]
    resolves to the body, or rejects ([None]: network failure, a status
    that is not ok, or the timeout). *)
Definition Web : Type := jsstring -> option jsstring.

(* ------------------------------------------------------------------ *)
(** ** Text normaliser *)

Definition cat (rs : list regex) : regex := fold_right Seq Eps rs.

Definition SP : N := 32.
Definition TAB : N := 9.
Definition LF : N := 10.
Definition CR : N := 13.
Definition LT : N := 60.
Definition GT : N := 62.
Definition AMP : N := 38.
Definition SEMI : N := 59.
Definition SLASH : N := 47.

Definition spaceOrTab (c : N) : bool := N.eqb c SP || N.eqb c TAB.

(** [/\s+/g] *)
Definition reSpaces : regex := plus isWhiteSpace.

Definition cleanInline (v : jsstring) : jsstring :=
  trim (replaceAll reSpaces [SP] v).

(** [/\r\n?/g], [/[ \t]+\n/g], [/\n{3,}/g] *)
Definition reCrLf : regex := cat [Cls (chr CR); opt (chr LF)].
Definition reTrailingBlank : regex := cat [plus spaceOrTab; Cls (chr LF)].
Definition reBlankLines : regex := Rep true 3 (chr LF).

Definition normalizeMultiline (v : jsstring) : jsstring :=
  trim
    (replaceAll reBlankLines [LF; LF]
       (replaceAll reTrailingBlank [LF]
          (replaceAll reCrLf [LF] v))).

(** [[...new Set(arr)]] *)
Definition unique (arr : list jsstring) : list jsstring := newSet arr.

Definition stopWords : list jsstring :=
  newSet
    [ [12391; 12377]%N;               (* desu *)
      [12414; 12377]%N;               (* masu *)
      [12377; 12427]%N;               (* suru *)
      [12356; 12427]%N;               (* iru *)
      [12354; 12427]%N;               (* aru *)
      [12371; 12392]%N;               (* koto *)
      [12383; 12417]%N;               (* tame *)
      [12424; 12358]%N;               (* you *)
      [12367; 12384; 12373; 12356]%N; (* kudasai *)
      [30906; 35469]%N;               (* kakunin *)
      [35373; 23450]%N;               (* settei *)
      [25805; 20316]%N;               (* sousa *)
      [30011; 38754]%N;               (* gamen *)
      [12477; 12488; 12496; 12467]%N; (* sotobako *)
      [12509; 12540; 12479; 12523]%N; (* pootaru *)
      lit "kintone" ].

(** [htmlEntityMap[name]] when it is truthy. The object literal has seven
    own properties; a name made of letters that is a method of
    [Object.prototype] is found through the prototype chain, and the
    function found there is rendered by [String.prototype.replace] the way
    V8 prints a native function. *)
Definition nativeFunction (name : String.string) : jsstring :=
  lit "function " ++ lit name ++ lit "() { [native code] }".

Definition htmlEntityMap (name : jsstring) : option jsstring :=
  if streq name (lit "amp") then Some [AMP]
  else if streq name (lit "lt") then Some [LT]
  else if streq name (lit "gt") then Some [GT]
  else if streq name (lit "quot") then Some [34%N]
  else if streq name (lit "apos") then Some [39%N]
  else if streq name (lit "nbsp") then Some [SP]
  else if streq name (lit "#39") then Some [39%N]
  else if streq name (lit "constructor") then Some (nativeFunction "Object")
  else if streq name (lit "hasOwnProperty")
       then Some (nativeFunction "hasOwnProperty")
  else if streq name (lit "isPrototypeOf")
       then Some (nativeFunction "isPrototypeOf")
  else if streq name (lit "propertyIsEnumerable")
       then Some (nativeFunction "propertyIsEnumerable")
  else if streq name (lit "toLocaleString")
       then Some (nativeFunction "toLocaleString")
  else if streq name (lit "toString") then Some (nativeFunction "toString")
  else if streq name (lit "valueOf") then Some (nativeFunction "valueOf")
  else None.

Definition isDigit : N -> bool := range 48 57.
Definition isHexDigit (c : N) : bool :=
  range 48 57 c || range 97 102 c || range 65 70 c.
Definition isAlnum (c : N) : bool :=
  range 97 122 c || range 65 90 c || range 48 57 c.

Definition digitValue (c : N) : N :=
  if range 48 57 c then (c - 48)%N
  else if range 97 102 c then (c - 87)%N
  else (c - 55)%N.

(** The integer a run of digits denotes in the given radix. *)
Definition digitsValue (radix : N) (ds : jsstring) : N :=
  fold_left (fun acc d => (acc * radix + digitValue d)%N) ds 0%N.

(** An integer converts to a finite Number when it is below the point that
    rounds to [Infinity]. *)
Definition numberIsFinite (v : N) : bool := (v <? 2 ^ 1024 - 2 ^ 970)%N.

(** The replacer of the two numeric passes: [String.fromCodePoint] throws a
    [RangeError] above 0x10FFFF. *)
Definition codePointReplacer (radix : N) (m : jsstring) (cs : caps)
  : Completion jsstring :=
  let code := digitsValue radix (match group cs 1 with Some n => n | None => [] end) in
  if numberIsFinite code then
    if (code <=? 1114111)%N then Normal (fromCodePoint code)
    else Throw (lit "Invalid code point")
  else Normal m.

(** [/&#(\d+);/g], [/&#x([0-9a-fA-F]+);/g], [/&([a-zA-Z0-9#]+);/g] *)
Definition reDecimalEntity : regex :=
  cat [str (lit "&#"); Grp 1 (plus isDigit); Cls (chr SEMI)].
Definition reHexEntity : regex :=
  cat [str (lit "&#x"); Grp 1 (plus isHexDigit); Cls (chr SEMI)].
Definition reNamedEntity : regex :=
  cat [Cls (chr AMP); Grp 1 (plus (fun c => isAlnum c || N.eqb c 35));
       Cls (chr SEMI)].

Definition namedEntityReplacer (m : jsstring) (cs : caps)
  : Completion jsstring :=
  match htmlEntityMap (match group cs 1 with Some n => n | None => [] end) with
  | Some v => Normal v
  | None => Normal m
  end.

Definition decodeHtmlEntities (input : jsstring) : Completion jsstring :=
  s1 <- replaceAllWith reDecimalEntity (codePointReplacer 10) input ;;
  s2 <- replaceAllWith reHexEntity (codePointReplacer 16) s1 ;;
  replaceAllWith reNamedEntity namedEntityReplacer s2.

(** The five tag patterns of [stripHtmlToText], all but the last with the
    [i] flag:
    [/<script\b[^>]*>[\s\S]*?<\/script>/gi],
    [/<style\b[^>]*>[\s\S]*?<\/style>/gi], [/<br\s*\/?>/gi],
    [/<\/(p|div|section|article|li|h[1-6]|tr)>/gi], [/<[^>]*>/g]. *)
Definition reBlock (name : String.string) : regex :=
  cat [strI (lit "<" ++ lit name); Bnd; star (notChr GT); Cls (chr GT);
       Rep false 0 any; strI (lit "</" ++ lit name ++ lit ">")].
Definition reScript : regex := reBlock "script".
Definition reStyle : regex := reBlock "style".
Definition reBr : regex :=
  cat [strI (lit "<br"); star isWhiteSpace; opt (chr SLASH); Cls (chr GT)].
Definition reBlockClose : regex :=
  cat [str (lit "</");
       Grp 1 (Alt (strI (lit "p"))
             (Alt (strI (lit "div"))
             (Alt (strI (lit "section"))
             (Alt (strI (lit "article"))
             (Alt (strI (lit "li"))
             (Alt (cat [Cls (chrI 104); Cls (range 49 54)])
                  (strI (lit "tr"))))))));
       Cls (chr GT)].
Definition reTag : regex := cat [Cls (chr LT); star (notChr GT); Cls (chr GT)].

(** [/[ \t]{2,}/g], [/\n[ \t]+/g] *)
Definition reInlineSpaces : regex := Rep true 2 spaceOrTab.
Definition reLeadingBlank : regex := cat [Cls (chr LF); plus spaceOrTab].

(** The argument of [decodeHtmlEntities] in [stripHtmlToText]. *)
Definition stripTags (html : jsstring) : jsstring :=
  replaceAll reTag [SP]
    (replaceAll reBlockClose [LF]
       (replaceAll reBr [LF]
          (replaceAll reStyle [SP]
             (replaceAll reScript [SP] html)))).

Definition stripHtmlToText (html : jsstring) : Completion jsstring :=
  decoded <- decodeHtmlEntities (stripTags html) ;;
  Normal
    (normalizeMultiline
       (replaceAll reLeadingBlank [LF]
          (replaceAll reInlineSpaces [SP] decoded))).

(** A string is tag free when no [<] is followed, anywhere later, by a
    [>]: it has no substring that [reTag] matches. *)
Fixpoint tagFree (s : jsstring) : Prop :=
  match s with
  | [] => True
  | c :: s' => (c = LT -> ~ In GT s') /\ tagFree s'
  end.

(* ------------------------------------------------------------------ *)
(** ** Link and title extractor *)

(** [/<title[^>]*>([\s\S]*?)<\/title>/i] *)
Definition reTitle : regex :=
  cat [strI (lit "<title"); star (notChr GT); Cls (chr GT);
       Grp 1 (Rep false 0 any); strI (lit "</title>")].

Definition extractTitleFromHtml (html fallback : jsstring)
  : Completion jsstring :=
  match search reTitle None html with
  | None => Normal fallback
  | Some (_, _, cs) =>
      decoded <- decodeHtmlEntities
                   (match group cs 1 with Some t => t | None => [] end) ;;
      let title := cleanInline decoded in
      Normal (if isEmpty title then fallback else title)
  end.

(** [/href\s*=\s*(?:Q([^Q]+)Q|'([^']+)'|([^\s>]+))/gi], where Q stands for
    the double quote (code unit 34). *)
Definition reHref : regex :=
  cat [strI (lit "href"); star isWhiteSpace; Cls (chr 61); star isWhiteSpace;
       Alt (cat [Cls (chr 34); Grp 1 (plus (notChr 34)); Cls (chr 34)])
      (Alt (cat [Cls (chr 39); Grp 2 (plus (notChr 39)); Cls (chr 39)])
           (Grp 3 (plus (fun c => negb (isWhiteSpace c || N.eqb c GT)))))].

(** [m[1] || m[2] || m[3] || ''] *)
Definition truthy (o : option jsstring) : option jsstring :=
  match o with
  | Some (_ :: _) => o
  | _ => None
  end.

Definition hrefValue (cs : caps) : jsstring :=
  match truthy (group cs 1), truthy (group cs 2), truthy (group cs 3) with
  | Some v, _, _ => v
  | None, Some v, _ => v
  | None, None, Some v => v
  | None, None, None => []
  end.

Section Program.

Context {H : Host} {C : Config}.

Definition extractHrefLinks (html currentUrl : jsstring) : list jsstring :=
  unique
    (flat_map
       (fun seg =>
          match seg with
          | Lit _ => []
          | Mat _ cs =>
              let raw := hrefValue cs in
              if isEmpty raw || startsWith raw (lit "#")
                 || startsWith raw (lit "javascript:")
                 || startsWith raw (lit "mailto:")
              then []
              else match resolveHref raw currentUrl with
                   | Some resolved => [resolved]
                   | None => []
                   end
          end)
       (scan reHref html)).

(* ------------------------------------------------------------------ *)
(** ** Tokenizer *)

(** [/[a-z0-9][a-z0-9._-]{1,}|[一-龯ぁ-んァ-ヶー]{2,}/g]: the second class is
    U+4E00..U+9FAF, U+3041..U+3093, U+30A1..U+30F6 and U+30FC. *)
Definition isTokenHead (c : N) : bool := range 97 122 c || range 48 57 c.
Definition isTokenTail (c : N) : bool :=
  range 97 122 c || range 48 57 c || N.eqb c 46 || N.eqb c 95 || N.eqb c 45.
Definition isCjk (c : N) : bool :=
  range 19968 40879 c || range 12353 12435 c || range 12449 12534 c
  || N.eqb c 12540.
Definition reToken : regex :=
  Alt (cat [Cls isTokenHead; Rep true 1 isTokenTail]) (Rep true 2 isCjk).

Definition tokenize (s : jsstring) : list jsstring :=
  let found := matchAll reToken (toLowerCase s) in
  unique (filter (fun w => negb (has stopWords w)) found).

(* ------------------------------------------------------------------ *)
(** ** Scope filter *)

(** [/[^/]*$/] and [/(\.html?$|\/$)/i] *)
Definition reLastSegment : regex := cat [star (notChr SLASH); Eoi].
Definition reDocSuffix : regex :=
  Alt (cat [Cls (chr 46); strI (lit "htm"); opt (chrI 108); Eoi])
      (cat [Cls (chr SLASH); Eoi]).

Definition rootDirOf (root : URL) : jsstring :=
  if endsWith (pathname root) [SLASH] then pathname root
  else replaceFirst reLastSegment [] (pathname root).

Definition isAllowedGuideUrl (url : jsstring) : Completion bool :=
  match newURL GUIDE_ROOT_URL with
  | None => Throw (lit "Invalid URL")
  | Some root =>
      match newURL url with
      | None => Throw (lit "Invalid URL")
      | Some u =>
          if negb (streq (host u) (host root)) then Normal false
          else
            let rootDir := rootDirOf root in
            if negb (startsWith (pathname u) rootDir) then Normal false
            else if negb (test reDocSuffix (pathname u)) then Normal false
            else Normal true
      end
  end.

(** The three conditions in the words of the specification. The containing
    directory of a path is the path with its final segment removed: what
    is left is empty or ends with a slash, and the segment has no slash. *)
Definition containingDirectory (path dir : jsstring) : Prop :=
  exists segment,
    path = dir ++ segment /\ ~ In SLASH segment
    /\ (dir = [] \/ exists d, dir = d ++ [SLASH]).

Definition isPrefixOf (p s : jsstring) : Prop := exists rest, s = p ++ rest.

(** The path ends in [.htm] or [.html], whatever the case of the letters,
    or in a slash. *)
Definition documentSuffix (tail : jsstring) : bool :=
  streq (asciiLower tail) (lit ".htm") || streq (asciiLower tail) (lit ".html")
  || streq tail [SLASH].

Definition documentPath (path : jsstring) : Prop :=
  exists pre tail, path = pre ++ tail /\ documentSuffix tail = true.

(* ------------------------------------------------------------------ *)
(** ** Crawler *)

(** What a run does to the outside and to its queue, in order: a history
    kept next to the program state to state properties of a run. *)
Inductive Event : Type :=
| Enqueued (u : jsstring)
| Fetched (u : jsstring).

Definition enqueuedUrls (h : list Event) : list jsstring :=
  flat_map (fun e => match e with Enqueued u => [u] | Fetched _ => [] end) h.

Definition fetchedUrls (h : list Event) : list jsstring :=
  flat_map (fun e => match e with Fetched u => [u] | Enqueued _ => [] end) h.

Record CrawlState : Type := {
  visited : list jsstring;
  queue : list jsstring;
  crawled : list Page;
  history : list Event
}.

Inductive Iteration : Type :=
| LoopExit
| LoopNext (st : CrawlState)
| LoopThrow (message : jsstring).

(** [.filter((next) => !visited.has(next) && isAllowedGuideUrl(next))],
    which stops at the first call that throws. *)
Fixpoint filterLinks (seen : list jsstring) (links : list jsstring)
  : Completion (list jsstring) :=
  match links with
  | [] => Normal []
  | next :: links' =>
      keep <- (if has seen next then Normal false else isAllowedGuideUrl next) ;;
      rest <- filterLinks seen links' ;;
      Normal (if keep then next :: rest else rest)
  end.

(** The body of the [try] block for the page at [url], from a state in which
    [url] was already marked visited. A throw inside it is caught: the state
    reached so far is kept. *)
Definition visitPage (web : Web) (u : jsstring) (st : CrawlState)
  : CrawlState :=
  let st1 := {| visited := visited st; queue := queue st;
                crawled := crawled st;
                history := history st ++ [Fetched u] |} in
  match web u with
  | None => st1
  | Some html =>
      match extractTitleFromHtml html u with
      | Throw _ => st1
      | Normal ttl =>
          match stripHtmlToText html with
          | Throw _ => st1
          | Normal txt =>
              let pages' :=
                if (80 <? len txt)%Z
                then crawled st1
                       ++ [{| url := u; title := ttl;
                              text := slice txt 0 12000 |}]
                else crawled st1 in
              let st2 := {| visited := visited st1; queue := queue st1;
                            crawled := pages'; history := history st1 |} in
              match filterLinks (visited st2) (extractHrefLinks html u) with
              | Throw _ => st2
              | Normal links =>
                  let links' := firstn 60 links in
                  {| visited := visited st2;
                     queue := queue st2 ++ links';
                     crawled := crawled st2;
                     history := history st2 ++ map Enqueued links' |}
              end
          end
      end
  end.

(** One test of the loop condition and, when it holds, one run of the loop
    body. *)
Definition crawlIteration (web : Web) (st : CrawlState) : Iteration :=
  match queue st with
  | [] => LoopExit
  | u :: rest =>
      if (GUIDE_MAX_PAGES <=? length (crawled st))%nat then LoopExit
      else
        let st1 := {| visited := visited st; queue := rest;
                      crawled := crawled st; history := history st |} in
        if isEmpty u || has (visited st1) u then LoopNext st1
        else
          let st2 := {| visited := add (visited st1) u; queue := queue st1;
                        crawled := crawled st1; history := history st1 |} in
          match isAllowedGuideUrl u with
          | Throw m => LoopThrow m
          | Normal false => LoopNext st2
          | Normal true => LoopNext (visitPage web u st2)
          end
  end.

(** The [while] loop, for at most [fuel] iterations: [None] when the loop
    has not ended by then. *)
Fixpoint crawlLoop (web : Web) (fuel : nat) (st : CrawlState)
  : option (Completion CrawlState) :=
  match fuel with
  | O => None
  | S fuel' =>
      match crawlIteration web st with
      | LoopExit => Some (Normal st)
      | LoopNext st' => crawlLoop web fuel' st'
      | LoopThrow m => Some (Throw m)
      end
  end.

Definition crawlStart (startUrl : jsstring) : CrawlState :=
  {| visited := []; queue := [startUrl]; crawled := [];
     history := [Enqueued startUrl] |}.

(** The final state of a run, for properties of its history. *)
Definition crawlRun (web : Web) (fuel : nat)
  : option (Completion CrawlState) :=
  match newURL GUIDE_ROOT_URL with
  | None => Some (Throw (lit "Invalid URL"))
  | Some root => crawlLoop web fuel (crawlStart (href root))
  end.

Definition crawlGuidePages (web : Web) (fuel : nat)
  : option (Completion (list Page)) :=
  match crawlRun web fuel with
  | None => None
  | Some (Throw m) => Some (Throw m)
  | Some (Normal st) => Some (Normal (crawled st))
  end.

(** The states a run goes through. *)
Inductive crawlReaches (web : Web) : CrawlState -> Prop :=
| reaches_start root :
    newURL GUIDE_ROOT_URL = Some root ->
    crawlReaches web (crawlStart (href root))
| reaches_next st st' :
    crawlReaches web st ->
    crawlIteration web st = LoopNext st' ->
    crawlReaches web st'.

(* ------------------------------------------------------------------ *)
(** ** Guide cache *)

Definition guideCache : GuideCache :=
  {| pages := []; fetchedAt := 0; expiresAt := 0; lastError := [] |}.

(** [getGuidePages] is asynchronous: it either returns without awaiting
    anything, or suspends at [await crawlGuidePages()]. It resumes with the
    outcome of the crawl and with [guideCache] as it is at that moment, and
    yields its result and the cache it leaves. *)
Inductive Pending : Type :=
| Done (result : list Page)
| AwaitCrawl
    (resume : Completion (list Page) -> GuideCache -> list Page * GuideCache).

(** What [getGuidePages] does once the awaited crawl has settled: the rest
    of the [try] block, or the [catch] block. *)
Definition afterCrawl (now : Z) (outcome : Completion (list Page))
  (current : GuideCache) : list Page * GuideCache :=
  match outcome with
  | Normal found =>
      (found,
       {| pages := found; fetchedAt := now;
          expiresAt := (now + GUIDE_CACHE_TTL_MS)%Z;
          lastError := [] |})
  | Throw message =>
      let cache' :=
        {| pages := pages current;
           fetchedAt := now;
           expiresAt := (now + Z.min (5 * 60 * 1000) GUIDE_CACHE_TTL_MS)%Z;
           lastError := if isEmpty message then lit "guide crawl failed"
                        else message |} in
      (pages cache', cache')
  end.

Definition getGuidePages (now : Z) (cache : GuideCache) : Pending :=
  if negb GUIDE_CONTEXT_ENABLED then Done []
  else if negb (Nat.eqb (length (pages cache)) 0) && (now <? expiresAt cache)%Z
  then Done (pages cache)
  else AwaitCrawl (afterCrawl now).

(** A call that nothing interleaves with: [crawl] is the outcome
    [crawlGuidePages] has if the call awaits it. *)
Definition callGetGuidePages (now : Z) (crawl : Completion (list Page))
  (cache : GuideCache) : list Page * GuideCache :=
  match getGuidePages now cache with
  | Done result => (result, cache)
  | AwaitCrawl resume => resume crawl cache
  end.

(** A sequence of calls, one after the other: the results, then the cache. *)
Fixpoint callsGetGuidePages (calls : list (Z * Completion (list Page)))
  (cache : GuideCache) : list (list Page) * GuideCache :=
  match calls with
  | [] => ([], cache)
  | (now, crawl) :: calls' =>
      let (result, cache') := callGetGuidePages now crawl cache in
      let (results, cache'') := callsGetGuidePages calls' cache' in
      (result :: results, cache'')
  end.

(** A call against the site [web], the crawl being run to its end. *)
Definition fetchGuidePages (web : Web) (fuel : nat) (now : Z)
  (cache : GuideCache) : option (list Page * GuideCache) :=
  match getGuidePages now cache with
  | Done result => Some (result, cache)
  | AwaitCrawl resume =>
      match crawlGuidePages web fuel with
      | Some outcome => Some (resume outcome cache)
      | None => None
      end
  end.

(** The cache states of the running program, with the pages of the last
    crawl that returned ([None] before the first one). A resumed call may
    have been started in an earlier state. *)
Inductive cacheState : GuideCache -> option (list Page) -> Prop :=
| state_initial : cacheState guideCache None
| state_returned c0 l0 c l now resume found :
    cacheState c0 l0 -> cacheState c l ->
    getGuidePages now c0 = AwaitCrawl resume ->
    cacheState (snd (resume (Normal found) c)) (Some found)
| state_thrown c0 l0 c l now resume message :
    cacheState c0 l0 -> cacheState c l ->
    getGuidePages now c0 = AwaitCrawl resume ->
    cacheState (snd (resume (Throw message) c)) l.

(* ------------------------------------------------------------------ *)
(** ** Relevance scorer and context builder *)

Definition defaultLimit : Z := 540.

(** The first hit of the [for ... of] loop over the tokens. *)
Definition firstHit (lower : jsstring) (tokens : list jsstring) : Z :=
  fold_left
    (fun hit tk =>
       let idx := indexOf lower (toLowerCase tk) 0 in
       if (0 <=? idx)%Z && ((hit <? 0)%Z || (idx <? hit)%Z) then idx else hit)
    tokens (-1)%Z.

Definition pickGuideSnippet (page : Page) (tokens : list jsstring) (limit : Z)
  : jsstring :=
  let src := normalizeMultiline (text page) in
  if isEmpty src then []
  else if Nat.eqb (length tokens) 0 then slice src 0 limit
  else
    let lower := toLowerCase src in
    let hit := firstHit lower tokens in
    if (hit <? 0)%Z then slice src 0 limit
    else
      let start := Z.max 0 (hit - 220) in
      let end_ := Z.min (len src) (start + limit) in
      let prevNl := lastIndexOf src [LF] start in
      let start := if (0 <=? prevNl)%Z then (prevNl + 1)%Z else start in
      let nextNl := indexOf src [LF] end_ in
      let end_ := if (0 <=? nextNl)%Z then nextNl else end_ in
      trim (slice src start end_).

Record Candidate : Type := { question : jsstring; answer : jsstring }.

Record Scored : Type := { page : Page; score : Z }.

(** The callback of [pages.map]: the score of one page. *)
Definition scorePage (tokens : list jsstring) (p : Page) : Scored :=
  let t := toLowerCase (title p ++ [LF] ++ text p) in
  {| page := p;
     score :=
       fold_left
         (fun score tk =>
            if includes t tk
            then (score + (if includes (toLowerCase (title p)) tk
                           then 3 else 1))%Z
            else score)
         tokens 0%Z |}.

(** The score in the words of the specification: each token found in
    title and text (lower-cased) counts 3 when it is also found in the title
    and 1 otherwise, and the counts are summed. *)
Definition tokenPoints (p : Page) (tk : jsstring) : Z :=
  if includes (toLowerCase (title p ++ [LF] ++ text p)) tk
  then (if includes (toLowerCase (title p)) tk then 3 else 1)%Z
  else 0%Z.

Definition specScore (tokens : list jsstring) (p : Page) : Z :=
  fold_right Z.add 0%Z (map (tokenPoints p) tokens).

(** [Array.prototype.sort] is stable: elements that compare equal keep their
    order. *)
Fixpoint insertBy (A : Type) (cmp : A -> A -> Z) (x : A) (l : list A)
  : list A :=
  match l with
  | [] => [x]
  | y :: l' => if (cmp x y <=? 0)%Z then x :: l else y :: insertBy cmp x l'
  end.

Definition sortBy (A : Type) (cmp : A -> A -> Z) (l : list A) : list A :=
  fold_right (insertBy cmp) [] l.

Definition scorePages (tokens : list jsstring) (cached : list Page)
  : list Scored :=
  sortBy (fun a b => (score b - score a)%Z) (map (scorePage tokens) cached).

Definition selectPages (scored : list Scored) : list Scored :=
  if existsb (fun x => (0 <? score x)%Z) scored
  then firstn 4 (filter (fun x => (0 <? score x)%Z) scored)
  else firstn 2 scored.

Definition seedOf (q : jsstring) (candidates : list Candidate) : jsstring :=
  join [LF]
    (normalizeMultiline q
       :: map (fun c => normalizeMultiline (question c) ++ [LF]
                          ++ normalizeMultiline (answer c))
            candidates).

Fixpoint mapi (A B : Type) (f : A -> nat -> B) (i : nat) (l : list A)
  : list B :=
  match l with
  | [] => []
  | x :: l' => f x i :: mapi f (S i) l'
  end.

(** The block of one selected page; the two Japanese words are "gaido"
    (U+30AC U+30A4 U+30C9) and "bassui" (U+629C U+7C8B). *)
Definition formatGuide (tokens : list jsstring) (x : Scored) (idx : nat)
  : jsstring :=
  let snippet := pickGuideSnippet (page x) tokens defaultLimit in
  lit "[" ++ [12460; 12452; 12489]%N ++ ofNat (idx + 1) ++ lit "] "
    ++ title (page x) ++ [LF] ++ lit "URL: " ++ url (page x) ++ [LF]
    ++ [25244; 31883]%N ++ lit ":" ++ [LF] ++ snippet.

(** [buildGuideContext] from the point where [await getGuidePages()] has
    yielded [cached]. *)
Definition buildGuideContext (cached : list Page) (q : jsstring)
  (candidates : list Candidate) : jsstring :=
  if negb GUIDE_CONTEXT_ENABLED then []
  else if Nat.eqb (length cached) 0 then []
  else
    let tokens := firstn 24 (tokenize (seedOf q candidates)) in
    let scored := scorePages tokens cached in
    let selected := selectPages scored in
    join [LF; LF] (mapi (formatGuide tokens) 0 selected).

End Program.

(* ------------------------------------------------------------------ *)
(** ** A concrete host and site *)

(** What the properties below assume of [toLowerCase]: a line feed is
    neither cased nor part of the context of a cased letter, so a string is
    lower-cased line by line. *)
Class HostLaws {H : Host} : Prop := {
  toLowerCase_lines :
    forall a b, toLowerCase (a ++ LF :: b) = toLowerCase a ++ LF :: toLowerCase b
}.

Module Sample.

Fixpoint upTo (c : N) (s : jsstring) : jsstring :=
  match s with
  | [] => []
  | x :: s' => if N.eqb x c then [] else x :: upTo c s'
  end.

(** The [URL] constructor on the URLs of the examples: lower-case [https]
    URLs with a host and a path, and no port, query, fragment, dot segment
    or escape. *)
Definition parseHttps (s : jsstring) : option URL :=
  if startsWith s (lit "https://") then
    let rest := skipn 8 s in
    let h := upTo SLASH rest in
    let p := skipn (length h) rest in
    if isEmpty h || isEmpty p then None
    else Some {| href := s; host := h; pathname := p |}
  else None.

(** [toLowerCase] is [asciiLower]: the texts of the examples are ASCII. *)
Definition host : Host :=
  {| toLowerCase := asciiLower;
     newURL := parseHttps;
     resolveHref := fun raw _ =>
       match parseHttps raw with
       | Some u => Some (href u)
       | None => None
       end |}.

(** The default configuration of the source. *)
Definition config : Config :=
  {| GUIDE_ROOT_URL := lit "https://guide.sotobaco.com/portal/index.html";
     GUIDE_CONTEXT_ENABLED := true;
     GUIDE_MAX_PAGES := 24;
     GUIDE_CACHE_TTL_MS := 6 * 60 * 60 * 1000 |}.

Definition rootUrl : jsstring :=
  lit "https://guide.sotobaco.com/portal/index.html".
Definition urlA : jsstring := lit "https://guide.sotobaco.com/portal/a.html".
Definition urlB : jsstring := lit "https://guide.sotobaco.com/portal/b.html".

(** A site of three pages: the root links to A and to B, and A links to B. *)
Definition site : Web :=
  fun u =>
    if streq u rootUrl then
      Some (lit "<a href='https://guide.sotobaco.com/portal/a.html'>A</a>"
              ++ lit "<a href='https://guide.sotobaco.com/portal/b.html'>B</a>")
    else if streq u urlA then
      Some (lit "<a href='https://guide.sotobaco.com/portal/b.html'>B</a>")
    else if streq u urlB then Some (lit "<p>B</p>")
    else None.

(** The same three pages with a text long enough to be recorded, and a
    link that leaves the guide. *)
Definition filler : jsstring :=
  lit "<p>This page explains one step of the portal set-up in enough "
    ++ lit "words to be kept as a guide page by the crawler.</p>".

Definition portal : Web :=
  fun u =>
    if streq u rootUrl then
      Some (lit "<title>Portal</title>" ++ filler
              ++ lit "<a href='https://guide.sotobaco.com/portal/a.html'>A</a>"
              ++ lit "<a href='https://guide.sotobaco.com/portal/b.html'>B</a>"
              ++ lit "<a href='https://www.sotobaco.com/index.html'>Home</a>")
    else if streq u urlA then Some (lit "<title>A</title>" ++ filler)
    else if streq u urlB then Some (lit "<title>B</title>" ++ filler)
    else None.

(** A site that cannot be reached: every fetch is rejected. *)
Definition offline : Web := fun _ => None.

Definition page1 : Page :=
  {| url := rootUrl; title := lit "Portal"; text := lit "How to sign in" |}.

(** The cache after a first call, at time 0, whose crawl found [page1]. *)
Definition populated : GuideCache :=
  snd (@callGetGuidePages config 0 (Normal [page1]) guideCache).

(** A text of one line of 600 letters followed by a second line, and a text
    of 600 letters without any line feed. *)
Definition longLine : jsstring := repeat 97%N 600 ++ LF :: lit "b".
Definition noLineFeed : jsstring := repeat 97%N 600.

Definition snippetPage (t : jsstring) : Page :=
  {| url := rootUrl; title := lit "Portal"; text := t |}.

(** Two more pages: one that names the portal in its text only, one that
    does not name it. *)
Definition bodyOnly : Page :=
  {| url := urlA; title := lit "Guide"; text := lit "open the portal first" |}.
Definition unrelated : Page :=
  {| url := urlB; title := lit "Billing"; text := lit "invoices" |}.

(** The state in which the crawl of [site] ends. *)
Definition finalState : CrawlState :=
  match @crawlRun host config site 10 with
  | Some (Normal st) => st
  | _ => crawlStart []
  end.

End Sample.

(* ------------------------------------------------------------------ *)
(** ** Runs and neighbours *)

(** The length of the longest prefix of [s] whose code units satisfy [p]:
    what a greedy quantifier over the class [p] reads first. *)
Fixpoint leading (p : N -> bool) (s : jsstring) : nat :=
  match s with
  | c :: s' => if p c then S (leading p s') else O
  | [] => O
  end.

(** Some code unit that satisfies [p] is directly followed by one that
    satisfies [q]. *)
Fixpoint follows (p q : N -> bool) (s : jsstring) : bool :=
  match s with
  | c :: s' =>
      (p c && match s' with d :: _ => q d | [] => false end)
      || follows p q s'
  | [] => false
  end.

(** The first code unit of [s] satisfies [p]. *)
Definition headIs (p : N -> bool) (s : jsstring) : bool :=
  match s with x :: _ => p x | [] => false end.

(* ------------------------------------------------------------------ *)
(** ** The draft-answer handler *)

(** [candidates.slice(0, 8)] and the [normalizedCandidates] made of them,
    which the handler passes to [buildGuideContext]; a candidate is an
    object with a [question] and an [answer]. *)
Definition normalizedCandidates (candidates : list Candidate)
  : list Candidate :=
  map (fun c => {| question := normalizeMultiline (question c);
                   answer := normalizeMultiline (answer c) |})
    (firstn 8 candidates).

(* ------------------------------------------------------------------ *)
(** ** Further configurations and examples *)

Module Examples.

(** The program with the guide context switched off. *)
Definition disabledConfig : Config :=
  {| GUIDE_ROOT_URL := lit "https://guide.sotobaco.com/portal/index.html";
     GUIDE_CONTEXT_ENABLED := false;
     GUIDE_MAX_PAGES := 24;
     GUIDE_CACHE_TTL_MS := 6 * 60 * 60 * 1000 |}.

(** A configuration whose root URL names a folder without a final slash,
    and that URL parsed. *)
Definition folderConfig : Config :=
  {| GUIDE_ROOT_URL := lit "https://guide.sotobaco.com/portal";
     GUIDE_CONTEXT_ENABLED := true;
     GUIDE_MAX_PAGES := 24;
     GUIDE_CACHE_TTL_MS := 6 * 60 * 60 * 1000 |}.

Definition folderRoot : URL :=
  {| href := lit "https://guide.sotobaco.com/portal";
     host := lit "guide.sotobaco.com";
     pathname := lit "/portal" |}.

(** The root URL of the sample configuration, parsed. *)
Definition sampleRoot : URL :=
  {| href := Sample.rootUrl; host := lit "guide.sotobaco.com";
     pathname := lit "/portal/index.html" |}.

(** The pages the crawl of [portal] returns, and the first of them. *)
Definition portalPages : list Page :=
  match @crawlGuidePages Sample.host Sample.config Sample.portal 10 with
  | Some (Normal found) => found
  | _ => []
  end.

Definition portalRoot : Page := nth 0 portalPages Sample.page1.

(** Two calls made within five minutes of time 21600000 (six hours). *)
Definition retryCalls : list (Z * Completion (list Page)) :=
  [(21600001, Normal []); (21899999, Throw [])]%Z.

(** The cached pages of the ranking examples. *)
Definition cachedPages : list Page :=
  [Sample.page1; Sample.bodyOnly; Sample.unrelated].

End Examples.

(* ------------------------------------------------------------------ *)
(** * Properties *)

(** ** Strings and sets *)

Lemma streq_eq (a b : jsstring) : streq a b = true <-> a = b.
Proof.
  revert b; induction a as [|x a IH]; intros [|y b]; simpl;
    try (split; [discriminate | discriminate]); try tauto.
  rewrite andb_true_iff, N.eqb_eq, IH.
  split; [intros [-> ->]; reflexivity | intros E; inversion E; auto].
Qed.

Lemma streq_refl (a : jsstring) : streq a a = true.
Proof. apply streq_eq; reflexivity. Qed.

Lemma has_In (set : list jsstring) (x : jsstring) :
  has set x = true <-> In x set.
Proof.
  unfold has; rewrite existsb_exists; split.
  - intros (y & Hy & E); apply streq_eq in E; subst; assumption.
  - intros Hx; exists x; split; [assumption | apply streq_refl].
Qed.

Lemma has_false (set : list jsstring) (x : jsstring) :
  has set x = false <-> ~ In x set.
Proof.
  rewrite <- has_In; destruct (has set x); split; intros; congruence.
Qed.

Lemma In_add (set : list jsstring) (x y : jsstring) :
  In y (add set x) <-> In y set \/ y = x.
Proof.
  unfold add; destruct (has set x) eqn:E.
  - apply has_In in E; split; [auto | intros [?| ->]; assumption].
  - rewrite in_app_iff; simpl; intuition.
Qed.

Lemma NoDup_snoc (A : Type) (l : list A) (x : A) :
  NoDup l -> ~ In x l -> NoDup (l ++ [x]).
Proof.
  induction l as [|y l IH]; simpl; intros Hnd Hx.
  - constructor; [intros [] | constructor].
  - inversion Hnd; subst.
    constructor.
    + rewrite in_app_iff; simpl; intuition.
    + apply IH; intuition.
Qed.

Lemma NoDup_add (set : list jsstring) (x : jsstring) :
  NoDup set -> NoDup (add set x).
Proof.
  intros Hnd; unfold add; destruct (has set x) eqn:E; [assumption|].
  apply has_false in E.
  apply NoDup_snoc; assumption.
Qed.

Lemma fold_add_spec (l acc : list jsstring) :
  NoDup acc ->
  NoDup (fold_left add l acc)
  /\ forall y, In y (fold_left add l acc) <-> In y acc \/ In y l.
Proof.
  revert acc; induction l as [|x l IH]; intros acc Hnd; simpl.
  - split; [assumption | intuition].
  - destruct (IH (add acc x) (NoDup_add x Hnd)) as [Hn Hi].
    split; [assumption|].
    intros y; rewrite Hi, In_add; intuition.
Qed.

Lemma NoDup_newSet (l : list jsstring) : NoDup (newSet l).
Proof. apply (fold_add_spec l); constructor. Qed.

Lemma In_newSet (l : list jsstring) (y : jsstring) :
  In y (newSet l) <-> In y l.
Proof.
  unfold newSet.
  destruct (fold_add_spec l (acc := [])) as [_ Hi]; [constructor|].
  rewrite Hi; simpl; intuition.
Qed.

Section TokenizerProperties.

Context {H : Host}.

(** C8. For every input string, [tokenize] returns no token of the stop-word
    set and no token twice. *)
Theorem tokenize_no_stop_word_no_duplicate (s : jsstring) :
  NoDup (tokenize s)
  /\ forall w, In w stopWords -> ~ In w (tokenize s).
Proof.
  unfold tokenize, unique; split.
  - apply NoDup_newSet.
  - intros w Hstop Hin.
    apply In_newSet, filter_In in Hin.
    destruct Hin as [_ Hkeep].
    apply negb_true_iff, has_false in Hkeep.
    contradiction.
Qed.

End TokenizerProperties.

(* ------------------------------------------------------------------ *)
(** ** Guide cache *)

Section CacheProperties.

Context {C : Config}.

Lemma getGuidePages_await (now : Z) (c : GuideCache)
  (resume : Completion (list Page) -> GuideCache -> list Page * GuideCache) :
  getGuidePages now c = AwaitCrawl resume ->
  GUIDE_CONTEXT_ENABLED = true /\ resume = afterCrawl now
  /\ (pages c = [] \/ (expiresAt c <= now)%Z).
Proof.
  unfold getGuidePages.
  destruct GUIDE_CONTEXT_ENABLED; simpl; [|discriminate].
  destruct (pages c) as [|p ps] eqn:Ep; simpl.
  - intros E; inversion E; auto.
  - destruct (Z.ltb_spec now (expiresAt c)); [discriminate|].
    intros E; inversion E; auto.
Qed.

Lemma getGuidePages_hit (now : Z) (c : GuideCache) :
  GUIDE_CONTEXT_ENABLED = true -> pages c <> [] -> (now < expiresAt c)%Z ->
  getGuidePages now c = Done (pages c).
Proof.
  intros En Hne Hlt; unfold getGuidePages; rewrite En; simpl.
  destruct (pages c) as [|p ps]; [contradiction|]; simpl.
  apply Z.ltb_lt in Hlt; rewrite Hlt; reflexivity.
Qed.

(** A cache without pages is never served: the call awaits a crawl whatever
    the expiry time is. *)
Lemma getGuidePages_empty_cache_crawls (now : Z) (c : GuideCache) :
  GUIDE_CONTEXT_ENABLED = true -> pages c = [] ->
  getGuidePages now c = AwaitCrawl (afterCrawl now).
Proof.
  intros En Ep; unfold getGuidePages; rewrite En, Ep; reflexivity.
Qed.

(** The cache holds the pages of the last crawl that returned. *)
Lemma cacheState_pages (c : GuideCache) (l : option (list Page)) :
  cacheState c l ->
  pages c = match l with Some found => found | None => [] end.
Proof.
  induction 1 as [|c0 l0 c l now resume found _ _ _ _ E
                  |c0 l0 c l now resume message _ _ _ IH E].
  - reflexivity.
  - apply getGuidePages_await in E; destruct E as (_ & -> & _); reflexivity.
  - apply getGuidePages_await in E; destruct E as (_ & -> & _); exact IH.
Qed.

(** A cache that holds pages belongs to a program whose guide context is
    enabled. *)
Lemma cacheState_enabled (c : GuideCache) (l : option (list Page)) :
  cacheState c l -> pages c <> [] -> GUIDE_CONTEXT_ENABLED = true.
Proof.
  destruct 1 as [|c0 l0 c l now resume found _ _ E
                 |c0 l0 c l now resume message _ _ E].
  - intros Hne; contradiction Hne; reflexivity.
  - intros _; apply getGuidePages_await in E; tauto.
  - intros _; apply getGuidePages_await in E; tauto.
Qed.

Lemma cacheState_call (c : GuideCache) (l : option (list Page)) (now : Z)
  (crawl : Completion (list Page)) :
  cacheState c l ->
  exists l', cacheState (snd (callGetGuidePages now crawl c)) l'.
Proof.
  intros Hc; unfold callGetGuidePages.
  destruct (getGuidePages now c) as [result|resume] eqn:E; simpl.
  - exists l; assumption.
  - destruct crawl as [found|message].
    + exists (Some found); eapply state_returned; eauto.
    + exists l; eapply state_thrown; eauto.
Qed.


(** A single call from a cache that holds pages: it returns an empty list
    exactly when the cache has expired and the crawl returns an empty
    list. *)
Lemma callGetGuidePages_empty (c : GuideCache) (l : option (list Page))
  (now : Z) (crawl : Completion (list Page)) :
  cacheState c l -> pages c <> [] ->
  (fst (callGetGuidePages now crawl c) = []
   <-> (expiresAt c <= now)%Z /\ crawl = Normal [])
  /\ (fst (callGetGuidePages now crawl c) <> [] ->
      pages (snd (callGetGuidePages now crawl c)) <> []).
Proof.
  intros Hc Hne.
  pose proof (cacheState_enabled Hc Hne) as En.
  unfold callGetGuidePages, getGuidePages; rewrite En; simpl.
  destruct (pages c) as [|p ps] eqn:Ep; [contradiction|]; simpl.
  destruct (Z.ltb_spec now (expiresAt c)); simpl.
  - rewrite Ep; split; [|auto].
    split; [discriminate | intros [? _]; lia].
  - destruct crawl as [found|message]; simpl.
    + split; [|auto].
      split; [intros ->; auto | intros [_ E]; congruence].
    + rewrite Ep; split; [|auto].
      split; [discriminate | intros [_ E]; discriminate].
Qed.

(** C2, as amended. Once the cache holds a page list that is not empty, no
    later call returns an empty list as long as no later crawl returns an
    empty list itself: a call served from the cache or whose crawl throws
    returns the cached pages, and a crawl that returns replaces them
    wholesale. A call returns an empty list exactly when the cache has
    expired and its crawl returns an empty list. *)
Theorem getGuidePages_never_empty_unless_crawl_empty :
  (forall (calls : list (Z * Completion (list Page))) (c : GuideCache)
          (l : option (list Page)),
      cacheState c l -> pages c <> [] ->
      (forall now crawl, In (now, crawl) calls -> crawl <> Normal []) ->
      (forall result,
          In result (fst (callsGetGuidePages calls c)) -> result <> [])
      /\ pages (snd (callsGetGuidePages calls c)) <> [])
  /\ (forall (c : GuideCache) (l : option (list Page)) (now : Z)
             (crawl : Completion (list Page)),
         cacheState c l -> pages c <> [] ->
         (fst (callGetGuidePages now crawl c) = []
          <-> (expiresAt c <= now)%Z /\ crawl = Normal [])).
Proof.
  split; [|intros c l now crawl Hc Hne;
           exact (proj1 (callGetGuidePages_empty now crawl Hc Hne))].
  induction calls as [|[now crawl] calls IH];
    intros c l Hc Hne Hcalls; simpl.
  - split; [intros ? [] | assumption].
  - destruct (callGetGuidePages_empty now crawl Hc Hne) as [Hiff Hkeep].
    destruct (cacheState_call now crawl Hc) as [l' Hc'].
    destruct (callGetGuidePages now crawl c) as [result c'] eqn:E1.
    simpl in Hiff, Hkeep, Hc'.
    assert (Hr : result <> []).
    { intros E; apply Hiff in E; destruct E as [_ E].
      exact (Hcalls now crawl (or_introl eq_refl) E). }
    destruct (IH c' l' Hc' (Hkeep Hr)) as [IH1 IH2].
    { intros n cr Hin; apply (Hcalls n cr); right; assumption. }
    destruct (callsGetGuidePages calls c') as [results c''] eqn:E2.
    simpl in *; split; [|assumption].
    intros r [<-|Hin]; auto.
Qed.


End CacheProperties.

(* ------------------------------------------------------------------ *)
(** ** Snippets *)

Lemma slice_prefix (s : jsstring) (b : Z) :
  (0 <= b)%Z -> slice s 0 b = firstn (Z.to_nat b) s.
Proof.
  intros Hb; unfold slice, len.
  replace (0 <? 0)%Z with false by reflexivity.
  destruct (Z.ltb_spec b 0); [lia|].
  rewrite (Z.min_l 0) by lia; simpl skipn.
  destruct (Z.le_gt_cases b (Z.of_nat (length s))).
  - rewrite (Z.min_l b) by lia; f_equal; lia.
  - rewrite (Z.min_r b) by lia.
    rewrite !firstn_all2 by lia; reflexivity.
Qed.

Lemma startsWith_refl (s : jsstring) : startsWith s s = true.
Proof. induction s; simpl; [|rewrite N.eqb_refl]; auto. Qed.

(** The first occurrence of one code unit, from a given position. *)
Lemma indexFrom_unit (c : N) (s : jsstring) (i : Z) :
  (indexFrom [c] s i = (-1)%Z /\ ~ In c s)
  \/ exists k : nat,
       indexFrom [c] s i = (i + Z.of_nat k)%Z
       /\ nth_error s k = Some c
       /\ forall j, (j < k)%nat -> nth_error s j <> Some c.
Proof.
  revert i; induction s as [|x s IH]; intros i; simpl.
  - left; split; [reflexivity | intros []].
  - destruct (N.eqb_spec c x) as [->|Hne]; simpl.
    + right; exists O; split; [simpl; lia|].
      split; [reflexivity | intros j Hj; lia].
    + destruct (IH (i + 1)%Z) as [[E Hn]|(k & E & Hk & Hfirst)].
      * left; split; [assumption | intros [->|]; auto].
      * right; exists (S k); split; [rewrite E; lia|].
        split; [exact Hk|].
        intros [|j] Hj; simpl; [congruence | apply Hfirst; lia].
Qed.

Lemma indexOf_unit (c : N) (s : jsstring) (from : Z) :
  (0 <= from <= len s)%Z ->
  (indexOf s [c] from = (-1)%Z
   /\ forall j, (from <= j)%Z -> charAt s j <> Some c)
  \/ ((from <= indexOf s [c] from)%Z
      /\ charAt s (indexOf s [c] from) = Some c
      /\ forall j, (from <= j < indexOf s [c] from)%Z -> charAt s j <> Some c).
Proof.
  intros Hfrom; unfold indexOf, charAt.
  rewrite Z.max_l, Z.min_l by lia.
  destruct (indexFrom_unit c (skipn (Z.to_nat from) s) from)
    as [[E Hn]|(k & E & Hk & Hfirst)]; rewrite E.
  - left; split; [reflexivity|].
    intros j Hj; destruct (Z.ltb_spec j 0); [lia|].
    intros Hc; apply Hn.
    replace (Z.to_nat j) with (Z.to_nat from + (Z.to_nat j - Z.to_nat from))%nat
      in Hc by lia.
    rewrite <- nth_error_skipn in Hc.
    eapply nth_error_In; eassumption.
  - right; split; [lia|]; split.
    + destruct (Z.ltb_spec (from + Z.of_nat k) 0); [lia|].
      replace (Z.to_nat (from + Z.of_nat k)) with (Z.to_nat from + k)%nat by lia.
      rewrite <- nth_error_skipn; assumption.
    + intros j Hj; destruct (Z.ltb_spec j 0); [lia|].
      replace (Z.to_nat j) with (Z.to_nat from + (Z.to_nat j - Z.to_nat from))%nat
        by lia.
      rewrite <- nth_error_skipn; apply Hfirst; lia.
Qed.

Section SnippetProperties.

Context {H : Host}.

(** C9, as amended. With no tokens, the snippet of a page is the first 540
    code units of its normalised text ([normalizeMultiline] of the text),
    or the whole normalised text when that is shorter. *)
Theorem pickGuideSnippet_no_tokens (p : Page) :
  pickGuideSnippet p [] defaultLimit
  = firstn 540 (normalizeMultiline (text p)).
Proof.
  unfold pickGuideSnippet, defaultLimit.
  destruct (normalizeMultiline (text p)) as [|c src] eqn:E; simpl isEmpty; cbv iota.
  - reflexivity.
  - simpl length; simpl Nat.eqb; cbv iota.
    apply (slice_prefix (c :: src) (b := 540)); lia.
Qed.

Lemma firstHit_self (x t : jsstring) :
  toLowerCase t = x -> firstHit x [t] = 0%Z.
Proof.
  intros E; unfold firstHit; simpl; rewrite E.
  assert (E0 : indexOf x x 0 = 0%Z).
  { unfold indexOf, len.
    rewrite Z.max_l, Z.min_l by lia; simpl.
    destruct x; simpl; [reflexivity|].
    rewrite N.eqb_refl, startsWith_refl; reflexivity. }
  rewrite E0; reflexivity.
Qed.

Lemma slice_nil (a b : Z) : slice [] a b = [].
Proof. unfold slice; rewrite skipn_nil, firstn_nil; reflexivity. Qed.

(** C10, as amended. When a token is found in the text, the snippet is the
    trimmed slice of the normalised text that ends at the first line feed
    at or after [from = min(length, max(0, hit - 220) + limit)], or at
    [from] itself when no line feed follows (the end of the text only if
    the text is that short). So for some page and tokens the snippet is
    longer than the limit of 540. *)
Theorem pickGuideSnippet_hit_window :
  (forall (p : Page) (tokens : list jsstring) (limit : Z),
      let src := normalizeMultiline (text p) in
      let hit := firstHit (toLowerCase src) tokens in
      let start0 := Z.max 0 (hit - 220) in
      let from := Z.min (len src) (start0 + limit) in
      let prevNl := lastIndexOf src [LF] start0 in
      let start := if (0 <=? prevNl)%Z then (prevNl + 1)%Z else start0 in
      tokens <> [] -> (0 <= hit)%Z -> (0 <= limit)%Z ->
      exists end_ : Z,
        pickGuideSnippet p tokens limit = trim (slice src start end_)
        /\ ((charAt src end_ = Some LF /\ (from <= end_)%Z
             /\ forall j, (from <= j < end_)%Z -> charAt src j <> Some LF)
            \/ (end_ = from
                /\ forall j, (from <= j)%Z -> charAt src j <> Some LF)))
  /\ exists (p : Page) (tokens : list jsstring),
       (defaultLimit < len (pickGuideSnippet p tokens defaultLimit))%Z.
Proof.
  split.
  - intros p tokens limit src hit start0 from prevNl start Htok Hhit Hlim.
    assert (Hfrom : (0 <= from <= len src)%Z) by (unfold from, start0, len; lia).
    unfold pickGuideSnippet.
    fold src; fold hit; fold start0; fold from; fold prevNl; fold start.
    destruct src as [|c0 src'] eqn:Esrc; simpl isEmpty; cbv iota.
    + exists from; split; [rewrite slice_nil; reflexivity|].
      right; split; [reflexivity|].
      intros j _; unfold charAt; destruct (j <? 0)%Z; [discriminate|].
      destruct (Z.to_nat j); discriminate.
    + destruct tokens as [|tk tokens']; [contradiction|].
      simpl length; simpl Nat.eqb; cbv iota.
      destruct (Z.ltb_spec hit 0); [lia|].
      destruct (indexOf_unit LF (c0 :: src') Hfrom)
        as [[E Hn]|(Hle & Hc & Hfirst)].
      * exists from; rewrite E; simpl; split; [reflexivity|].
        right; split; [reflexivity | assumption].
      * exists (indexOf (c0 :: src') [LF] from).
        destruct (Z.leb_spec 0 (indexOf (c0 :: src') [LF] from)); [|lia].
        split; [reflexivity|].
        left; split; [assumption|]; split; assumption.
  - exists {| url := []; title := []; text := Sample.longLine |},
      [Sample.longLine].
    assert (En : normalizeMultiline Sample.longLine = Sample.longLine)
      by (vm_compute; reflexivity).
    unfold pickGuideSnippet, text; rewrite En.
    rewrite (@firstHit_self (toLowerCase Sample.longLine) Sample.longLine
               eq_refl).
    vm_compute; reflexivity.
Qed.

End SnippetProperties.

(* ------------------------------------------------------------------ *)
(** ** Scores and ranking *)

Lemma startsWith_app (a b p : jsstring) :
  startsWith a p = true -> startsWith (a ++ b) p = true.
Proof.
  revert a; induction p as [|x p IH]; intros [|y a]; simpl; try discriminate;
    auto.
  rewrite !andb_true_iff; intros [? ?]; auto.
Qed.

Lemma includes_app_l (a b p : jsstring) :
  includes a p = true -> includes (a ++ b) p = true.
Proof.
  induction a as [|y a IH]; simpl.
  - rewrite orb_false_r; intros E; destruct p; [|discriminate].
    destruct b; reflexivity.
  - rewrite !orb_true_iff; intros [E|E].
    + left; apply (startsWith_app (y :: a) b p E).
    + right; auto.
Qed.

Lemma In_insertBy (A : Type) (cmp : A -> A -> Z) (x y : A) (l : list A) :
  In y (insertBy cmp x l) <-> y = x \/ In y l.
Proof.
  induction l as [|z l IH]; simpl.
  - intuition.
  - destruct (cmp x z <=? 0)%Z; simpl; [intuition|].
    rewrite IH; intuition.
Qed.

Lemma In_sortBy (A : Type) (cmp : A -> A -> Z) (y : A) (l : list A) :
  In y (sortBy cmp l) <-> In y l.
Proof.
  induction l as [|x l IH]; simpl; [tauto|].
  rewrite In_insertBy, IH; intuition.
Qed.

(** The strict maximum of a list is sorted first. *)
Lemma sortBy_maximum_first (l1 l2 : list Scored) (x : Scored) :
  (forall y, In y (l1 ++ l2) -> (score y < score x)%Z) ->
  sortBy (fun a b => (score b - score a)%Z) (l1 ++ x :: l2)
  = x :: sortBy (fun a b => (score b - score a)%Z) (l1 ++ l2).
Proof.
  induction l1 as [|a l1 IH]; simpl; intros Hmax.
  - destruct (sortBy _ l2) as [|y rest] eqn:E; simpl; [reflexivity|].
    assert (Hy : (score y < score x)%Z).
    { apply Hmax, (In_sortBy (fun a b => (score b - score a)%Z)).
      rewrite E; left; reflexivity. }
    destruct (Z.leb_spec (score y - score x) 0); [reflexivity | lia].
  - rewrite IH by (intros y Hy; apply Hmax; right; assumption); simpl.
    assert (Ha : (score a < score x)%Z) by (apply Hmax; left; reflexivity).
    destruct (Z.leb_spec (score x - score a) 0); [lia | reflexivity].
Qed.

Lemma sum_single (g : jsstring -> Z) (tokens : list jsstring) (tk : jsstring) :
  NoDup tokens -> In tk tokens ->
  (forall tk', In tk' tokens -> tk' <> tk -> g tk' = 0%Z) ->
  fold_right Z.add 0%Z (map g tokens) = g tk.
Proof.
  induction tokens as [|t tokens IH]; simpl; intros Hnd Hin Hz; [contradiction|].
  inversion Hnd as [|? ? Hnot Hnd']; subst.
  assert (Hrest : forall l, (forall x, In x l -> g x = 0%Z) ->
                            fold_right Z.add 0%Z (map g l) = 0%Z).
  { induction l as [|x l IHl]; simpl; intros Hl; [reflexivity|].
    rewrite Hl, IHl by auto; reflexivity. }
  destruct Hin as [->|Hin].
  - rewrite Hrest; [lia|].
    intros x Hx; apply Hz; [right; assumption | congruence].
  - rewrite IH by auto.
    rewrite (Hz t) by (auto; congruence); lia.
Qed.

Section ScoreProperties.

Context {H : Host}.

Lemma scorePage_specScore (tokens : list jsstring) (p : Page) :
  score (scorePage tokens p) = specScore tokens p.
Proof.
  unfold scorePage, specScore, tokenPoints; cbn [score].
  set (t := toLowerCase (title p ++ [LF] ++ text p)).
  set (tl := toLowerCase (title p)).
  assert (E : forall acc,
             fold_left
               (fun sc tk =>
                  if includes t tk
                  then (sc + (if includes tl tk then 3 else 1))%Z else sc)
               tokens acc
             = (acc + fold_right Z.add 0
                        (map (fun tk => if includes t tk
                                        then if includes tl tk then 3 else 1
                                        else 0) tokens))%Z).
  { induction tokens as [|tk tokens IH]; intros acc; simpl; [lia|].
    rewrite IH; destruct (includes t tk); lia. }
  rewrite E; lia.
Qed.

Context {L : HostLaws}.

Lemma title_hit_points (p : Page) (tk : jsstring) :
  includes (toLowerCase (title p)) tk = true -> tokenPoints p tk = 3%Z.
Proof.
  intros E; unfold tokenPoints.
  change (title p ++ [LF] ++ text p) with (title p ++ LF :: text p).
  rewrite toLowerCase_lines, (includes_app_l _ _ _ E), E; reflexivity.
Qed.


End ScoreProperties.

(* ------------------------------------------------------------------ *)
(** ** Crawler *)

Lemma fetchedUrls_app (h1 h2 : list Event) :
  fetchedUrls (h1 ++ h2) = fetchedUrls h1 ++ fetchedUrls h2.
Proof. apply flat_map_app. Qed.

Lemma enqueuedUrls_app (h1 h2 : list Event) :
  enqueuedUrls (h1 ++ h2) = enqueuedUrls h1 ++ enqueuedUrls h2.
Proof. apply flat_map_app. Qed.

Lemma fetchedUrls_enqueued (l : list jsstring) :
  fetchedUrls (map Enqueued l) = [].
Proof. induction l; simpl; auto. Qed.

Lemma enqueuedUrls_enqueued (l : list jsstring) :
  enqueuedUrls (map Enqueued l) = l.
Proof. induction l; simpl; [|f_equal]; auto. Qed.

Lemma In_firstn (A : Type) (n : nat) (l : list A) (x : A) :
  In x (firstn n l) -> In x l.
Proof.
  revert l; induction n as [|n IH]; intros [|y l]; simpl; try tauto.
  intros [->|Hin]; auto.
Qed.

Lemma NoDup_firstn (A : Type) (n : nat) (l : list A) :
  NoDup l -> NoDup (firstn n l).
Proof.
  revert l; induction n as [|n IH]; intros [|x l] Hnd; simpl;
    try constructor.
  - inversion Hnd; subst; intros Hin; apply In_firstn in Hin; contradiction.
  - inversion Hnd; auto.
Qed.

Section CrawlerProperties.

Context {H : Host} {C : Config}.

Lemma filterLinks_spec (seen links kept : list jsstring) :
  filterLinks seen links = Normal kept ->
  NoDup links ->
  NoDup kept /\ forall x, In x kept -> In x links /\ ~ In x seen.
Proof.
  revert kept; induction links as [|next links IH]; simpl; intros kept E Hnd.
  - inversion E; split; [constructor | intros x []].
  - inversion Hnd as [|? ? Hnot Hnd']; subst.
    destruct (has seen next) eqn:Eseen; simpl in E.
    + destruct (filterLinks seen links) as [rest|m]; [|discriminate].
      simpl in E; inversion E; subst.
      destruct (IH kept eq_refl Hnd') as [Hk Hin].
      split; [assumption|]; intros x Hx; destruct (Hin x Hx); auto.
    + destruct (isAllowedGuideUrl next) as [keep|m]; [|discriminate].
      simpl in E.
      destruct (filterLinks seen links) as [rest|m]; [|discriminate].
      simpl in E; inversion E; subst.
      destruct (IH rest eq_refl Hnd') as [Hk Hin].
      apply has_false in Eseen.
      destruct keep.
      * split.
        -- constructor; [intros Hx; apply Hin in Hx; tauto | assumption].
        -- intros x [<-|Hx]; [auto | destruct (Hin x Hx); auto].
      * split; [assumption|]; intros x Hx; destruct (Hin x Hx); auto.
Qed.

(** What visiting one page adds: one fetch, then a batch of links that are
    pairwise distinct and not yet visited. *)
Lemma visitPage_spec (web : Web) (u : jsstring) (st : CrawlState) :
  visited (visitPage web u st) = visited st
  /\ exists batch,
       history (visitPage web u st)
       = history st ++ Fetched u :: map Enqueued batch
       /\ queue (visitPage web u st) = queue st ++ batch
       /\ NoDup batch
       /\ forall x, In x batch -> ~ In x (visited st).
Proof.
  assert (Hnone : forall st',
             visited st' = visited st -> queue st' = queue st ->
             history st' = history st ++ [Fetched u] ->
             visited st' = visited st
             /\ exists batch,
                  history st' = history st ++ Fetched u :: map Enqueued batch
                  /\ queue st' = queue st ++ batch
                  /\ NoDup batch
                  /\ forall x, In x batch -> ~ In x (visited st)).
  { intros st' Ev Eq Eh; split; [assumption|].
    exists []; simpl; rewrite app_nil_r.
    repeat split; [assumption | assumption | constructor | intros x []]. }
  unfold visitPage.
  destruct (web u) as [html|]; [|apply Hnone; reflexivity].
  destruct (extractTitleFromHtml html u) as [ttl|m]; [|apply Hnone; reflexivity].
  destruct (stripHtmlToText html) as [txt|m]; [|apply Hnone; reflexivity].
  cbn [visited queue crawled history].
  destruct (filterLinks (visited st) (extractHrefLinks html u))
    as [links|m] eqn:Elinks; [|apply Hnone; reflexivity].
  cbn [visited queue crawled history].
  split; [reflexivity|].
  exists (firstn 60 links).
  destruct (@filterLinks_spec (visited st) (extractHrefLinks html u) links
              Elinks (NoDup_newSet _)) as [Hnd Hin].
  split; [rewrite <- app_assoc; reflexivity|].
  split; [reflexivity|].
  split; [apply NoDup_firstn; assumption|].
  intros x Hx; apply In_firstn in Hx; destruct (Hin x Hx); assumption.
Qed.

(** The invariant of the loop: no URL was fetched twice, and every fetched
    URL is marked visited. *)
Lemma crawlReaches_fetched (web : Web) (st : CrawlState) :
  crawlReaches web st ->
  NoDup (fetchedUrls (history st))
  /\ forall u, In u (fetchedUrls (history st)) -> In u (visited st).
Proof.
  induction 1 as [root Eroot|st st' Hreach [IHnd IHin] Estep].
  - simpl; split; [constructor | intros u []].
  - unfold crawlIteration in Estep.
    destruct (queue st) as [|u rest]; [discriminate|].
    destruct (GUIDE_MAX_PAGES <=? length (crawled st))%nat; [discriminate|].
    cbn [visited queue crawled history] in Estep.
    destruct (isEmpty u || has (visited st) u) eqn:Eskip.
    + inversion Estep; subst; simpl; auto.
    + apply orb_false_iff in Eskip; destruct Eskip as [_ Hnew].
      apply has_false in Hnew.
      destruct (isAllowedGuideUrl u) as [[|]|m]; inversion Estep; subst.
      * destruct (visitPage_spec web u
                    {| visited := add (visited st) u; queue := rest;
                       crawled := crawled st; history := history st |})
          as (Ev & batch & Eh & _).
        rewrite Ev, Eh; cbn [visited history].
        rewrite fetchedUrls_app; simpl.
        rewrite fetchedUrls_enqueued; split.
        -- apply NoDup_snoc; [assumption | intros Hin; apply Hnew; auto].
        -- intros x Hx; apply In_add.
           apply in_app_or in Hx; simpl in Hx; intuition.
      * simpl; split; [assumption|].
        intros x Hx; apply In_add; auto.
Qed.

Lemma crawlLoop_reaches (web : Web) (fuel : nat) (st st' : CrawlState) :
  crawlReaches web st ->
  crawlLoop web fuel st = Some (Normal st') ->
  crawlReaches web st'.
Proof.
  revert st; induction fuel as [|fuel IH]; simpl; intros st Hreach E;
    [discriminate|].
  destruct (crawlIteration web st) as [|next|m] eqn:Estep.
  - inversion E; subst; assumption.
  - apply (IH next); [eapply reaches_next; eauto | assumption].
  - discriminate.
Qed.

Lemma crawlRun_reaches (web : Web) (fuel : nat) (st : CrawlState) :
  crawlRun web fuel = Some (Normal st) -> crawlReaches web st.
Proof.
  unfold crawlRun.
  destruct (newURL GUIDE_ROOT_URL) as [root|] eqn:Eroot; [|discriminate].
  apply crawlLoop_reaches, reaches_start; assumption.
Qed.

(** C6, as amended. In every state a run of [crawlGuidePages] goes through,
    no URL has been fetched more than once and every fetched URL is in the
    visited set; and the links that one iteration enqueues are pairwise
    distinct and not in the visited set. (A URL that is still waiting in the
    queue is not in the visited set, and another page can enqueue it
    again.) *)
Theorem crawl_fetches_each_url_once (web : Web) (st : CrawlState) :
  crawlReaches web st ->
  NoDup (fetchedUrls (history st))
  /\ (forall u, In u (fetchedUrls (history st)) -> In u (visited st))
  /\ forall st', crawlIteration web st = LoopNext st' ->
       exists events,
         history st' = history st ++ events
         /\ queue st' = tl (queue st) ++ enqueuedUrls events
         /\ NoDup (enqueuedUrls events)
         /\ forall x, In x (enqueuedUrls events) -> ~ In x (visited st').
Proof.
  intros Hreach.
  destruct (crawlReaches_fetched Hreach) as [Hnd Hin].
  split; [assumption|]; split; [assumption|].
  intros st' Estep; unfold crawlIteration in Estep.
  destruct (queue st) as [|u rest]; [discriminate|].
  destruct (GUIDE_MAX_PAGES <=? length (crawled st))%nat; [discriminate|].
  cbn [visited queue crawled history tl] in *.
  assert (Hquiet : forall st1,
             history st1 = history st -> queue st1 = rest ->
             exists events,
               history st1 = history st ++ events
               /\ queue st1 = rest ++ enqueuedUrls events
               /\ NoDup (enqueuedUrls events)
               /\ forall x, In x (enqueuedUrls events) -> ~ In x (visited st1)).
  { intros st1 Eh Eq; exists []; simpl; rewrite !app_nil_r.
    repeat split; [assumption | assumption | constructor | intros x []]. }
  destruct (isEmpty u || has (visited st) u).
  - inversion Estep; subst; apply Hquiet; reflexivity.
  - destruct (isAllowedGuideUrl u) as [[|]|m]; inversion Estep; subst.
    + destruct (visitPage_spec web u
                  {| visited := add (visited st) u; queue := rest;
                     crawled := crawled st; history := history st |})
        as (Ev & batch & Eh & Eq & Hbatch & Hfresh).
      exists (Fetched u :: map Enqueued batch).
      cbn [visited queue history] in *.
      simpl enqueuedUrls; rewrite enqueuedUrls_enqueued, Ev.
      repeat split; assumption.
    + apply Hquiet; reflexivity.
Qed.

End CrawlerProperties.

(* ------------------------------------------------------------------ *)
(** ** Global replacement *)

Lemma render_scanFrom_In (r : regex) (rep : jsstring) (c : N) (s : jsstring) :
  forall skip prev,
    In c (render rep (scanFrom r skip prev s)) -> In c s \/ In c rep.
Proof.
  induction s as [|x s IH]; intros skip prev; simpl.
  - destruct skip; simpl; [|tauto].
    destruct (matchAt r prev []) as [[n cs]|]; simpl; [|tauto].
    rewrite app_nil_r; auto.
  - destruct skip as [|k].
    + destruct (matchAt r prev (x :: s)) as [[[|n] cs]|]; simpl.
      * rewrite in_app_iff; simpl.
        intros [?|[->|Hin]]; auto.
        destruct (IH _ _ Hin); auto.
      * rewrite in_app_iff.
        intros [?|Hin]; auto.
        destruct (IH _ _ Hin); auto.
      * intros [->|Hin]; auto.
        destruct (IH _ _ Hin); auto.
    + intros Hin; destruct (IH _ _ Hin); auto.
Qed.

Lemma replaceAll_In (r : regex) (rep s : jsstring) (c : N) :
  In c (replaceAll r rep s) -> In c s \/ In c rep.
Proof. apply render_scanFrom_In. Qed.

Lemma tagFree_app_plain (rep s : jsstring) :
  ~ In LT rep -> tagFree s -> tagFree (rep ++ s).
Proof.
  induction rep as [|x rep IH]; simpl; intros Hrep Hs; [assumption|].
  split; [intros ->; tauto | apply IH; tauto].
Qed.

Lemma tagFree_prefix (a b : jsstring) : tagFree (a ++ b) -> tagFree a.
Proof.
  induction a as [|x a IH]; simpl; [trivial|].
  intros [Hx Ha]; split; [|auto].
  intros E Hin; apply (Hx E), in_or_app; auto.
Qed.

Lemma tagFree_trimStart (s : jsstring) : tagFree s -> tagFree (trimStart s).
Proof.
  induction s as [|x s IH]; simpl; [trivial|].
  intros [Hx Hs]; destruct (isWhiteSpace x); simpl; auto.
Qed.

Lemma trimStart_suffix (s : jsstring) : exists d, s = d ++ trimStart s.
Proof.
  induction s as [|x s [d IH]]; simpl.
  - exists []; reflexivity.
  - destruct (isWhiteSpace x).
    + exists (x :: d); simpl; f_equal; assumption.
    + exists []; reflexivity.
Qed.

Lemma trimEnd_prefix (s : jsstring) : exists d, s = trimEnd s ++ d.
Proof.
  unfold trimEnd.
  destruct (trimStart_suffix (rev s)) as [d E].
  exists (rev d).
  rewrite <- rev_app_distr, <- E, rev_involutive; reflexivity.
Qed.

Lemma tagFree_trim (s : jsstring) : tagFree s -> tagFree (trim s).
Proof.
  intros Hs; unfold trim.
  apply tagFree_trimStart in Hs.
  destruct (trimEnd_prefix (trimStart s)) as [d E].
  rewrite E in Hs; eapply tagFree_prefix; eassumption.
Qed.

Lemma trim_In (s : jsstring) (c : N) : In c (trim s) -> In c s.
Proof.
  unfold trim; intros Hin.
  destruct (trimEnd_prefix (trimStart s)) as [d E].
  destruct (trimStart_suffix s) as [d' E'].
  rewrite E', in_app_iff, E, in_app_iff; auto.
Qed.

(** A replacement by text without angle brackets keeps a string tag
    free. *)
Lemma tagFree_render (r : regex) (rep : jsstring) (s : jsstring) :
  ~ In LT rep -> ~ In GT rep ->
  forall skip prev,
    tagFree s -> tagFree (render rep (scanFrom r skip prev s)).
Proof.
  intros HL HG; induction s as [|x s IH]; intros skip prev Hs; simpl.
  - destruct skip; simpl; [|trivial].
    destruct (matchAt r prev []) as [[n cs]|]; simpl; [|trivial].
    apply tagFree_app_plain; simpl; auto.
  - destruct Hs as [Hx Hs].
    assert (Hkeep : forall k p, tagFree (x :: render rep (scanFrom r k p s))).
    { intros k p; split; [|auto].
      intros E Hin; apply render_scanFrom_In in Hin.
      destruct Hin; [exact (Hx E H) | auto]. }
    destruct skip as [|k]; [|auto].
    destruct (matchAt r prev (x :: s)) as [[[|n] cs]|]; simpl.
    + apply tagFree_app_plain; [assumption | apply Hkeep].
    + apply tagFree_app_plain; auto.
    + apply Hkeep.
Qed.

Lemma tagFree_replaceAll (r : regex) (rep s : jsstring) :
  ~ In LT rep -> ~ In GT rep -> tagFree s -> tagFree (replaceAll r rep s).
Proof. intros HL HG; apply tagFree_render; assumption. Qed.

(** A pattern that matches nowhere leaves the string as it is. *)
Lemma scanFrom_no_match (r : regex) (s : jsstring) :
  (forall prev suffix, matchAt r prev suffix = None \/
                       exists rest, suffix = AMP :: rest) ->
  ~ In AMP s ->
  forall prev, scanFrom r 0 prev s = map Lit s.
Proof.
  intros Hr; induction s as [|x s IH]; intros Hs prev; simpl.
  - destruct (Hr prev []) as [->|[rest E]]; [reflexivity | discriminate].
  - destruct (Hr prev (x :: s)) as [->|[rest E]].
    + rewrite IH by (simpl in Hs; tauto); reflexivity.
    + inversion E; subst; simpl in Hs; tauto.
Qed.

Lemma substitute_literals (f : jsstring -> caps -> Completion jsstring)
  (s : jsstring) :
  substitute f (map Lit s) = Normal s.
Proof. induction s as [|x s IH]; simpl; [|rewrite IH]; reflexivity. Qed.

Lemma search_no_match (r : regex) (s : jsstring) :
  (forall prev suffix, matchAt r prev suffix = None \/
                       exists rest, suffix = AMP :: rest) ->
  ~ In AMP s ->
  forall prev, search r prev s = None.
Proof.
  intros Hr; induction s as [|x s IH]; intros Hs prev; simpl.
  - destruct (Hr prev []) as [->|[rest E]]; [reflexivity | discriminate].
  - destruct (Hr prev (x :: s)) as [->|[rest E]].
    + rewrite IH by (simpl in Hs; tauto); reflexivity.
    + inversion E; subst; simpl in Hs; tauto.
Qed.

(* ------------------------------------------------------------------ *)
(** ** Tags and entities *)

Lemma repGreedy_finds (A : Type) (c : N) (s : jsstring) (k : pos -> option A) :
  (forall pv rest, k (pv, c :: rest) <> None) ->
  In c s ->
  forall prev, repGreedy (notChr c) 0 prev s k <> None.
Proof.
  intros Hk; induction s as [|x s IH]; intros Hin prev; simpl; [contradiction|].
  unfold notChr at 1.
  destruct (N.eqb_spec c x) as [<-|Hne]; simpl.
  - apply Hk.
  - destruct Hin as [E|Hin]; [congruence|].
    specialize (IH Hin (Some x)).
    destruct (repGreedy (notChr c) 0 (Some x) s k); [discriminate | contradiction].
Qed.

Lemma repGreedy_misses (A : Type) (c : N) (s : jsstring) (k : pos -> option A) :
  (forall pv rest, hd_error rest <> Some c -> k (pv, rest) = None) ->
  ~ In c s ->
  forall prev, repGreedy (notChr c) 0 prev s k = None.
Proof.
  intros Hk; induction s as [|x s IH]; intros Hin prev; simpl.
  - apply Hk; discriminate.
  - unfold notChr at 1.
    destruct (N.eqb_spec c x) as [<-|Hne]; simpl;
      [contradiction Hin; left; reflexivity|].
    rewrite IH by (intros Hs; apply Hin; right; assumption).
    apply Hk; simpl; congruence.
Qed.

Lemma matchAt_reTag_open (prev : option N) (s : jsstring) :
  matchAt reTag prev (LT :: s) = None -> ~ In GT s.
Proof.
  unfold matchAt, reTag, cat; simpl.
  intros E Hin; revert E.
  apply repGreedy_finds; [|assumption].
  intros pv rest; simpl; discriminate.
Qed.

Lemma matchAt_reTag_none (prev : option N) (s : jsstring) :
  tagFree s -> matchAt reTag prev s = None.
Proof.
  unfold matchAt, reTag, cat; destruct s as [|x s];
    cbn [exec fold_right snd fst tagFree]; [reflexivity|].
  intros [Hx _].
  unfold chr at 1; destruct (N.eqb_spec LT x) as [<-|Hne]; [|reflexivity].
  apply repGreedy_misses; [|auto].
  intros pv [|y rest] Hhd; cbn [exec snd fst]; [reflexivity|].
  unfold chr; destruct (N.eqb_spec GT y) as [<-|]; [|reflexivity].
  contradiction Hhd; reflexivity.
Qed.

Lemma repGreedy_some (A : Type) (p : N -> bool) (s : jsstring)
  (k : pos -> option A) (r : A) :
  forall min prev,
    repGreedy p min prev s k = Some r ->
    exists pv rest, k (pv, rest) = Some r /\ length rest <= length s.
Proof.
  induction s as [|x s IH]; intros min prev; simpl.
  - destruct min; [|discriminate]; intros E; eauto.
  - assert (Hstop : match min with O => k (prev, x :: s) | S _ => None end
                    = Some r ->
                    exists pv rest,
                      k (pv, rest) = Some r /\ length rest <= S (length s)).
    { destruct min; [|discriminate]; intros E.
      exists prev, (x :: s); split; [assumption | simpl; lia]. }
    destruct (p x); [|exact Hstop].
    destruct (repGreedy p (Nat.pred min) (Some x) s k) as [r'|] eqn:E;
      [|exact Hstop].
    intros E'; inversion E'; subst.
    destruct (IH _ _ E) as (pv & rest & Hk & Hlen).
    exists pv, rest; split; [assumption | lia].
Qed.

Lemma matchAt_reTag_positive (prev : option N) (s : jsstring) (cs : caps) :
  matchAt reTag prev s <> Some (0, cs).
Proof.
  unfold matchAt, reTag, cat; destruct s as [|x s];
    cbn [exec fold_right snd fst]; [discriminate|].
  destruct (chr LT x); [|discriminate].
  intros E; apply repGreedy_some in E.
  destruct E as (pv & [|y rest] & Hk & Hlen); cbn [exec snd fst] in Hk;
    [discriminate|].
  destruct (chr GT y); [|discriminate].
  cbn [snd length] in Hlen; cbn [length] in Hk.
  assert (Hn : S (length s) - length rest = 0) by congruence.
  lia.
Qed.

Lemma tagFree_no_tag (s : jsstring) :
  tagFree s -> forall prev, search reTag prev s = None.
Proof.
  induction s as [|x s IH]; intros Hs prev.
  - reflexivity.
  - simpl search; rewrite (matchAt_reTag_none prev (x :: s) Hs).
    destruct Hs as [_ Hs]; rewrite (IH Hs); reflexivity.
Qed.

(** What is left once every tag pattern was replaced is tag free. *)
Lemma tagFree_stripped (s : jsstring) :
  forall skip prev, tagFree (render [SP] (scanFrom reTag skip prev s)).
Proof.
  induction s as [|x s IH]; intros skip prev; simpl.
  - destruct skip; simpl; [|trivial].
    destruct (matchAt reTag prev []) as [[n cs]|]; simpl; auto.
  - destruct skip as [|k]; [|apply IH].
    destruct (matchAt reTag prev (x :: s)) as [[[|n] cs]|] eqn:E; simpl.
    + contradiction (matchAt_reTag_positive _ _ E).
    + split; [discriminate | apply IH].
    + split; [|apply IH].
      intros -> Hin.
      apply render_scanFrom_In in Hin.
      destruct Hin as [Hin|[Hin|[]]]; [|discriminate].
      exact (matchAt_reTag_open _ _ E Hin).
Qed.

Lemma lit_decimal_prefix : lit "&#" = [38; 35]%N.
Proof. reflexivity. Qed.

Lemma lit_hex_prefix : lit "&#x" = [38; 35; 120]%N.
Proof. reflexivity. Qed.

(** The three patterns of [decodeHtmlEntities] start with an ampersand. *)
Lemma entity_patterns_start_with_amp (r : regex) :
  r = reDecimalEntity \/ r = reHexEntity \/ r = reNamedEntity ->
  forall prev suffix,
    matchAt r prev suffix = None \/ exists rest, suffix = AMP :: rest.
Proof.
  intros Hr prev [|x rest].
  - left; destruct Hr as [->|[->| ->]]; reflexivity.
  - destruct (N.eqb_spec AMP x) as [<-|Hne]; [right; eauto|left].
    apply N.eqb_neq in Hne; unfold AMP in Hne.
    destruct Hr as [->|[->| ->]];
      unfold matchAt, reDecimalEntity, reHexEntity, reNamedEntity, cat, AMP;
      cbn [fold_right]; rewrite ?lit_decimal_prefix, ?lit_hex_prefix;
      cbn [str exec snd fst]; unfold chr at 1; rewrite Hne; reflexivity.
Qed.

Lemma decodeHtmlEntities_plain (s : jsstring) :
  ~ In AMP s -> decodeHtmlEntities s = Normal s.
Proof.
  intros Hs; unfold decodeHtmlEntities, replaceAllWith, scan.
  rewrite !scanFrom_no_match, !substitute_literals; simpl;
    auto using entity_patterns_start_with_amp.
  rewrite !scanFrom_no_match, !substitute_literals; simpl;
    auto using entity_patterns_start_with_amp.
  rewrite !scanFrom_no_match, !substitute_literals; simpl;
    auto using entity_patterns_start_with_amp.
Qed.

Lemma replaceAll_without (c : N) (r : regex) (rep s : jsstring) :
  ~ In c rep -> ~ In c s -> ~ In c (replaceAll r rep s).
Proof.
  intros Hrep Hs Hin; apply replaceAll_In in Hin; tauto.
Qed.

Ltac absent := simpl; intuition discriminate.

Lemma stripTags_without_amp (html : jsstring) :
  ~ In AMP html -> ~ In AMP (stripTags html).
Proof.
  intros Hs; unfold stripTags.
  repeat (apply replaceAll_without; [absent|]); assumption.
Qed.

Lemma normalizeMultiline_tagFree (s : jsstring) :
  tagFree s -> tagFree (normalizeMultiline s).
Proof.
  intros Hs; unfold normalizeMultiline.
  apply tagFree_trim.
  repeat (apply tagFree_replaceAll; [absent | absent |]); assumption.
Qed.

Lemma normalizeMultiline_without (c : N) (s : jsstring) :
  c <> LF -> ~ In c s -> ~ In c (normalizeMultiline s).
Proof.
  intros Hc Hs Hin; unfold normalizeMultiline in Hin.
  apply trim_In in Hin; revert Hin.
  repeat (apply replaceAll_without; [simpl; intuition congruence|]);
    assumption.
Qed.

(** C7, as amended. For every input without an ampersand (so without any
    entity reference), [stripHtmlToText] returns a text in which no [<] is
    followed by a [>], so that holds no tag markup, and without any entity
    reference; for every input at all, the text handed to the entity
    decoder holds no tag markup; and [stripHtmlToText] of the two
    paragraphs [a] and [b] is the two lines [a] and [b]. (An entity
    reference of the input is decoded after the tags are removed, so it can
    leave angle brackets, and an unknown or doubly encoded reference is
    left as entity text.) *)
Theorem stripHtmlToText_without_entities :
  (forall html,
      ~ In AMP html ->
      exists out,
        stripHtmlToText html = Normal out
        /\ tagFree out /\ test reTag out = false
        /\ ~ In AMP out /\ test reNamedEntity out = false)
  /\ (forall html,
         tagFree (stripTags html) /\ test reTag (stripTags html) = false)
  /\ stripHtmlToText (lit "<p>a</p><p>b</p>") = Normal [97; LF; 98]%N.
Proof.
  split; [|split; [|vm_compute; reflexivity]].
  2:{ intros html.
      assert (Hs : tagFree (stripTags html))
        by (unfold stripTags, replaceAll at 1, scan; apply tagFree_stripped).
      split; [exact Hs|].
      unfold test; rewrite (tagFree_no_tag _ Hs); reflexivity. }
  intros html Hamp.
  pose proof (stripTags_without_amp html Hamp) as Hplain.
  unfold stripHtmlToText.
  rewrite (decodeHtmlEntities_plain _ Hplain); simpl bind.
  eexists; split; [reflexivity|].
  assert (Htag : tagFree
                   (normalizeMultiline
                      (replaceAll reLeadingBlank [LF]
                         (replaceAll reInlineSpaces [SP] (stripTags html))))).
  { apply normalizeMultiline_tagFree.
    do 2 (apply tagFree_replaceAll; [absent | absent |]).
    unfold stripTags, replaceAll at 1, scan; apply tagFree_stripped. }
  assert (Hout : ~ In AMP
                   (normalizeMultiline
                      (replaceAll reLeadingBlank [LF]
                         (replaceAll reInlineSpaces [SP] (stripTags html))))).
  { apply normalizeMultiline_without; [discriminate|].
    do 2 (apply replaceAll_without; [absent|]); exact Hplain. }
  split; [exact Htag|]; split; [|split; [exact Hout|]].
  - unfold test; rewrite (tagFree_no_tag _ Htag); reflexivity.
  - unfold test.
    rewrite (@search_no_match reNamedEntity _
               (entity_patterns_start_with_amp
                  (or_intror (or_intror eq_refl))) Hout).
    reflexivity.
Qed.

(* ------------------------------------------------------------------ *)
(** ** Scope filter *)

Lemma startsWith_prefix (s p : jsstring) :
  startsWith s p = true <-> isPrefixOf p s.
Proof.
  unfold isPrefixOf; revert s; induction p as [|x p IH]; intros s; simpl.
  - split; [intros _; exists s; reflexivity | reflexivity].
  - destruct s as [|y s]; [split; [discriminate | intros [r E]; discriminate]|].
    rewrite andb_true_iff, N.eqb_eq, IH; split.
    + intros [-> [r ->]]; exists r; reflexivity.
    + intros [r E]; inversion E; eauto.
Qed.

Lemma endsWith_slash (s : jsstring) :
  endsWith s [SLASH] = true <-> exists pre, s = pre ++ [SLASH].
Proof.
  unfold endsWith; rewrite startsWith_prefix; unfold isPrefixOf; simpl; split.
  - intros [r E]; exists (rev r).
    rewrite <- (rev_involutive s), E; reflexivity.
  - intros [pre ->]; exists (rev pre); rewrite rev_app_distr; reflexivity.
Qed.

Lemma In_suffixes (s suf : jsstring) :
  In suf (suffixes s) <-> exists pre, s = pre ++ suf.
Proof.
  induction s as [|x s IH]; simpl.
  - split.
    + intros [<-|[]]; exists []; reflexivity.
    + intros [pre E]; symmetry in E; apply app_eq_nil in E.
      destruct E as [_ ->]; left; reflexivity.
  - rewrite IH; split.
    + intros [<-|[pre ->]]; [exists [] | exists (x :: pre)]; reflexivity.
    + intros [[|y pre] E]; simpl in E; [left; auto|].
      inversion E; subst; right; eauto.
Qed.

(** The leftmost match of a pattern that does not look behind. *)
Lemma search_suffixes (r : regex) (B : jsstring -> bool) :
  (forall prev suf, isSome (matchAt r prev suf) = B suf) ->
  forall s prev, isSome (search r prev s) = existsb B (suffixes s).
Proof.
  intros Hr; induction s as [|x s IH]; intros prev; simpl.
  - rewrite <- (Hr prev []).
    destruct (matchAt r prev []) as [[n cs]|]; reflexivity.
  - rewrite <- (Hr prev (x :: s)), <- (IH (Some x)).
    destruct (matchAt r prev (x :: s)) as [[n cs]|]; [reflexivity|].
    destruct (search r (Some x) s) as [[[i n] cs]|]; reflexivity.
Qed.

Lemma chrI_lower (c x : N) :
  range 97 122 c = true -> chrI c x = N.eqb (asciiLowerUnit x) c.
Proof.
  intros Hc; unfold chrI; rewrite Hc.
  unfold range in Hc; apply andb_true_iff in Hc; destruct Hc as [H1 H2].
  apply N.leb_le in H1, H2.
  unfold asciiLowerUnit.
  destruct (N.leb_spec 65 x), (N.leb_spec x 90); simpl;
    destruct (N.eqb_spec x c), (N.eqb_spec x (c - 32)),
      (N.eqb_spec (x + 32) c); try reflexivity; try lia.
Qed.

Lemma eqb_plain (c x : N) :
  (c < 65)%N -> N.eqb c x = N.eqb (asciiLowerUnit x) c.
Proof.
  intros Hc; unfold asciiLowerUnit.
  destruct (N.leb_spec 65 x), (N.leb_spec x 90); simpl;
    destruct (N.eqb_spec c x), (N.eqb_spec x c), (N.eqb_spec (x + 32) c);
    try reflexivity; try lia.
Qed.

Lemma lit_htm : lit "htm" = [104; 116; 109]%N.
Proof. reflexivity. Qed.

Lemma lit_dot_htm : lit ".htm" = [46; 104; 116; 109]%N.
Proof. reflexivity. Qed.

Lemma lit_dot_html : lit ".html" = [46; 104; 116; 109; 108]%N.
Proof. reflexivity. Qed.

(** [reDocSuffix] matches at a position exactly when what follows is one of
    the three endings. *)
Lemma matchAt_reDocSuffix (prev : option N) (suf : jsstring) :
  isSome (matchAt reDocSuffix prev suf) = documentSuffix suf.
Proof.
  unfold matchAt, reDocSuffix, documentSuffix, cat, opt.
  rewrite lit_htm, lit_dot_htm, lit_dot_html.
  cbn [fold_right strI].
  destruct suf as [|x1 [|x2 [|x3 [|x4 [|x5 [|x6 suf]]]]]];
    cbn [exec snd fst asciiLower map streq];
    rewrite ?(@chrI_lower 104), ?(@chrI_lower 116), ?(@chrI_lower 109),
      ?(@chrI_lower 108) by reflexivity;
    unfold chr, SLASH; rewrite ?(@eqb_plain 46) by reflexivity;
    rewrite ?(N.eqb_sym 47);
    repeat match goal with
           | |- context [N.eqb ?a ?b] => destruct (N.eqb a b)
           end;
    reflexivity.
Qed.

Lemma test_reDocSuffix (path : jsstring) :
  test reDocSuffix path = true <-> documentPath path.
Proof.
  unfold test, documentPath.
  pose proof (search_suffixes reDocSuffix documentSuffix matchAt_reDocSuffix
                path None) as E.
  destruct (search reDocSuffix None path); simpl in *.
  - split; [intros _ | reflexivity].
    symmetry in E; apply existsb_exists in E.
    destruct E as (tail & Hin & Ht).
    apply In_suffixes in Hin; destruct Hin as [pre ->]; eauto.
  - split; [discriminate|].
    intros (pre & tail & -> & Ht).
    assert (Hex : existsb documentSuffix (suffixes (pre ++ tail)) = true).
    { apply existsb_exists; exists tail; split; [|assumption].
      apply In_suffixes; eauto. }
    congruence.
Qed.

Lemma repGreedy_all (A : Type) (p : N -> bool) (s : jsstring)
  (k : pos -> option A) :
  (forall pv x xs, k (pv, x :: xs) = None) ->
  (forall pv pv', k (pv, []) = k (pv', [])) ->
  forall prev,
    repGreedy p 0 prev s k = if forallb p s then k (None, []) else None.
Proof.
  intros Hmore Hend; induction s as [|x s IH]; intros prev; simpl.
  - apply Hend.
  - rewrite Hmore, IH.
    destruct (p x); simpl; [|reflexivity].
    destruct (forallb p s); [|reflexivity].
    destruct (k (None, [])); reflexivity.
Qed.

Lemma matchAt_reLastSegment (prev : option N) (s : jsstring) :
  matchAt reLastSegment prev s
  = if forallb (notChr SLASH) s then Some (length s, []) else None.
Proof.
  unfold matchAt, reLastSegment, cat, star; cbn [fold_right exec fst snd].
  rewrite repGreedy_all.
  - cbn [snd length]; rewrite Nat.sub_0_r; reflexivity.
  - reflexivity.
  - reflexivity.
Qed.

Lemma forallb_notChr (c : N) (s : jsstring) :
  forallb (notChr c) s = true <-> ~ In c s.
Proof.
  rewrite forallb_forall; unfold notChr; split.
  - intros Hs Hin; specialize (Hs c Hin).
    rewrite N.eqb_refl in Hs; discriminate.
  - intros Hs x Hx; apply negb_true_iff, N.eqb_neq; congruence.
Qed.

(** The leftmost match of [/[^/]*$/] is the final segment. *)
Lemma search_reLastSegment (s : jsstring) :
  forall prev,
  exists dir seg,
    s = dir ++ seg
    /\ search reLastSegment prev s = Some (length dir, length seg, [])
    /\ ~ In SLASH seg
    /\ (dir = [] \/ exists d, dir = d ++ [SLASH]).
Proof.
  induction s as [|x s IH]; intros prev.
  - exists [], []; repeat split; auto.
  - simpl search; rewrite matchAt_reLastSegment.
    destruct (forallb (notChr SLASH) (x :: s)) eqn:Eall.
    + exists [], (x :: s); repeat split; auto.
      apply forallb_notChr; assumption.
    + destruct (IH (Some x)) as (dir & seg & -> & E & Hseg & Hdir).
      rewrite E.
      exists (x :: dir), seg; repeat split; auto.
      right; destruct Hdir as [->|[d ->]].
      * exists []; simpl.
        simpl in Eall; apply andb_false_iff in Eall.
        destruct Eall as [Ex|Es].
        -- unfold notChr in Ex; apply negb_false_iff, N.eqb_eq in Ex.
           subst; reflexivity.
        -- apply forallb_notChr in Hseg; congruence.
      * exists (x :: d); reflexivity.
Qed.

Section ScopeProperties.

Context {H : Host} {C : Config}.

Lemma rootDirOf_containing (root : URL) :
  containingDirectory (pathname root) (rootDirOf root).
Proof.
  unfold rootDirOf, containingDirectory.
  destruct (endsWith (pathname root) [SLASH]) eqn:E.
  - exists []; rewrite app_nil_r; repeat split; auto.
    right; apply endsWith_slash; assumption.
  - unfold replaceFirst.
    destruct (search_reLastSegment (pathname root) None)
      as (dir & seg & Ep & Es & Hseg & Hdir).
    rewrite Es, Ep.
    assert (Er : firstn (length dir) (dir ++ seg)
                   ++ [] ++ skipn (length dir + length seg) (dir ++ seg)
                 = dir).
    { rewrite firstn_app, firstn_all, Nat.sub_diag, firstn_0, app_nil_r.
      rewrite <- length_app, skipn_all; simpl.
      rewrite app_nil_r; reflexivity. }
    rewrite Er; exists seg; repeat split; auto.
Qed.

Lemma containingDirectory_unique (path d1 d2 : jsstring) :
  containingDirectory path d1 -> containingDirectory path d2 -> d1 = d2.
Proof.
  assert (Hlast : forall (d l d' : jsstring),
             l <> [] -> d ++ [SLASH] = d' ++ l -> In SLASH l).
  { intros d l d' Hl E.
    destruct (exists_last Hl) as (l' & z & ->).
    rewrite app_assoc in E; apply app_inj_tail in E.
    destruct E as [_ <-]; apply in_or_app; right; left; reflexivity. }
  assert (Hone : forall a b sa sb : jsstring,
             a ++ sa = b ++ sb -> ~ In SLASH sb ->
             (a = [] \/ exists d, a = d ++ [SLASH]) ->
             forall l, a = b ++ l -> l = []).
  { intros a b sa sb E Hsb Ha l El.
    destruct l as [|z l]; [reflexivity|exfalso].
    destruct Ha as [->|[d ->]].
    - symmetry in El; apply app_eq_nil in El; destruct El; discriminate.
    - assert (Hz : In SLASH (z :: l)) by (eapply Hlast; [discriminate|eauto]).
      rewrite El, <- app_assoc in E; apply app_inv_head in E.
      apply Hsb; rewrite <- E; apply in_or_app; auto. }
  intros (s1 & E1 & Hs1 & Hd1) (s2 & E2 & Hs2 & Hd2).
  assert (E : d1 ++ s1 = d2 ++ s2) by congruence.
  destruct (app_eq_app _ _ _ _ E) as [l [[El Es]|[El Es]]].
  - rewrite (Hone d1 d2 s1 s2 E Hs2 Hd1 l El) in El.
    rewrite app_nil_r in El; assumption.
  - symmetry in E.
    rewrite (Hone d2 d1 s2 s1 E Hs1 Hd2 l El) in El.
    rewrite app_nil_r in El; congruence.
Qed.

(** C4. With the root URL and the candidate parsed, [isAllowedGuideUrl]
    returns false when the candidate's host differs from the root's, when
    its path does not start with the root's containing directory, and when
    its path ends neither in [.htm] or [.html] (in any case of the letters)
    nor in a slash; it returns true otherwise. *)
Theorem isAllowedGuideUrl_scope (candidate : jsstring) (root u : URL)
  (dir : jsstring) :
  newURL GUIDE_ROOT_URL = Some root ->
  newURL candidate = Some u ->
  containingDirectory (pathname root) dir ->
  (host u <> host root -> isAllowedGuideUrl candidate = Normal false)
  /\ (~ isPrefixOf dir (pathname u) ->
      isAllowedGuideUrl candidate = Normal false)
  /\ (~ documentPath (pathname u) ->
      isAllowedGuideUrl candidate = Normal false)
  /\ (host u = host root -> isPrefixOf dir (pathname u) ->
      documentPath (pathname u) ->
      isAllowedGuideUrl candidate = Normal true).
Proof.
  intros Eroot Eu Hdir.
  assert (Edir : rootDirOf root = dir)
    by (eapply containingDirectory_unique;
        [apply rootDirOf_containing | exact Hdir]).
  unfold isAllowedGuideUrl; rewrite Eroot, Eu, Edir.
  destruct (streq (host u) (host root)) eqn:Eh;
    [apply streq_eq in Eh
    |assert (Hh : host u <> host root)
       by (intros E; apply streq_eq in E; congruence)];
    destruct (startsWith (pathname u) dir) eqn:Ep;
    try (apply startsWith_prefix in Ep);
    destruct (test reDocSuffix (pathname u)) eqn:Ed;
    try (apply test_reDocSuffix in Ed); simpl;
    repeat split; intros; try reflexivity; try contradiction;
    try (exfalso;
         match goal with
         | E : startsWith _ _ = false, P : isPrefixOf _ _ |- _ =>
             apply startsWith_prefix in P; congruence
         | E : test _ _ = false, P : documentPath _ |- _ =>
             apply test_reDocSuffix in P; congruence
         end).
Qed.

End ScopeProperties.

(* ------------------------------------------------------------------ *)
(** ** The properties on the sample site *)

Lemma sample_host_laws : @HostLaws Sample.host.
Proof.
  constructor; intros a b; simpl; unfold asciiLower.
  rewrite map_app; reflexivity.
Qed.

Lemma sample_populated :
  @cacheState Sample.config Sample.populated (Some [Sample.page1]).
Proof.
  exact (@state_returned Sample.config guideCache None guideCache None 0%Z
           (@afterCrawl Sample.config 0%Z) [Sample.page1]
           (@state_initial Sample.config) (@state_initial Sample.config)
           eq_refl).
Defined.


(** C2 as stated fails: the cache holds a page, the site cannot be reached,
    the crawl returns an empty list without throwing, and the call made
    after the six hours returns that empty list. *)
Lemma getGuidePages_serves_empty_after_empty_crawl :
  pages Sample.populated <> []
  /\ @crawlGuidePages Sample.host Sample.config Sample.offline 2
     = Some (Normal [])
  /\ @fetchGuidePages Sample.host Sample.config Sample.offline 2 21600001
       Sample.populated
     = Some ([], {| pages := []; fetchedAt := 21600001;
                    expiresAt := 43200001; lastError := [] |})
  /\ fst (@callsGetGuidePages Sample.config [(21600001%Z, Normal [])]
            Sample.populated) = [[]].
Proof.
  split; [discriminate|].
  split; [vm_compute; reflexivity|].
  split; vm_compute; reflexivity.
Qed.

(** C2 as amended, on the sample cache: a call served from the cache, a
    call whose crawl throws and a call whose crawl finds a page. *)
Lemma getGuidePages_never_empty_witness :
  (forall result,
      In result
        (fst (@callsGetGuidePages Sample.config
                [(100%Z, Throw []); (21600001%Z, Throw []);
                 (21600002%Z, Normal [Sample.bodyOnly])]
                Sample.populated)) -> result <> [])
  /\ pages
       (snd (@callsGetGuidePages Sample.config
               [(100%Z, Throw []); (21600001%Z, Throw []);
                (21600002%Z, Normal [Sample.bodyOnly])]
               Sample.populated)) <> [].
Proof.
  apply (proj1 (@getGuidePages_never_empty_unless_crawl_empty Sample.config)
           [(100%Z, Throw []); (21600001%Z, Throw []);
            (21600002%Z, Normal [Sample.bodyOnly])]
           Sample.populated (Some [Sample.page1])).
  - exact sample_populated.
  - discriminate.
  - intros now crawl Hin.
    simpl in Hin.
    destruct Hin as [E|[E|[E|[]]]]; inversion E; subst; discriminate.
Defined.


(** C4 for the page A of the sample site under the default root. *)
Lemma isAllowedGuideUrl_scope_witness :
  let root := {| href := Sample.rootUrl; host := lit "guide.sotobaco.com";
                 pathname := lit "/portal/index.html" |} in
  let u := {| href := Sample.urlA; host := lit "guide.sotobaco.com";
              pathname := lit "/portal/a.html" |} in
  (host u <> host root ->
   @isAllowedGuideUrl Sample.host Sample.config Sample.urlA = Normal false)
  /\ (~ isPrefixOf (lit "/portal/") (pathname u) ->
      @isAllowedGuideUrl Sample.host Sample.config Sample.urlA = Normal false)
  /\ (~ documentPath (pathname u) ->
      @isAllowedGuideUrl Sample.host Sample.config Sample.urlA = Normal false)
  /\ (host u = host root -> isPrefixOf (lit "/portal/") (pathname u) ->
      documentPath (pathname u) ->
      @isAllowedGuideUrl Sample.host Sample.config Sample.urlA = Normal true).
Proof.
  intros root u.
  apply (@isAllowedGuideUrl_scope Sample.host Sample.config Sample.urlA
           root u (lit "/portal/")).
  - reflexivity.
  - reflexivity.
  - exists (lit "index.html"); split; [reflexivity|]; split.
    + apply forallb_notChr; reflexivity.
    + right; exists (lit "/portal"); reflexivity.
Defined.


(** C6 as stated fails on the sample site: page B is linked from the root
    and from page A, and is put on the queue twice before it is visited. *)
Lemma crawl_enqueues_a_url_twice :
  @crawlRun Sample.host Sample.config Sample.site 10
  = Some (Normal Sample.finalState)
  /\ enqueuedUrls (history Sample.finalState)
     = [Sample.rootUrl; Sample.urlA; Sample.urlB; Sample.urlB]
  /\ ~ NoDup (enqueuedUrls (history Sample.finalState)).
Proof.
  assert (E : enqueuedUrls (history Sample.finalState)
              = [Sample.rootUrl; Sample.urlA; Sample.urlB; Sample.urlB])
    by (vm_compute; reflexivity).
  split; [vm_compute; reflexivity|]; split; [exact E|].
  rewrite E; intros Hnd.
  inversion Hnd as [|? ? _ Hnd1]; subst.
  inversion Hnd1 as [|? ? _ Hnd2]; subst.
  inversion Hnd2 as [|? ? Hnot _]; subst.
  apply Hnot; left; reflexivity.
Qed.

(** C6 as amended, in the state in which the crawl of the sample site
    ends. *)
Lemma crawl_fetches_each_url_once_witness :
  NoDup (fetchedUrls (history Sample.finalState))
  /\ (forall u, In u (fetchedUrls (history Sample.finalState)) ->
                In u (visited Sample.finalState))
  /\ forall st',
       @crawlIteration Sample.host Sample.config Sample.site Sample.finalState
       = LoopNext st' ->
       exists events,
         history st' = history Sample.finalState ++ events
         /\ queue st' = tl (queue Sample.finalState) ++ enqueuedUrls events
         /\ NoDup (enqueuedUrls events)
         /\ forall x, In x (enqueuedUrls events) -> ~ In x (visited st').
Proof.
  apply (@crawl_fetches_each_url_once Sample.host Sample.config Sample.site
           Sample.finalState).
  apply (@crawlRun_reaches Sample.host Sample.config Sample.site 10).
  vm_compute; reflexivity.
Defined.

(** C7 as stated fails: entities are decoded after the tags are removed, so
    an encoded tag comes out as a tag, and a doubly encoded ampersand comes
    out as an entity reference. *)
Lemma stripHtmlToText_leaves_markup :
  stripHtmlToText (lit "&lt;b&gt; &amp;amp;") = Normal (lit "<b> &amp;")
  /\ test reTag (lit "<b> &amp;") = true
  /\ test reNamedEntity (lit "<b> &amp;") = true
  /\ ~ tagFree (lit "<b> &amp;").
Proof.
  split; [vm_compute; reflexivity|].
  split; [vm_compute; reflexivity|].
  split; [vm_compute; reflexivity|].
  intros [Hopen _]; apply (Hopen eq_refl).
  right; left; reflexivity.
Qed.

(** C7 as amended, for the two paragraphs of the specification. *)
Lemma stripHtmlToText_without_entities_witness :
  exists out,
    stripHtmlToText (lit "<p>a</p><p>b</p>") = Normal out
    /\ tagFree out /\ test reTag out = false
    /\ ~ In AMP out /\ test reNamedEntity out = false.
Proof.
  apply (proj1 stripHtmlToText_without_entities (lit "<p>a</p><p>b</p>")).
  apply forallb_notChr; reflexivity.
Defined.

(** C9 as stated fails on a text that is not normalised: the leading space
    is not part of the snippet. *)
Lemma pickGuideSnippet_normalises_before_slicing :
  @pickGuideSnippet Sample.host (Sample.snippetPage (lit " a")) [] 540
  = lit "a"
  /\ @pickGuideSnippet Sample.host (Sample.snippetPage (lit " a")) [] 540
     <> firstn 540 (text (Sample.snippetPage (lit " a"))).
Proof.
  split; [vm_compute; reflexivity | vm_compute; discriminate].
Qed.

(** C10 as stated fails on a text of 600 letters without a line feed: the
    token is found at 0, no line feed follows position 540, and the snippet
    ends at 540, not at the end of the text. *)
Lemma pickGuideSnippet_window_not_to_end_of_text :
  let p := Sample.snippetPage Sample.noLineFeed in
  let src := normalizeMultiline (text p) in
  @firstHit Sample.host (@toLowerCase Sample.host src) [lit "a"] = 0%Z
  /\ indexOf src [LF] 540 = (-1)%Z
  /\ len src = 600%Z
  /\ len (@pickGuideSnippet Sample.host p [lit "a"] 540) = 540%Z
  /\ @pickGuideSnippet Sample.host p [lit "a"] 540
     <> trim (slice src 0 (len src)).
Proof.
  repeat split; try (vm_compute; reflexivity).
  intros E; apply (f_equal (@length N)) in E; vm_compute in E; discriminate.
Qed.

(** C10 as amended, on a text whose first line has 600 letters: the
    snippet runs to the line feed at 600. *)
Lemma pickGuideSnippet_hit_window_witness :
  let p := Sample.snippetPage Sample.longLine in
  let src := normalizeMultiline (text p) in
  exists end_ : Z,
    @pickGuideSnippet Sample.host p [lit "a"] 540 = trim (slice src 0 end_)
    /\ ((charAt src end_ = Some LF /\ (540 <= end_)%Z
         /\ forall j, (540 <= j < end_)%Z -> charAt src j <> Some LF)
        \/ (end_ = 540%Z
            /\ forall j, (540 <= j)%Z -> charAt src j <> Some LF)).
Proof.
  apply (proj1 (@pickGuideSnippet_hit_window Sample.host)
           (Sample.snippetPage Sample.longLine) [lit "a"] 540%Z).
  - discriminate.
  - vm_compute; discriminate.
  - vm_compute; discriminate.
Defined.

(* ------------------------------------------------------------------ *)
(** ** The functions on concrete inputs *)

Example decodeHtmlEntities_mixed :
  decodeHtmlEntities (lit "&amp;&#65;&#x42;") = Normal (lit "&AB").
Proof. vm_compute; reflexivity. Qed.

Example decodeHtmlEntities_unknown_name :
  decodeHtmlEntities (lit "&copy; &nbsp;") = Normal (lit "&copy;  ").
Proof. vm_compute; reflexivity. Qed.

Example decodeHtmlEntities_out_of_range :
  decodeHtmlEntities (lit "&#1114112;") = Throw (lit "Invalid code point").
Proof. vm_compute; reflexivity. Qed.

Example stripHtmlToText_script_and_breaks :
  stripHtmlToText
    (lit "<script type=x>var a = '<b>';</script>x<SCRIPT>y</ScRiPt>z<br/>r")
  = Normal [120; 32; 122; 10; 114]%N.
Proof. vm_compute; reflexivity. Qed.

Example normalizeMultiline_blank_lines :
  normalizeMultiline ([32; 97; 32; 13; 10; 10; 10; 10; 98; 9; 10]%N)
  = [97; 10; 10; 98]%N.
Proof. vm_compute; reflexivity. Qed.

Example tokenize_sample :
  @tokenize Sample.host (lit "Open the KINTONE portal, then open app-93")
  = [lit "open"; lit "the"; lit "portal"; lit "then"; lit "app-93"].
Proof. vm_compute; reflexivity. Qed.

Example isAllowedGuideUrl_other_host :
  @isAllowedGuideUrl Sample.host Sample.config
    (lit "https://www.sotobaco.com/portal/a.html") = Normal false.
Proof. vm_compute; reflexivity. Qed.

Example isAllowedGuideUrl_other_directory :
  @isAllowedGuideUrl Sample.host Sample.config
    (lit "https://guide.sotobaco.com/portal2/a.html") = Normal false.
Proof. vm_compute; reflexivity. Qed.

Example isAllowedGuideUrl_not_a_document :
  @isAllowedGuideUrl Sample.host Sample.config
    (lit "https://guide.sotobaco.com/portal/logo.png") = Normal false.
Proof. vm_compute; reflexivity. Qed.

Example isAllowedGuideUrl_upper_case_suffix :
  @isAllowedGuideUrl Sample.host Sample.config
    (lit "https://guide.sotobaco.com/portal/sub/A.HTM") = Normal true.
Proof. vm_compute; reflexivity. Qed.

(** The crawl of [Sample.portal] records the root and its two links inside
    the guide, in that order, and never fetches the link that leaves it. *)
Example crawlGuidePages_portal :
  match @crawlRun Sample.host Sample.config Sample.portal 10 with
  | Some (Normal st) =>
      map url (crawled st) = [Sample.rootUrl; Sample.urlA; Sample.urlB]
      /\ map title (crawled st) = [lit "Portal"; lit "A"; lit "B"]
      /\ fetchedUrls (history st) = [Sample.rootUrl; Sample.urlA; Sample.urlB]
  | _ => False
  end.
Proof. vm_compute; repeat split; reflexivity. Qed.

(** The seed tokens of [buildGuideContext] are pairwise distinct. *)
Lemma seed_tokens_distinct (H : Host) (q : jsstring)
  (candidates : list Candidate) :
  NoDup (firstn 24 (tokenize (seedOf q candidates))).
Proof.
  apply NoDup_firstn; unfold tokenize, unique; apply NoDup_newSet.
Qed.


(* ------------------------------------------------------------------ *)
(** * Further properties *)

(** ** What a crawl records and fetches *)

Lemma len_slice_prefix (txt : jsstring) :
  (80 < len txt)%Z ->
  (80 < len (slice txt 0 12000) <= 12000)%Z.
Proof.
  intros Hlen; rewrite slice_prefix by lia; unfold len in *.
  rewrite length_firstn; lia.
Qed.

Section CrawlRecords.

Context {H : Host} {C : Config}.

Lemma extractTitleFromHtml_nonempty (html fallback ttl : jsstring) :
  extractTitleFromHtml html fallback = Normal ttl ->
  fallback <> [] -> ttl <> [].
Proof.
  unfold extractTitleFromHtml; intros E Hf.
  destruct (search reTitle None html) as [[[i n] cs]|].
  - destruct (decodeHtmlEntities _) as [decoded|m]; simpl in E;
      [|discriminate].
    destruct (cleanInline decoded) as [|c t] eqn:Et; simpl in E;
      inversion E; subst; [assumption | discriminate].
  - inversion E; subst; assumption.
Qed.

Lemma isAllowedGuideUrl_throws (u m : jsstring) :
  isAllowedGuideUrl u = Throw m ->
  newURL GUIDE_ROOT_URL = None \/ newURL u = None.
Proof.
  unfold isAllowedGuideUrl.
  destruct (newURL GUIDE_ROOT_URL) as [root|]; [|auto].
  destruct (newURL u) as [p|]; [|auto].
  destruct (negb (streq (host p) (host root))); [discriminate|].
  destruct (negb (startsWith (pathname p) (rootDirOf root))); [discriminate|].
  destruct (negb (test reDocSuffix (pathname p))); discriminate.
Qed.

Lemma isAllowedGuideUrl_parses (u : jsstring) (b : bool) :
  isAllowedGuideUrl u = Normal b -> newURL u <> None.
Proof.
  unfold isAllowedGuideUrl.
  destruct (newURL GUIDE_ROOT_URL) as [root|]; [|discriminate].
  destruct (newURL u) as [p|]; [discriminate | discriminate].
Qed.

Lemma filterLinks_allowed (seen links kept : list jsstring) :
  filterLinks seen links = Normal kept ->
  forall x, In x kept -> isAllowedGuideUrl x = Normal true.
Proof.
  revert kept; induction links as [|next links IH]; simpl; intros kept E.
  - inversion E; intros x [].
  - destruct (has seen next); simpl in E.
    + destruct (filterLinks seen links) as [rest|m]; [|discriminate].
      simpl in E; inversion E; subst; apply IH; reflexivity.
    + destruct (isAllowedGuideUrl next) as [keep|m] eqn:Ea; [|discriminate].
      simpl in E.
      destruct (filterLinks seen links) as [rest|m]; [|discriminate].
      simpl in E; inversion E; subst.
      destruct keep.
      * intros x [<-|Hx]; [assumption | apply (IH rest eq_refl); assumption].
      * apply IH; reflexivity.
Qed.

(** What visiting one page can add to the pages and to the queue. *)
Lemma visitPage_records (web : Web) (u : jsstring) (st : CrawlState) :
  (crawled (visitPage web u st) = crawled st
   \/ exists p,
        crawled (visitPage web u st) = crawled st ++ [p]
        /\ url p = u /\ (u <> [] -> title p <> [])
        /\ (80 < len (text p) <= 12000)%Z)
  /\ forall x, In x (queue (visitPage web u st)) ->
               In x (queue st) \/ isAllowedGuideUrl x = Normal true.
Proof.
  unfold visitPage.
  destruct (web u) as [html|]; [|simpl; auto].
  destruct (extractTitleFromHtml html u) as [ttl|m] eqn:Et; [|simpl; auto].
  destruct (stripHtmlToText html) as [txt|m]; [|simpl; auto].
  cbn [visited queue crawled history].
  assert (Hpages :
            (if (80 <? len txt)%Z
             then crawled st ++ [{| url := u; title := ttl;
                                    text := slice txt 0 12000 |}]
             else crawled st) = crawled st
            \/ exists p,
                 (if (80 <? len txt)%Z
                  then crawled st ++ [{| url := u; title := ttl;
                                         text := slice txt 0 12000 |}]
                  else crawled st) = crawled st ++ [p]
                 /\ url p = u /\ (u <> [] -> title p <> [])
                 /\ (80 < len (text p) <= 12000)%Z).
  { destruct (Z.ltb_spec 80 (len txt)); [right | left; reflexivity].
    eexists; split; [reflexivity|]; cbn [url title text].
    split; [reflexivity|]; split.
    - intros Hu; eapply extractTitleFromHtml_nonempty; eauto.
    - apply len_slice_prefix; assumption. }
  destruct (filterLinks (visited st) (extractHrefLinks html u))
    as [links|m] eqn:El; cbn [visited queue crawled history].
  - split; [exact Hpages|].
    intros x Hx; apply in_app_or in Hx; destruct Hx as [Hx|Hx]; [auto|].
    right; apply In_firstn in Hx.
    eapply filterLinks_allowed; eauto.
  - split; [exact Hpages | auto].
Qed.

Lemma visitPage_fetched (web : Web) (u : jsstring) (st : CrawlState) :
  fetchedUrls (history (visitPage web u st))
  = fetchedUrls (history st) ++ [u].
Proof.
  destruct (visitPage_spec web u st) as (_ & batch & Eh & _).
  rewrite Eh, fetchedUrls_app; simpl.
  rewrite fetchedUrls_enqueued; reflexivity.
Qed.

(** The invariant of the loop on what was recorded and fetched. *)
Lemma crawlReaches_records (web : Web) (st : CrawlState) :
  crawlReaches web st ->
  length (crawled st) <= GUIDE_MAX_PAGES
  /\ NoDup (map url (crawled st))
  /\ (forall p, In p (crawled st) ->
        In (url p) (fetchedUrls (history st))
        /\ title p <> [] /\ (80 < len (text p) <= 12000)%Z)
  /\ (forall u, In u (fetchedUrls (history st)) ->
        u <> [] /\ isAllowedGuideUrl u = Normal true).
Proof.
  induction 1 as [root Eroot|st st' Hreach IH Estep].
  - simpl; split; [lia|]; split; [constructor|]; split; intros ? [].
  - pose proof IH as (Hmax & Hnd & Hpages & Hfetched).
    destruct (crawlReaches_fetched Hreach) as [_ Hvisited].
    unfold crawlIteration in Estep.
    destruct (queue st) as [|u rest]; [discriminate|].
    destruct (Nat.leb_spec GUIDE_MAX_PAGES (length (crawled st)));
      [discriminate|].
    cbn [visited queue crawled history] in Estep.
    destruct (isEmpty u || has (visited st) u) eqn:Eskip;
      [inversion Estep; subst; exact IH|].
    apply orb_false_iff in Eskip; destruct Eskip as [Hne Hnew].
    apply has_false in Hnew.
    assert (Hu : u <> []) by (intros ->; discriminate).
    destruct (isAllowedGuideUrl u) as [[|]|m] eqn:Ea; inversion Estep; subst;
      [|exact IH].
    set (st2 := {| visited := add (visited st) u; queue := rest;
                   crawled := crawled st; history := history st |}).
    rewrite (visitPage_fetched web u st2).
    destruct (visitPage_records web u st2) as [Hrec _].
    cbn [crawled history st2] in *.
    assert (Hf' : forall x, In x (fetchedUrls (history st) ++ [u]) ->
                            x <> [] /\ isAllowedGuideUrl x = Normal true).
    { intros x Hx; apply in_app_or in Hx.
      destruct Hx as [Hx|[<-|[]]]; auto. }
    destruct Hrec as [->|(p & -> & Eu & Ht & Hlen)].
    + split; [assumption|]; split; [assumption|]; split; [|assumption].
      intros p Hp; destruct (Hpages p Hp) as (Hf & Hrest).
      split; [apply in_or_app; left; assumption | assumption].
    + rewrite length_app, map_app; simpl.
      split; [lia|]; split; [|split; [|assumption]].
      * apply NoDup_snoc; [assumption|].
        rewrite Eu; intros Hin; apply in_map_iff in Hin.
        destruct Hin as (q & Eq & Hq).
        apply Hnew, Hvisited; rewrite <- Eq; apply Hpages; assumption.
      * intros q Hq; apply in_app_or in Hq; destruct Hq as [Hq|[<-|[]]].
        -- destruct (Hpages q Hq) as (Hf & Hrest).
           split; [apply in_or_app; left; assumption | assumption].
        -- split; [rewrite Eu; apply in_or_app; right; left; reflexivity|].
           split; [auto | assumption].
Qed.

(** X1. A crawl that returns never returns more than [GUIDE_MAX_PAGES]
    pages. *)
Theorem crawlGuidePages_at_most_max_pages (web : Web) (fuel : nat)
  (found : list Page) :
  crawlGuidePages web fuel = Some (Normal found) ->
  length found <= GUIDE_MAX_PAGES.
Proof.
  unfold crawlGuidePages.
  destruct (crawlRun web fuel) as [[st|m]|] eqn:E; try discriminate.
  intros E'; inversion E'; subst.
  apply (crawlReaches_records (crawlRun_reaches _ _ E)).
Qed.

(** X2. The pages a crawl returns have pairwise distinct URLs; each has a
    URL that passed [isAllowedGuideUrl], a title that is not empty, and a
    text of more than 80 and at most 12000 code units. *)
Theorem crawlGuidePages_pages_well_formed (web : Web) (fuel : nat)
  (found : list Page) :
  crawlGuidePages web fuel = Some (Normal found) ->
  NoDup (map url found)
  /\ forall p, In p found ->
       isAllowedGuideUrl (url p) = Normal true
       /\ url p <> [] /\ title p <> []
       /\ (80 < len (text p) <= 12000)%Z.
Proof.
  unfold crawlGuidePages.
  destruct (crawlRun web fuel) as [[st|m]|] eqn:E; try discriminate.
  intros E'; inversion E'; subst.
  destruct (crawlReaches_records (crawlRun_reaches _ _ E))
    as (_ & Hnd & Hpages & Hfetched).
  split; [assumption|].
  intros p Hp; destruct (Hpages p Hp) as (Hf & Ht & Hlen).
  destruct (Hfetched _ Hf); auto.
Qed.

(** X3. In every state of a run, every URL that was fetched is a URL that
    [isAllowedGuideUrl] accepts: the crawler never requests a page outside
    the guide. *)
Theorem crawl_fetches_only_allowed_urls (web : Web) (st : CrawlState) :
  crawlReaches web st ->
  forall u, In u (fetchedUrls (history st)) ->
            isAllowedGuideUrl u = Normal true.
Proof.
  intros Hreach u Hu.
  apply (crawlReaches_records Hreach); assumption.
Qed.

End CrawlRecords.

Section CrawlOutcome.

Context {H : Host} {C : Config}.

(** When the root URL and the start URL parse, every URL on the queue
    parses: it is the start URL or it passed the filter. *)
Lemma crawlReaches_queue_parses (web : Web) (st : CrawlState) :
  (forall root, newURL GUIDE_ROOT_URL = Some root ->
                newURL (href root) <> None) ->
  crawlReaches web st ->
  forall x, In x (queue st) -> newURL x <> None.
Proof.
  intros Hstart; induction 1 as [root Eroot|st st' Hreach IH Estep].
  - simpl; intros x [<-|[]]; apply (Hstart root Eroot).
  - unfold crawlIteration in Estep.
    destruct (queue st) as [|u rest]; [discriminate|].
    destruct (GUIDE_MAX_PAGES <=? length (crawled st))%nat; [discriminate|].
    cbn [visited queue crawled history] in Estep.
    assert (Hrest : forall x, In x rest -> newURL x <> None)
      by (intros x Hx; apply IH; right; assumption).
    destruct (isEmpty u || has (visited st) u);
      [inversion Estep; subst; exact Hrest|].
    destruct (isAllowedGuideUrl u) as [[|]|m]; inversion Estep; subst;
      [|exact Hrest].
    intros x Hx.
    apply (proj2 (visitPage_records web u _)) in Hx.
    destruct Hx as [Hx|Hx]; [apply Hrest; assumption|].
    eapply isAllowedGuideUrl_parses; eassumption.
Qed.

Lemma crawlLoop_throws (web : Web) (fuel : nat) (st : CrawlState)
  (m : jsstring) :
  crawlReaches web st ->
  crawlLoop web fuel st = Some (Throw m) ->
  exists st' u,
    crawlReaches web st' /\ In u (queue st')
    /\ isAllowedGuideUrl u = Throw m.
Proof.
  revert st; induction fuel as [|fuel IH]; simpl; intros st Hreach E;
    [discriminate|].
  destruct (crawlIteration web st) as [|next|m'] eqn:Estep.
  - discriminate.
  - apply (IH next); [eapply reaches_next; eauto | assumption].
  - inversion E; subst.
    exists st; unfold crawlIteration in Estep.
    destruct (queue st) as [|u rest]; [discriminate|].
    exists u; split; [assumption|]; split; [left; reflexivity|].
    destruct (GUIDE_MAX_PAGES <=? length (crawled st))%nat; [discriminate|].
    cbn [visited queue crawled history] in Estep.
    destruct (isEmpty u || has (visited st) u); [discriminate|].
    destruct (isAllowedGuideUrl u) as [[|]|m']; inversion Estep; reflexivity.
Qed.

(** X4. Provided the URL constructor accepts the [href] of a URL it has
    parsed, a crawl throws exactly when the root URL does not parse: a page
    that cannot be fetched or read, or a link that does not parse, never
    makes the crawl throw. *)
Theorem crawlGuidePages_throws_iff_bad_root (web : Web) (fuel : nat) :
  (forall root, newURL GUIDE_ROOT_URL = Some root ->
                newURL (href root) <> None) ->
  (exists m, crawlGuidePages web fuel = Some (Throw m))
  <-> newURL GUIDE_ROOT_URL = None.
Proof.
  intros Hstart; split.
  - intros [m E].
    pose proof Hstart as Hstart'.
    destruct (newURL GUIDE_ROOT_URL) as [root|] eqn:Eroot; [|reflexivity].
    exfalso; revert E.
    unfold crawlGuidePages, crawlRun; rewrite Eroot.
    destruct (crawlLoop web fuel (crawlStart (href root)))
      as [[st|m']|] eqn:E; try discriminate.
    intros _.
    destruct (@crawlLoop_throws web fuel _ m' (reaches_start web Eroot) E)
      as (st' & u & Hreach & Hu & Ethrow).
    apply isAllowedGuideUrl_throws in Ethrow.
    destruct Ethrow as [Ebad|Ebad]; [congruence|].
    revert Ebad.
    apply (@crawlReaches_queue_parses web st') with (x := u); auto.
    intros root' Eroot'; apply Hstart'; congruence.
  - intros E; exists (lit "Invalid URL").
    unfold crawlGuidePages, crawlRun; rewrite E; reflexivity.
Qed.

Lemma crawlGuidePages_start_page_skipped (web : Web) (root : URL)
  (fuel : nat) :
  newURL GUIDE_ROOT_URL = Some root ->
  (web (href root) = None /\ isAllowedGuideUrl (href root) = Normal true)
  \/ isAllowedGuideUrl (href root) = Normal false ->
  2 <= fuel ->
  crawlGuidePages web fuel = Some (Normal []).
Proof.
  intros Eroot Hcase Hfuel.
  destruct fuel as [|[|fuel]]; try lia.
  unfold crawlGuidePages, crawlRun; rewrite Eroot.
  unfold crawlLoop at 1; fold crawlLoop.
  unfold crawlIteration at 1, crawlStart;
    cbn [visited queue crawled history length].
  destruct (GUIDE_MAX_PAGES <=? 0)%nat; [reflexivity|].
  destruct (isEmpty (href root)); cbn [orb has existsb];
    [reflexivity|].
  destruct Hcase as [[Eweb Ea]|Ea]; rewrite Ea.
  - unfold visitPage; rewrite Eweb; reflexivity.
  - reflexivity.
Qed.

Lemma isAllowedGuideUrl_returns (u : jsstring) (root : URL) :
  newURL GUIDE_ROOT_URL = Some root -> newURL u <> None ->
  exists b, isAllowedGuideUrl u = Normal b.
Proof.
  intros Eroot Hu; unfold isAllowedGuideUrl; rewrite Eroot.
  destruct (newURL u) as [v|]; [|contradiction].
  destruct (negb (streq (host v) (host root))); [eauto|].
  destruct (negb (startsWith (pathname v) (rootDirOf root))); [eauto|].
  destruct (negb (test reDocSuffix (pathname v))); eauto.
Qed.

(** X5. When the start page cannot be fetched, the crawl ends after at most
    two tests of the loop condition and returns an empty list, not an
    error. *)
Theorem crawlGuidePages_without_start_page (web : Web) (root : URL)
  (fuel : nat) :
  newURL GUIDE_ROOT_URL = Some root ->
  newURL (href root) <> None ->
  web (href root) = None ->
  2 <= fuel ->
  crawlGuidePages web fuel = Some (Normal []).
Proof.
  intros Eroot Hparse Eweb Hfuel.
  destruct (isAllowedGuideUrl_returns (href root) Eroot Hparse) as [[|] Ea];
    eapply crawlGuidePages_start_page_skipped; eauto.
Qed.

(** X6. The start page itself is subject to the scope filter: the root URL
    is in its own scope exactly when its path ends in [.htm], [.html] or a
    slash. With any other root URL the start page is not fetched and the
    crawl returns an empty list, whatever the site holds. (The URL
    constructor is assumed to parse the [href] of the root URL to the same
    host and path.) *)
Theorem isAllowedGuideUrl_root (root : URL) :
  newURL GUIDE_ROOT_URL = Some root ->
  newURL (href root) = Some root ->
  (isAllowedGuideUrl (href root) = Normal true
   <-> documentPath (pathname root))
  /\ (~ documentPath (pathname root) ->
      isAllowedGuideUrl (href root) = Normal false
      /\ forall web fuel,
           2 <= fuel -> crawlGuidePages web fuel = Some (Normal [])).
Proof.
  intros Eroot Ehref.
  assert (Ea : isAllowedGuideUrl (href root)
               = Normal (test reDocSuffix (pathname root))).
  { unfold isAllowedGuideUrl; rewrite Eroot, Ehref, streq_refl.
    destruct (rootDirOf_containing root) as (seg & Ep & _).
    assert (Es : startsWith (pathname root) (rootDirOf root) = true)
      by (apply startsWith_prefix; exists seg; exact Ep).
    rewrite Es; destruct (test reDocSuffix (pathname root)); reflexivity. }
  split.
  - rewrite Ea, <- test_reDocSuffix; split; [|intros ->; reflexivity].
    intros E; inversion E; reflexivity.
  - intros Hdoc.
    assert (Ef : isAllowedGuideUrl (href root) = Normal false).
    { rewrite Ea; destruct (test reDocSuffix (pathname root)) eqn:Et;
        [|reflexivity].
      apply test_reDocSuffix in Et; contradiction. }
    split; [exact Ef|].
    intros web fuel Hfuel.
    eapply crawlGuidePages_start_page_skipped; eauto.
Qed.

End CrawlOutcome.

(* ------------------------------------------------------------------ *)
(** ** What the cache records *)

Section CacheRecords.

Context {C : Config}.

(** X7. In every state of the cache after the initial one, either
    [lastError] is empty, the pages are those of the last crawl that
    returned and [expiresAt] is [fetchedAt] plus the time to live, or
    [lastError] is not empty and [expiresAt] is [fetchedAt] plus the
    shorter of five minutes and the time to live. *)
Theorem cacheState_records (c : GuideCache) (l : option (list Page)) :
  cacheState c l ->
  c = guideCache
  \/ (lastError c = [] /\ l = Some (pages c)
      /\ expiresAt c = (fetchedAt c + GUIDE_CACHE_TTL_MS)%Z)
  \/ (lastError c <> []
      /\ expiresAt c
         = (fetchedAt c + Z.min (5 * 60 * 1000) GUIDE_CACHE_TTL_MS)%Z).
Proof.
  destruct 1 as [|c0 l0 c l now resume found _ _ E
                 |c0 l0 c l now resume message _ _ E].
  - left; reflexivity.
  - apply getGuidePages_await in E; destruct E as (_ & -> & _).
    right; left; simpl; auto.
  - apply getGuidePages_await in E; destruct E as (_ & -> & _).
    right; right; simpl; split; [|reflexivity].
    destruct message; simpl; discriminate.
Qed.

(** A sequence of calls made while the cache is fresh. *)
Lemma callsGetGuidePages_fresh (calls : list (Z * Completion (list Page)))
  (c : GuideCache) :
  GUIDE_CONTEXT_ENABLED = true -> pages c <> [] ->
  (forall now crawl, In (now, crawl) calls -> (now < expiresAt c)%Z) ->
  callsGetGuidePages calls c = (map (fun _ => pages c) calls, c).
Proof.
  intros En Hne; induction calls as [|[now crawl] calls IH]; intros Hcalls;
    simpl; [reflexivity|].
  unfold callGetGuidePages.
  rewrite getGuidePages_hit; auto.
  - rewrite IH; [reflexivity|].
    intros n cr Hin; apply (Hcalls n cr); right; assumption.
  - apply (Hcalls now crawl); left; reflexivity.
Qed.

(** X8. After a crawl that throws at time [now] while the cache holds
    pages, every call made before [now + min(5 minutes, TTL)] is served the
    pages the cache held, without a new crawl: the failed crawl is not
    tried again during that time, and the cache is left as the failed call
    left it. *)
Theorem getGuidePages_failed_crawl_not_retried
  (c : GuideCache) (l : option (list Page)) (now : Z) (message : jsstring)
  (resume : Completion (list Page) -> GuideCache -> list Page * GuideCache)
  (calls : list (Z * Completion (list Page))) :
  cacheState c l -> pages c <> [] ->
  getGuidePages now c = AwaitCrawl resume ->
  (forall now' crawl, In (now', crawl) calls ->
     (now' < now + Z.min (5 * 60 * 1000) GUIDE_CACHE_TTL_MS)%Z) ->
  let c' := snd (resume (Throw message) c) in
  callsGetGuidePages calls c' = (map (fun _ => pages c) calls, c')
  /\ forall now' crawl, In (now', crawl) calls ->
       getGuidePages now' c' = Done (pages c).
Proof.
  intros Hc Hne E Hcalls.
  pose proof (cacheState_enabled Hc Hne) as En.
  apply getGuidePages_await in E; destruct E as (_ & -> & _).
  simpl; split.
  - rewrite callsGetGuidePages_fresh; auto.
  - intros now' crawl Hin.
    rewrite getGuidePages_hit; auto.
    simpl; eauto.
Qed.

(** X9. With the guide context switched off, no call awaits a crawl: every
    call returns an empty list and leaves the cache as it is, and the cache
    never leaves its initial state. *)
Theorem getGuidePages_disabled :
  GUIDE_CONTEXT_ENABLED = false ->
  (forall now c, getGuidePages now c = Done [])
  /\ (forall calls c,
        callsGetGuidePages calls c = (map (fun _ => []) calls, c))
  /\ (forall c l, cacheState c l -> c = guideCache /\ l = None).
Proof.
  intros Off.
  assert (Hcall : forall now c, getGuidePages now c = Done [])
    by (intros now c; unfold getGuidePages; rewrite Off; reflexivity).
  split; [exact Hcall|]; split.
  - induction calls as [|[now crawl] calls IH]; intros c; simpl;
      [reflexivity|].
    unfold callGetGuidePages; rewrite Hcall, IH; reflexivity.
  - destruct 1 as [|c0 l0 c l now resume found _ _ E
                   |c0 l0 c l now resume message _ _ E].
    + auto.
    + rewrite Hcall in E; discriminate.
    + rewrite Hcall in E; discriminate.
Qed.

End CacheRecords.

(* ------------------------------------------------------------------ *)
(** ** Ranking and selection *)

Lemma insertBy_Permutation (A : Type) (cmp : A -> A -> Z) (x : A)
  (l : list A) :
  Permutation (insertBy cmp x l) (x :: l).
Proof.
  induction l as [|y l IH]; simpl; [reflexivity|].
  destruct (cmp x y <=? 0)%Z; [reflexivity|].
  rewrite IH; apply perm_swap.
Qed.

Lemma sortBy_Permutation (A : Type) (cmp : A -> A -> Z) (l : list A) :
  Permutation (sortBy cmp l) l.
Proof.
  induction l as [|x l IH]; simpl; [reflexivity|].
  rewrite insertBy_Permutation; apply perm_skip; exact IH.
Qed.

Lemma insertBy_sorted (x : Scored) (l : list Scored) :
  StronglySorted (fun a b => (score b <= score a)%Z) l ->
  StronglySorted (fun a b => (score b <= score a)%Z) (insertBy (fun a b : Scored => (score b - score a)%Z) x l).
Proof.
  induction 1 as [|y l Hs IH Hy]; simpl.
  - repeat constructor.
  - cbv beta.
    destruct (Z.leb_spec (score y - score x) 0).
    + constructor; [constructor; assumption|].
      constructor; [lia|].
      rewrite Forall_forall in *; intros z Hz; specialize (Hy z Hz); lia.
    + constructor; [exact IH|].
      rewrite Forall_forall in *; intros z Hz.
      apply In_insertBy in Hz; destruct Hz as [->|Hz]; [lia | auto].
Qed.

Lemma sortBy_sorted (l : list Scored) :
  StronglySorted (fun a b => (score b <= score a)%Z) (sortBy (fun a b : Scored => (score b - score a)%Z) l).
Proof.
  induction l as [|x l IH]; simpl; [constructor|].
  apply insertBy_sorted; exact IH.
Qed.

(** The sort is stable: the elements of one score keep their order. *)
Lemma insertBy_stable (k : Z) (x : Scored) (l : list Scored) :
  filter (fun y => (score y =? k)%Z) (insertBy (fun a b : Scored => (score b - score a)%Z) x l)
  = filter (fun y => (score y =? k)%Z) (x :: l).
Proof.
  induction l as [|y l IH]; [reflexivity|].
  cbn [insertBy]; cbv beta.
  destruct (Z.leb_spec (score y - score x) 0); [reflexivity|].
  cbn [filter] in *; rewrite IH.
  destruct (Z.eqb_spec (score x) k), (Z.eqb_spec (score y) k);
    try reflexivity; lia.
Qed.

Lemma sortBy_stable (k : Z) (l : list Scored) :
  filter (fun y => (score y =? k)%Z) (sortBy (fun a b : Scored => (score b - score a)%Z) l)
  = filter (fun y => (score y =? k)%Z) l.
Proof.
  induction l as [|x l IH]; [reflexivity|].
  cbn [sortBy fold_right]; fold (sortBy (fun a b : Scored => (score b - score a)%Z) l).
  rewrite insertBy_stable; cbn [filter]; rewrite IH; reflexivity.
Qed.

Lemma filter_all (A : Type) (f : A -> bool) (l : list A) :
  (forall x, In x l -> f x = true) -> filter f l = l.
Proof.
  induction l as [|x l IH]; simpl; intros Hall; [reflexivity|].
  rewrite (Hall x) by auto; rewrite IH by auto; reflexivity.
Qed.

Lemma sortBy_constant (k : Z) (l : list Scored) :
  (forall x, In x l -> score x = k) -> sortBy (fun a b : Scored => (score b - score a)%Z) l = l.
Proof.
  intros Hall.
  rewrite <- (filter_all (fun y => (score y =? k)%Z) (sortBy (fun a b : Scored => (score b - score a)%Z) l)).
  - rewrite sortBy_stable; apply filter_all.
    intros x Hx; apply Z.eqb_eq; auto.
  - intros x Hx; apply Z.eqb_eq, Hall.
    apply (In_sortBy (fun a b : Scored => (score b - score a)%Z)); assumption.
Qed.

Lemma length_filter_le (A : Type) (f : A -> bool) (l : list A) :
  length (filter f l) <= length l.
Proof.
  induction l as [|x l IH]; simpl; [lia|].
  destruct (f x); simpl; lia.
Qed.

Lemma map_firstn (A B : Type) (f : A -> B) (n : nat) (l : list A) :
  map f (firstn n l) = firstn n (map f l).
Proof.
  revert l; induction n as [|n IH]; intros [|x l]; simpl; try reflexivity.
  rewrite IH; reflexivity.
Qed.

Section Ranking.

Context {H : Host}.

Lemma tokenPoints_range (p : Page) (tk : jsstring) :
  (0 <= tokenPoints p tk <= 3)%Z.
Proof.
  unfold tokenPoints.
  destruct (includes _ tk); [destruct (includes _ tk)|]; lia.
Qed.

Lemma specScore_range (tokens : list jsstring) (p : Page) :
  (0 <= specScore tokens p <= 3 * Z.of_nat (length tokens))%Z.
Proof.
  unfold specScore; induction tokens as [|tk tokens IH].
  - simpl; lia.
  - cbn [map fold_right length].
    pose proof (tokenPoints_range p tk); lia.
Qed.

Lemma specScore_zero (tokens : list jsstring) (p : Page) :
  (forall tk, In tk tokens ->
     includes (toLowerCase (title p ++ [LF] ++ text p)) tk = false) ->
  specScore tokens p = 0%Z.
Proof.
  unfold specScore; induction tokens as [|tk tokens IH]; intros Hno;
    [reflexivity|].
  cbn [map fold_right]; rewrite IH by (intros; apply Hno; right; assumption).
  unfold tokenPoints; rewrite Hno by (left; reflexivity); reflexivity.
Qed.

(** X10. The scored list is the list of the cached pages with their scores,
    reordered: sorted by descending score, pages of equal score in the
    order of the crawl. Every score lies between 0 and three times the
    number of tokens. *)
Theorem scorePages_ranking (tokens : list jsstring) (cached : list Page) :
  Permutation (scorePages tokens cached) (map (scorePage tokens) cached)
  /\ StronglySorted (fun a b => (score b <= score a)%Z)
       (scorePages tokens cached)
  /\ (forall k,
        filter (fun x => (score x =? k)%Z) (scorePages tokens cached)
        = filter (fun x => (score x =? k)%Z) (map (scorePage tokens) cached))
  /\ (forall x, In x (scorePages tokens cached) ->
        x = scorePage tokens (page x) /\ In (page x) cached
        /\ (0 <= score x <= 3 * Z.of_nat (length tokens))%Z).
Proof.
  unfold scorePages.
  split; [apply sortBy_Permutation|].
  split; [apply sortBy_sorted|].
  split; [intros k; apply sortBy_stable|].
  intros x Hx; apply (proj1 (In_sortBy (fun a b : Scored => (score b - score a)%Z) x _)) in Hx.
  apply in_map_iff in Hx; destruct Hx as (p & <- & Hp).
  split; [reflexivity|]; split; [exact Hp|].
  rewrite scorePage_specScore; apply specScore_range.
Qed.

Lemma scorePages_member (tokens : list jsstring) (cached : list Page)
  (p : Page) :
  In p cached -> In (scorePage tokens p) (scorePages tokens cached).
Proof.
  intros Hp; unfold scorePages; apply In_sortBy, in_map; assumption.
Qed.

Lemma selectPages_nonempty (tokens : list jsstring) (cached : list Page) :
  cached <> [] -> selectPages (scorePages tokens cached) <> [].
Proof.
  intros Hne; unfold selectPages.
  destruct (existsb _ (scorePages tokens cached)) eqn:E.
  - apply existsb_exists in E; destruct E as (x & Hx & Hpos).
    destruct (filter _ (scorePages tokens cached)) as [|y rest] eqn:Ef;
      [|simpl; discriminate].
    assert (Hf : In x (filter (fun x => (0 <? score x)%Z)
                         (scorePages tokens cached)))
      by (apply filter_In; auto).
    rewrite Ef in Hf; contradiction.
  - destruct cached as [|p cached]; [contradiction|].
    pose proof (scorePages_member tokens (p :: cached) p (or_introl eq_refl))
      as Hmem.
    destruct (scorePages tokens (p :: cached)) as [|y rest];
      [contradiction | simpl; discriminate].
Qed.

(** X11. At most four pages are selected, all of them cached pages, and at
    least one when there is a cached page. A page without any token is
    selected only when no cached page has one, and then at most two pages
    are. *)
Theorem selectPages_at_most_four (tokens : list jsstring)
  (cached : list Page) :
  let selected := selectPages (scorePages tokens cached) in
  length selected <= 4
  /\ (cached <> [] -> selected <> [])
  /\ forall x, In x selected ->
       In (page x) cached /\ x = scorePage tokens (page x)
       /\ ((0 < score x)%Z
           \/ length selected <= 2
              /\ forall p, In p cached -> score (scorePage tokens p) = 0%Z).
Proof.
  assert (Hin : forall x, In x (scorePages tokens cached) ->
                  x = scorePage tokens (page x) /\ In (page x) cached
                  /\ (0 <= score x)%Z).
  { intros x Hx; unfold scorePages in Hx;
      apply (proj1 (In_sortBy (fun a b : Scored => (score b - score a)%Z) x _)) in Hx.
    apply in_map_iff in Hx; destruct Hx as (p & <- & Hp).
    split; [reflexivity|]; split; [exact Hp|].
    rewrite scorePage_specScore; apply specScore_range. }
  pose proof (scorePages_member tokens cached) as Hmem.
  cbv zeta; split; [|split; [apply selectPages_nonempty|]];
    unfold selectPages.
  - destruct (existsb _ (scorePages tokens cached));
      [apply firstn_le_length | rewrite length_firstn; lia].
  - destruct (existsb _ (scorePages tokens cached)) eqn:E.
    + intros x Hx; apply In_firstn in Hx; apply filter_In in Hx.
      destruct Hx as [Hx Hpos]; apply Z.ltb_lt in Hpos.
      destruct (Hin x Hx) as (? & ? & _); auto.
    + intros x Hx; apply In_firstn in Hx.
      destruct (Hin x Hx) as (? & ? & _); split; [|split]; auto.
      right; split; [rewrite length_firstn; lia|].
      intros p Hp; specialize (Hmem p Hp).
      destruct (Hin _ Hmem) as (_ & _ & Hge).
      assert (Hle : (0 <? score (scorePage tokens p))%Z = false).
      { destruct (0 <? score (scorePage tokens p))%Z eqn:Ep; [|reflexivity].
        rewrite <- E; symmetry; apply existsb_exists; eauto. }
      apply Z.ltb_ge in Hle; lia.
Qed.

(** X12. When no token is found in the title or the text of any cached
    page, the pages selected are the first two cached pages, in the order
    in which the crawl recorded them. *)
Theorem selectPages_no_match_first_two (tokens : list jsstring)
  (cached : list Page) :
  (forall tk p, In tk tokens -> In p cached ->
     includes (toLowerCase (title p ++ [LF] ++ text p)) tk = false) ->
  map page (selectPages (scorePages tokens cached)) = firstn 2 cached.
Proof.
  intros Hno.
  assert (Hzero : forall x, In x (map (scorePage tokens) cached) ->
                    score x = 0%Z).
  { intros x Hx; apply in_map_iff in Hx; destruct Hx as (p & <- & Hp).
    rewrite scorePage_specScore; apply specScore_zero.
    intros tk Htk; apply Hno; assumption. }
  unfold scorePages.
  rewrite (@sortBy_constant 0%Z _ Hzero).
  unfold selectPages.
  replace (existsb _ (map (scorePage tokens) cached)) with false.
  - rewrite map_firstn, map_map.
    rewrite (map_ext _ (fun p => p)) by reflexivity.
    rewrite map_id; reflexivity.
  - symmetry; apply not_true_is_false; intros E.
    apply existsb_exists in E; destruct E as (x & Hx & Hpos).
    apply Z.ltb_lt in Hpos; rewrite (Hzero x Hx) in Hpos; lia.
Qed.

Lemma join_head (sep x : jsstring) (l : list jsstring) :
  exists rest, join sep (x :: l) = x ++ rest.
Proof.
  destruct l as [|y l]; simpl; [exists []; rewrite app_nil_r|]; eauto.
Qed.

Context {C : Config}.

(** X13. The guide context is empty exactly when the guide context is
    switched off or no page is cached. Otherwise it starts with the header
    of the first guide (an opening bracket, the word gaido, the number 1, a
    closing bracket and a space) and the title of the page ranked first. *)
Theorem buildGuideContext_empty_iff (cached : list Page) (q : jsstring)
  (candidates : list Candidate) :
  (buildGuideContext cached q candidates = []
   <-> GUIDE_CONTEXT_ENABLED = false \/ cached = [])
  /\ (buildGuideContext cached q candidates <> [] ->
      exists top rest,
        hd_error (selectPages
                    (scorePages (firstn 24 (tokenize (seedOf q candidates)))
                       cached)) = Some top
        /\ buildGuideContext cached q candidates
           = [91; 12460; 12452; 12489; 49; 93; 32]%N ++ title (page top)
               ++ rest).
Proof.
  unfold buildGuideContext.
  destruct GUIDE_CONTEXT_ENABLED; simpl negb; cbv iota;
    [|split; [split; auto | intros Hne; contradiction Hne; reflexivity]].
  destruct cached as [|p cached]; cbn [length Nat.eqb];
    [split; [split; auto | intros Hne; contradiction Hne; reflexivity]|].
  set (tokens := firstn 24 (tokenize (seedOf q candidates))).
  pose proof (@selectPages_nonempty tokens (p :: cached)) as Hsel.
  destruct (selectPages (scorePages tokens (p :: cached))) as [|top sel];
    [contradiction Hsel; [discriminate | reflexivity]|].
  cbn [mapi].
  destruct (join_head [LF; LF] (formatGuide tokens top 0)
              (mapi (formatGuide tokens) 1 sel)) as [rest ->].
  assert (Ef : exists tail,
             formatGuide tokens top 0
             = [91; 12460; 12452; 12489; 49; 93; 32]%N ++ title (page top)
                 ++ tail).
  { unfold formatGuide.
    change (ofNat (0 + 1)) with [49%N].
    change (lit "[") with [91%N]; change (lit "] ") with [93; 32]%N.
    eexists; cbn [app]; reflexivity. }
  destruct Ef as [tail ->]; split.
  - split; [discriminate | intros [E0|E0]; discriminate].
  - intros _; exists top, (tail ++ rest); split; [reflexivity|].
    rewrite <- !app_assoc; reflexivity.
Qed.

End Ranking.

(* ------------------------------------------------------------------ *)
(** ** The hit of a snippet *)

Section SnippetHit.

Context {H : Host}.

Lemma firstHit_fold (lower : jsstring) (tokens : list jsstring) (acc : Z) :
  (-1 <= acc)%Z ->
  let hit :=
    fold_left
      (fun hit tk =>
         let idx := indexOf lower (toLowerCase tk) 0 in
         if (0 <=? idx)%Z && ((hit <? 0)%Z || (idx <? hit)%Z) then idx
         else hit)
      tokens acc in
  (hit = acc
   \/ (0 <= hit)%Z
      /\ exists tk, In tk tokens /\ indexOf lower (toLowerCase tk) 0 = hit)
  /\ ((0 <= acc)%Z -> (0 <= hit <= acc)%Z)
  /\ forall tk, In tk tokens ->
       (0 <= indexOf lower (toLowerCase tk) 0)%Z ->
       (0 <= hit <= indexOf lower (toLowerCase tk) 0)%Z.
Proof.
  revert acc; induction tokens as [|t tokens IH]; intros acc Hacc; cbv zeta.
  - simpl; split; [left; reflexivity|]; split; [lia | intros tk []].
  - cbn [fold_left].
    set (idx := indexOf lower (toLowerCase t) 0).
    set (acc' := if (0 <=? idx)%Z && ((acc <? 0)%Z || (idx <? acc)%Z)
                 then idx else acc).
    assert (Hacc' : (-1 <= acc')%Z)
      by (unfold acc';
          destruct (Z.leb_spec 0 idx), (Z.ltb_spec acc 0),
            (Z.ltb_spec idx acc); simpl; lia).
    destruct (IH acc' Hacc') as (Hsrc & Hle & Hmin); cbv zeta in *.
    set (hit := fold_left _ tokens acc') in *.
    assert (Hstep : (acc' = acc /\ ((0 <= idx)%Z -> (0 <= acc <= idx)%Z))
                    \/ (acc' = idx /\ (0 <= idx)%Z
                        /\ ((0 <= acc)%Z -> (idx <= acc)%Z))).
    { unfold acc';
        destruct (Z.leb_spec 0 idx), (Z.ltb_spec acc 0),
          (Z.ltb_spec idx acc); simpl; try (left; split; [reflexivity|lia]);
        right; split; try reflexivity; lia. }
    split; [|split].
    + destruct Hsrc as [E|(Hpos & tk & Hin & E)].
      * destruct Hstep as [[E' _]|(E' & Hpos & _)].
        -- left; congruence.
        -- right; split; [lia|]; exists t; split; [left; reflexivity|].
           fold idx; congruence.
      * right; split; [assumption|]; exists tk; split; [right|]; assumption.
    + intros Hpos; destruct Hstep as [[E' _]|(E' & Hidx & Hle')].
      * rewrite E' in Hle; apply Hle; assumption.
      * assert (0 <= hit <= acc')%Z by (apply Hle; lia); lia.
    + intros tk [<-|Hin] Htk; [|apply Hmin; assumption].
      fold idx in Htk |- *.
      destruct Hstep as [[E' Hle']|(E' & Hidx & _)].
      * assert (0 <= hit <= acc')%Z by (apply Hle; lia); lia.
      * assert (0 <= hit <= acc')%Z by (apply Hle; lia); lia.
Qed.

(** X14. The hit of a snippet is the earliest position at which any token
    occurs: it is [-1] when no token occurs in the text, and otherwise the
    position of one of the tokens, not after the position of any other
    token that occurs. *)
Theorem firstHit_earliest (lower : jsstring) (tokens : list jsstring) :
  (firstHit lower tokens = (-1)%Z
   /\ (forall tk, In tk tokens ->
         (indexOf lower (toLowerCase tk) 0 < 0)%Z)
   \/ (0 <= firstHit lower tokens)%Z
      /\ exists tk, In tk tokens
           /\ indexOf lower (toLowerCase tk) 0 = firstHit lower tokens)
  /\ forall tk, In tk tokens ->
       (0 <= indexOf lower (toLowerCase tk) 0)%Z ->
       (0 <= firstHit lower tokens <= indexOf lower (toLowerCase tk) 0)%Z.
Proof.
  unfold firstHit.
  destruct (@firstHit_fold lower tokens (-1)%Z) as (Hsrc & _ & Hmin);
    [lia|]; cbv zeta in *.
  split; [|exact Hmin].
  destruct Hsrc as [E|Hhit]; [left | right; exact Hhit].
  split; [exact E|].
  intros tk Hin.
  destruct (Z.ltb_spec (indexOf lower (toLowerCase tk) 0) 0) as [|Hge];
    [assumption|].
  specialize (Hmin tk Hin Hge); lia.
Qed.

(** X15. When no token occurs in the normalised text of the page, the
    snippet is the first [limit] code units of that text, as it is without
    tokens. *)
Theorem pickGuideSnippet_no_hit (p : Page) (tokens : list jsstring)
  (limit : Z) :
  (forall tk, In tk tokens ->
     (indexOf (toLowerCase (normalizeMultiline (text p))) (toLowerCase tk) 0
      < 0)%Z) ->
  pickGuideSnippet p tokens limit
  = slice (normalizeMultiline (text p)) 0 limit.
Proof.
  intros Hno; unfold pickGuideSnippet.
  destruct (normalizeMultiline (text p)) as [|c src] eqn:Esrc;
    [symmetry; apply slice_nil|].
  cbn [isEmpty].
  destruct (Nat.eqb (length tokens) 0); [reflexivity|].
  destruct (@firstHit_fold (toLowerCase (c :: src)) tokens (-1)%Z)
    as (Hsrc & _ & _); [lia|]; cbv zeta in Hsrc.
  fold (firstHit (toLowerCase (c :: src)) tokens) in Hsrc.
  destruct Hsrc as [E|(Hpos & tk & Hin & E)].
  - rewrite E; reflexivity.
  - specialize (Hno tk Hin); lia.
Qed.

End SnippetHit.

(* ------------------------------------------------------------------ *)
(** ** A call against a site *)

Section CallAgainstSite.

Context {H : Host} {C : Config}.

(** X16. A site whose start page cannot be fetched is not reported as an
    error: a call that crawls it returns an empty list, replaces the cached
    pages by the empty list and leaves [lastError] empty, and the next call
    crawls again, whatever the time. *)
Theorem fetchGuidePages_unreachable_site (web : Web) (root : URL)
  (fuel : nat) (now : Z) (c : GuideCache) :
  GUIDE_CONTEXT_ENABLED = true ->
  newURL GUIDE_ROOT_URL = Some root ->
  newURL (href root) <> None ->
  web (href root) = None ->
  2 <= fuel ->
  pages c = [] \/ (expiresAt c <= now)%Z ->
  let c' := {| pages := []; fetchedAt := now;
               expiresAt := (now + GUIDE_CACHE_TTL_MS)%Z;
               lastError := [] |} in
  fetchGuidePages web fuel now c = Some ([], c')
  /\ forall now', getGuidePages now' c' = AwaitCrawl (afterCrawl now').
Proof.
  intros En Eroot Hparse Eweb Hfuel Hstale; cbv zeta.
  assert (Ecrawl : crawlGuidePages web fuel = Some (Normal [])).
  { destruct (isAllowedGuideUrl_returns (href root) Eroot Hparse)
      as [[|] Ea]; eapply crawlGuidePages_start_page_skipped; eauto. }
  split.
  - unfold fetchGuidePages, getGuidePages; rewrite En; simpl negb.
    cbv iota.
    assert (Ecold : negb (Nat.eqb (length (pages c)) 0)
                    && (now <? expiresAt c)%Z = false).
    { destruct Hstale as [->|Hexp]; [reflexivity|].
      apply andb_false_iff; right; apply Z.ltb_ge; assumption. }
    rewrite Ecold, Ecrawl; reflexivity.
  - intros now'; apply getGuidePages_empty_cache_crawls; auto.
Qed.

End CallAgainstSite.

(* ------------------------------------------------------------------ *)
(** ** Greedy runs *)

Lemma leading_le (p : N -> bool) (s : jsstring) : leading p s <= length s.
Proof.
  induction s as [|x s IH]; simpl; [lia|].
  destruct (p x); simpl; lia.
Qed.

Lemma leading_firstn (p : N -> bool) (s : jsstring) :
  forallb p (firstn (leading p s) s) = true.
Proof.
  induction s as [|x s IH]; simpl; [reflexivity|].
  destruct (p x) eqn:E; simpl; [rewrite E, IH|]; reflexivity.
Qed.

Lemma leading_stops (p : N -> bool) (s : jsstring) :
  match skipn (leading p s) s with
  | y :: _ => p y = false
  | [] => True
  end.
Proof.
  induction s as [|x s IH]; simpl; [trivial|].
  destruct (p x) eqn:E; simpl; assumption.
Qed.

Lemma leading_app (p : N -> bool) (run rest : jsstring) :
  forallb p run = true ->
  match rest with y :: _ => p y = false | [] => True end ->
  leading p (run ++ rest) = length run.
Proof.
  intros Hrun Hrest; induction run as [|x run IH]; simpl in *.
  - destruct rest as [|y rest]; [reflexivity|]; simpl; rewrite Hrest;
      reflexivity.
  - apply andb_true_iff in Hrun; destruct Hrun as [-> Hrun].
    rewrite IH by assumption; reflexivity.
Qed.

Section GreedyRuns.

Variable A : Type.
Variable p : N -> bool.
Variable k : pos -> option A.

(** A greedy run that is too short fails. *)
Lemma repGreedy_short (s : jsstring) :
  forall min prev, leading p s < min -> repGreedy p min prev s k = None.
Proof.
  induction s as [|x s IH]; intros min prev Hlt; simpl in *.
  - destruct min; [lia | reflexivity].
  - destruct (p x).
    + rewrite IH by lia; destruct min; [lia | reflexivity].
    + destruct min; [lia | reflexivity].
Qed.

(** A greedy run reads the longest run first: when the rest of the pattern
    matches there, that is the match. *)
Lemma repGreedy_longest (s : jsstring) (r : A) :
  forall min prev,
    min <= leading p s ->
    (forall pv, k (pv, skipn (leading p s) s) = Some r) ->
    repGreedy p min prev s k = Some r.
Proof.
  induction s as [|x s IH]; intros min prev Hmin Hk; simpl in *.
  - destruct min; [apply Hk | lia].
  - destruct (p x); simpl in *.
    + rewrite (IH (Nat.pred min) (Some x)); [reflexivity | lia | exact Hk].
    + destruct min; [apply Hk | lia].
Qed.

(** When the rest of the pattern matches neither after the longest run nor
    in front of a code unit of the class, the run fails. *)
Lemma repGreedy_fails (s : jsstring) :
  forall min prev,
    (forall pv, k (pv, skipn (leading p s) s) = None) ->
    (forall pv y t, p y = true -> k (pv, y :: t) = None) ->
    repGreedy p min prev s k = None.
Proof.
  induction s as [|x s IH]; intros min prev Hend Hin; simpl in *.
  - destruct min; [apply Hend | reflexivity].
  - destruct (p x) eqn:E; simpl in *.
    + rewrite (IH (Nat.pred min) (Some x)) by assumption.
      destruct min; [apply Hin; assumption | reflexivity].
    + destruct min; [apply Hend | reflexivity].
Qed.

(** What a greedy run that matches has read. *)
Lemma repGreedy_prefix (s : jsstring) (r : A) :
  forall min prev,
    repGreedy p min prev s k = Some r ->
    exists n pv,
      min <= n <= leading p s /\ k (pv, skipn n s) = Some r.
Proof.
  induction s as [|x s IH]; intros min prev; simpl.
  - destruct min; [|discriminate]; intros E.
    exists 0, prev; split; [lia | exact E].
  - assert (Hstop : match min with O => k (prev, x :: s) | S _ => None end
                    = Some r ->
                    exists n pv,
                      min <= n <= (if p x then S (leading p s) else 0)
                      /\ k (pv, skipn n (x :: s)) = Some r).
    { destruct min; [|discriminate]; intros E.
      exists 0, prev; split; [lia | exact E]. }
    destruct (p x); [|exact Hstop].
    destruct (repGreedy p (Nat.pred min) (Some x) s k) as [r'|] eqn:E;
      [|exact Hstop].
    intros E'; inversion E'; subst.
    destruct (IH _ _ E) as (n & pv & Hn & Hk).
    exists (S n), pv; split; [lia | exact Hk].
Qed.

End GreedyRuns.

(* ------------------------------------------------------------------ *)
(** ** Substrings *)

Lemma includes_app_r (a b p : jsstring) :
  includes b p = true -> includes (a ++ b) p = true.
Proof.
  intros Hb; induction a as [|x a IH]; simpl; [exact Hb|].
  rewrite IH; apply orb_true_r.
Qed.

Lemma includes_substring (a b c p : jsstring) :
  includes (a ++ b ++ c) p = false -> includes b p = false.
Proof.
  intros Hs; destruct (includes b p) eqn:E; [|reflexivity].
  rewrite <- Hs; symmetry.
  apply includes_app_r, includes_app_l; exact E.
Qed.

Lemma follows_app_r (p q : N -> bool) (a b : jsstring) :
  follows p q b = true -> follows p q (a ++ b) = true.
Proof.
  intros Hb; induction a as [|x a IH]; simpl; [exact Hb|].
  rewrite IH; apply orb_true_r.
Qed.

Lemma follows_app_l (p q : N -> bool) (a b : jsstring) :
  follows p q a = true -> follows p q (a ++ b) = true.
Proof.
  induction a as [|x a IH]; simpl; [discriminate|].
  rewrite orb_true_iff; intros [E|E].
  - destruct a as [|y a]; [rewrite andb_false_r in E; discriminate|].
    simpl; rewrite E; reflexivity.
  - rewrite (IH E); apply orb_true_r.
Qed.

Lemma follows_substring (p q : N -> bool) (a b c : jsstring) :
  follows p q (a ++ b ++ c) = false -> follows p q b = false.
Proof.
  intros Hs; destruct (follows p q b) eqn:E; [|reflexivity].
  rewrite <- Hs; symmetry.
  apply follows_app_r, follows_app_l; exact E.
Qed.

Lemma trim_substring (s : jsstring) : exists a c, s = a ++ trim s ++ c.
Proof.
  unfold trim.
  destruct (trimStart_suffix s) as [a Ea].
  destruct (trimEnd_prefix (trimStart s)) as [c Ec].
  exists a, c; rewrite <- Ec; exact Ea.
Qed.

(** ** Trimming *)

Lemma trimStart_fixed (s : jsstring) :
  match s with x :: _ => isWhiteSpace x = false | [] => True end ->
  trimStart s = s.
Proof. destruct s as [|x s]; simpl; [reflexivity | intros ->; reflexivity]. Qed.

Lemma trimStart_head (s : jsstring) :
  match trimStart s with x :: _ => isWhiteSpace x = false | [] => True end.
Proof.
  induction s as [|x s IH]; simpl; [trivial|].
  destruct (isWhiteSpace x) eqn:E; [exact IH | exact E].
Qed.

Lemma trimEnd_head (s : jsstring) :
  match s with x :: _ => isWhiteSpace x = false | [] => True end ->
  match trimEnd s with x :: _ => isWhiteSpace x = false | [] => True end.
Proof.
  intros Hs; destruct (trimEnd_prefix s) as [d E].
  destruct (trimEnd s) as [|x t]; [trivial|].
  rewrite E in Hs; exact Hs.
Qed.

Lemma trimEnd_idempotent (s : jsstring) : trimEnd (trimEnd s) = trimEnd s.
Proof.
  unfold trimEnd; rewrite rev_involutive.
  rewrite (trimStart_fixed _ (trimStart_head (rev s))); reflexivity.
Qed.

Lemma trim_head (s : jsstring) :
  match trim s with x :: _ => isWhiteSpace x = false | [] => True end.
Proof. apply trimEnd_head, trimStart_head. Qed.

Lemma trim_idempotent (s : jsstring) : trim (trim s) = trim s.
Proof.
  unfold trim at 1.
  rewrite (trimStart_fixed _ (trim_head s)).
  unfold trim; apply trimEnd_idempotent.
Qed.

(** ** Patterns that match nowhere *)

Lemma scanFrom_unmatched (r : regex) (s : jsstring) :
  (forall prev suf, In suf (suffixes s) -> matchAt r prev suf = None) ->
  forall prev, scanFrom r 0 prev s = map Lit s.
Proof.
  induction s as [|x s IH]; intros Hr prev; simpl.
  - rewrite (Hr prev []) by (left; reflexivity); reflexivity.
  - rewrite (Hr prev (x :: s)) by (left; reflexivity).
    rewrite IH; [reflexivity|].
    intros pv suf Hin; apply Hr; right; exact Hin.
Qed.

Lemma render_literals (rep s : jsstring) : render rep (map Lit s) = s.
Proof. induction s as [|x s IH]; simpl; [|rewrite IH]; reflexivity. Qed.

Lemma replaceAll_unmatched (r : regex) (rep s : jsstring) :
  (forall prev suf, In suf (suffixes s) -> matchAt r prev suf = None) ->
  replaceAll r rep s = s.
Proof.
  intros Hr; unfold replaceAll, scan.
  rewrite scanFrom_unmatched by exact Hr; apply render_literals.
Qed.

(* ------------------------------------------------------------------ *)
(** ** The three patterns of [normalizeMultiline] *)

Lemma matchAt_reCrLf (prev : option N) (s : jsstring) :
  matchAt reCrLf prev s
  = match s with
    | x :: s' =>
        if N.eqb CR x
        then Some (match s' with
                   | y :: _ => if N.eqb LF y then 2 else 1
                   | [] => 1
                   end, [])
        else None
    | [] => None
    end.
Proof.
  unfold matchAt, reCrLf, cat, opt; destruct s as [|x s];
    cbn [exec fold_right snd fst]; [reflexivity|].
  unfold chr; destruct (N.eqb CR x); [|reflexivity].
  destruct s as [|y s]; cbn [exec snd fst length]; [reflexivity|].
  destruct (N.eqb LF y); cbn [length]; do 2 f_equal; lia.
Qed.

Lemma matchAt_reTrailingBlank (prev : option N) (s : jsstring) :
  matchAt reTrailingBlank prev s
  = match leading spaceOrTab s, skipn (leading spaceOrTab s) s with
    | S n, y :: _ => if N.eqb LF y then Some (S (S n), []) else None
    | _, _ => None
    end.
Proof.
  unfold matchAt, reTrailingBlank, cat, plus; cbn [exec fold_right snd fst].
  pose proof (leading_le spaceOrTab s) as Hle.
  assert (Hlen : length (skipn (leading spaceOrTab s) s)
                 = length s - leading spaceOrTab s) by apply length_skipn.
  destruct (leading spaceOrTab s) as [|n] eqn:En.
  - apply repGreedy_short; rewrite En; lia.
  - destruct (skipn (S n) s) as [|y t] eqn:Et.
    + apply repGreedy_fails; rewrite ?En, ?Et; [reflexivity|].
      intros pv y t Hy; cbn [exec snd fst]; unfold chr.
      destruct (N.eqb_spec LF y) as [<-|]; [discriminate | reflexivity].
    + destruct (N.eqb LF y) eqn:Ey.
      * apply repGreedy_longest; rewrite En; [lia|].
        intros pv; rewrite Et; cbn [exec snd fst]; unfold chr; rewrite Ey.
        simpl in Hlen; do 2 f_equal; lia.
      * apply repGreedy_fails; rewrite ?En, ?Et.
        -- intros pv; cbn [exec snd fst]; unfold chr; rewrite Ey;
             reflexivity.
        -- intros pv z t' Hz; cbn [exec snd fst]; unfold chr.
           destruct (N.eqb_spec LF z) as [<-|]; [discriminate | reflexivity].
Qed.

Lemma matchAt_reBlankLines (prev : option N) (s : jsstring) :
  matchAt reBlankLines prev s
  = if 3 <=? leading (chr LF) s then Some (leading (chr LF) s, []) else None.
Proof.
  unfold matchAt, reBlankLines; cbn [exec snd fst].
  pose proof (leading_le (chr LF) s) as Hle.
  destruct (Nat.leb_spec 3 (leading (chr LF) s)).
  - apply repGreedy_longest; [assumption|].
    intros pv; cbn [snd]; rewrite length_skipn; do 2 f_equal; lia.
  - apply repGreedy_short; assumption.
Qed.

Lemma render_Mat (rep m : jsstring) (cs : caps) (segs : list segment) :
  render rep (Mat m cs :: segs) = rep ++ render rep segs.
Proof. reflexivity. Qed.

Lemma render_Lit (rep : jsstring) (c : N) (segs : list segment) :
  render rep (Lit c :: segs) = c :: render rep segs.
Proof. reflexivity. Qed.

(** No carriage return is left by the first replacement. *)
Lemma reCrLf_replaced (s : jsstring) :
  forall skip prev,
    ~ In CR (render [LF] (scanFrom reCrLf skip prev s)).
Proof.
  induction s as [|x s IH]; intros skip prev; cbn [scanFrom].
  - destruct skip; [rewrite matchAt_reCrLf|]; simpl; tauto.
  - destruct skip as [|k]; [|apply IH].
    rewrite matchAt_reCrLf.
    destruct (N.eqb_spec CR x) as [<-|Hx].
    + destruct s as [|y s']; [|destruct (N.eqb LF y)];
        rewrite ?render_Mat, ?render_Lit; cbn [app In];
        intros [E|Hin]; try discriminate; exact (IH _ _ Hin).
    + rewrite ?render_Mat, ?render_Lit; cbn [app In].
      intros [E|Hin]; [congruence | exact (IH _ _ Hin)].
Qed.

Lemma spaceOrTab_not_LF (c : N) : spaceOrTab c = true -> N.eqb LF c = false.
Proof.
  unfold spaceOrTab; intros Hc.
  destruct (N.eqb_spec LF c) as [<-|]; [discriminate | reflexivity].
Qed.

(** After the second replacement no space or tab stands before a line
    feed, and the result starts with a line feed only where the input
    starts with spaces and tabs followed by one. *)
Lemma reTrailingBlank_replaced (s : jsstring) :
  forall skip prev,
    let o := render [LF] (scanFrom reTrailingBlank skip prev s) in
    let t := skipn skip s in
    follows spaceOrTab (chr LF) o = false
    /\ (hd_error o = Some LF ->
        hd_error (skipn (leading spaceOrTab t) t) = Some LF).
Proof.
  induction s as [|x s IH]; intros skip prev; cbv zeta.
  - destruct skip; cbn [scanFrom]; [rewrite matchAt_reTrailingBlank|];
      simpl; split; auto; discriminate.
  - destruct skip as [|k]; [|exact (IH k (Some x))].
    cbn [scanFrom skipn]; rewrite matchAt_reTrailingBlank.
    destruct (IH 0 (Some x)) as [IHf IHh]; cbv zeta in IHf, IHh.
    cbn [skipn] in IHh.
    assert (Hlit : follows spaceOrTab (chr LF)
                     (x :: render [LF] (scanFrom reTrailingBlank 0 (Some x) s))
                   = false
                   \/ exists n y t,
                        leading spaceOrTab (x :: s) = S n
                        /\ skipn (S n) (x :: s) = y :: t
                        /\ N.eqb LF y = true).
    { cbn [follows]; rewrite IHf, orb_false_r.
      destruct (spaceOrTab x) eqn:Ex; [|left; reflexivity].
      destruct (render [LF] (scanFrom reTrailingBlank 0 (Some x) s))
        as [|d o'] eqn:Eo; [left; reflexivity|].
      unfold chr; destruct (N.eqb_spec LF d) as [<-|]; [|left; reflexivity].
      right; specialize (IHh eq_refl).
      cbn [leading]; rewrite Ex; cbn [skipn].
      destruct (skipn (leading spaceOrTab s) s) as [|y t] eqn:Et;
        [discriminate|].
      inversion IHh; subst.
      exists (leading spaceOrTab s), LF, t; auto. }
    assert (Hhead : hd_error
                      (x :: render [LF] (scanFrom reTrailingBlank 0 (Some x) s))
                    = Some LF ->
                    hd_error (skipn (leading spaceOrTab (x :: s)) (x :: s))
                    = Some LF).
    { cbn [hd_error]; intros E; inversion E; subst; reflexivity. }
    destruct (leading spaceOrTab (x :: s)) as [|n] eqn:En.
    + rewrite ?render_Mat, ?render_Lit; cbn [app]; split; [|exact Hhead].
      destruct Hlit as [E|(n & y & t & E & _)]; [exact E | discriminate].
    + destruct (skipn (S n) (x :: s)) as [|y t] eqn:Et.
      * rewrite ?render_Mat, ?render_Lit; cbn [app]; split; [|exact Hhead].
        destruct Hlit as [E|(n' & y & t & E1 & E2 & _)]; [exact E|].
        inversion E1; subst; rewrite Et in E2; discriminate.
      * destruct (N.eqb LF y) eqn:Ey.
        -- rewrite ?render_Mat, ?render_Lit; cbn [app].
           destruct (IH (S n) (Some x)) as [IHn _]; cbv zeta in IHn.
           split.
           ++ cbn [follows]; change (spaceOrTab LF) with false.
              cbn [andb orb]; exact IHn.
           ++ intros _; apply N.eqb_eq in Ey; subst; reflexivity.
        -- rewrite ?render_Mat, ?render_Lit; cbn [app]; split; [|exact Hhead].
           destruct Hlit as [E|(n' & y' & t' & E1 & E2 & E3)];
             [exact E|].
           inversion E1; subst; rewrite Et in E2; inversion E2; subst.
           congruence.
Qed.

Lemma startsWith_three_LF (o : jsstring) :
  startsWith o [LF; LF; LF] = true -> 3 <= leading (chr LF) o.
Proof.
  destruct o as [|a [|b [|c o]]]; cbn [startsWith leading]; unfold chr;
    try (destruct (N.eqb LF a); cbn [andb]; try discriminate;
         try (destruct (N.eqb LF b); cbn [andb]; try discriminate;
              try (destruct (N.eqb LF c); cbn [andb]; try discriminate)));
    try discriminate.
  intros _; lia.
Qed.

Lemma leading_zero (p : N -> bool) (s : jsstring) :
  match s with y :: _ => p y = false | [] => True end -> leading p s = 0.
Proof. destruct s as [|y s]; simpl; [|intros ->]; reflexivity. Qed.

Lemma follows_skipn (p q : N -> bool) (n : nat) (s : jsstring) :
  follows p q s = false -> follows p q (skipn n s) = false.
Proof.
  intros Hs; destruct (follows p q (skipn n s)) eqn:E; [|reflexivity].
  rewrite <- Hs, <- (firstn_skipn n s) at 1.
  symmetry; apply follows_app_r; exact E.
Qed.

(** After the third replacement no three line feeds stand in a row; the
    result starts with no more line feeds than the input, and no space or
    tab comes to stand before a line feed. *)
Lemma reBlankLines_replaced (s : jsstring) :
  forall skip prev,
    let o := render [LF; LF] (scanFrom reBlankLines skip prev s) in
    let t := skipn skip s in
    includes o [LF; LF; LF] = false
    /\ leading (chr LF) o <= leading (chr LF) t
    /\ (follows spaceOrTab (chr LF) t = false ->
        follows spaceOrTab (chr LF) o = false).
Proof.
  induction s as [|x s IH]; intros skip prev; cbv zeta.
  - destruct skip; cbn [scanFrom]; [rewrite matchAt_reBlankLines|]; simpl;
      auto.
  - destruct skip as [|k]; [|exact (IH k (Some x))].
    cbn [scanFrom skipn]; rewrite matchAt_reBlankLines.
    destruct (Nat.leb_spec 3 (leading (chr LF) (x :: s))) as [Hrun|Hrun].
    + destruct (leading (chr LF) (x :: s)) as [|n] eqn:En; [lia|].
      rewrite ?render_Mat, ?render_Lit; cbn [app].
      destruct (IH n (Some x)) as (IHi & IHl & IHf); cbv zeta in IHi, IHl, IHf.
      set (o := render [LF; LF] (scanFrom reBlankLines n (Some x) s)) in *.
      assert (Hstop : leading (chr LF) (skipn n s) = 0).
      { apply leading_zero.
        pose proof (leading_stops (chr LF) (x :: s)) as Hs.
        rewrite En in Hs; exact Hs. }
      assert (Ho : leading (chr LF) o = 0) by lia.
      assert (Hhd : match o with y :: _ => N.eqb LF y = false | [] => True end).
      { destruct o as [|y o']; [trivial|].
        cbn [leading] in Ho; unfold chr in Ho.
        destruct (N.eqb LF y); [discriminate | reflexivity]. }
      split; [|split].
      * cbn [includes]; rewrite IHi, orb_false_r.
        change (startsWith (LF :: LF :: o) [LF; LF; LF])
          with (startsWith o [LF]).
        change (startsWith (LF :: o) [LF; LF; LF])
          with (startsWith o [LF; LF]).
        destruct o as [|y o']; [reflexivity|].
        cbn [startsWith]; rewrite Hhd; reflexivity.
      * change (leading (chr LF) (LF :: LF :: o))
          with (S (S (leading (chr LF) o))).
        rewrite Ho; lia.
      * intros Hf.
        change (follows spaceOrTab (chr LF) (LF :: LF :: o))
          with (follows spaceOrTab (chr LF) o).
        apply IHf.
        apply (follows_skipn _ _ (S n)) in Hf; exact Hf.
    + rewrite ?render_Mat, ?render_Lit; cbn [app].
      destruct (IH 0 (Some x)) as (IHi & IHl & IHf); cbv zeta in IHi, IHl, IHf.
      cbn [skipn] in IHl, IHf.
      set (o := render [LF; LF] (scanFrom reBlankLines 0 (Some x) s)) in *.
      assert (Hlead : leading (chr LF) (x :: o)
                      <= leading (chr LF) (x :: s)).
      { cbn [leading]; destruct (chr LF x); lia. }
      split; [|split].
      * cbn [includes]; rewrite IHi, orb_false_r.
        destruct (startsWith (x :: o) [LF; LF; LF]) eqn:E; [|reflexivity].
        apply startsWith_three_LF in E; lia.
      * exact Hlead.
      * cbn [follows]; intros Hf.
        apply orb_false_iff in Hf; destruct Hf as [Hx Hf].
        rewrite (IHf Hf), orb_false_r.
        destruct (spaceOrTab x); [|reflexivity]; cbn [andb] in *.
        destruct o as [|d o']; [reflexivity|].
        destruct (chr LF d) eqn:Ed; [|reflexivity].
        assert (1 <= leading (chr LF) s)
          by (cbn [leading] in IHl; rewrite Ed in IHl; lia).
        destruct s as [|y s']; cbn [leading] in *; [lia|].
        destruct (chr LF y); [discriminate | lia].
Qed.

Lemma normalizeMultiline_normal (v : jsstring) :
  ~ In CR (normalizeMultiline v)
  /\ follows spaceOrTab (chr LF) (normalizeMultiline v) = false
  /\ includes (normalizeMultiline v) [LF; LF; LF] = false
  /\ trim (normalizeMultiline v) = normalizeMultiline v.
Proof.
  unfold normalizeMultiline.
  set (s1 := replaceAll reCrLf [LF] v).
  set (s2 := replaceAll reTrailingBlank [LF] s1).
  set (s3 := replaceAll reBlankLines [LF; LF] s2).
  assert (H1 : ~ In CR s1) by apply reCrLf_replaced.
  destruct (reTrailingBlank_replaced s1 0 None) as [H2 _]; cbv zeta in H2.
  fold (scan reTrailingBlank s1) in H2;
    fold (replaceAll reTrailingBlank [LF] s1) in H2; fold s2 in H2.
  destruct (reBlankLines_replaced s2 0 None) as (H3 & _ & H3f);
    cbv zeta in H3, H3f.
  fold (scan reBlankLines s2) in H3, H3f;
    fold (replaceAll reBlankLines [LF; LF] s2) in H3, H3f; fold s3 in H3, H3f.
  destruct (trim_substring s3) as (a & c & E).
  split; [|split; [|split]].
  - intros Hin; apply trim_In in Hin; revert Hin.
    unfold s3, s2.
    do 2 (apply replaceAll_without; [simpl; intuition discriminate|]).
    exact H1.
  - apply (follows_substring _ _ a _ c); rewrite <- E; apply H3f, H2.
  - apply (includes_substring a _ c); rewrite <- E; exact H3.
  - apply trim_idempotent.
Qed.

Lemma follows_run (p q : N -> bool) (s : jsstring) :
  forall n y t,
    leading p s = S n -> skipn (S n) s = y :: t -> q y = true ->
    follows p q s = true.
Proof.
  induction s as [|x s IH]; intros n y t En Et Hy; [discriminate|].
  cbn [leading] in En; destruct (p x) eqn:Ex; [|discriminate].
  injection En as En'; cbn [skipn] in Et; cbn [follows]; rewrite Ex.
  destruct n as [|n].
  - cbn [skipn] in Et; subst s.
    rewrite Hy; reflexivity.
  - rewrite (IH n y t En' Et Hy); apply orb_true_r.
Qed.

Lemma leading_three_LF (s : jsstring) :
  3 <= leading (chr LF) s -> startsWith s [LF; LF; LF] = true.
Proof.
  destruct s as [|a [|b [|c s]]]; cbn [leading startsWith]; unfold chr;
    try (destruct (N.eqb LF a); cbn [andb]; try lia;
         try (destruct (N.eqb LF b); cbn [andb]; try lia;
              try (destruct (N.eqb LF c); cbn [andb]; try lia)));
    try lia; reflexivity.
Qed.

(** A text of that shape is only trimmed by [normalizeMultiline]. *)
Lemma normalizeMultiline_of_normal (y : jsstring) :
  ~ In CR y ->
  follows spaceOrTab (chr LF) y = false ->
  includes y [LF; LF; LF] = false ->
  normalizeMultiline y = trim y.
Proof.
  intros Hcr Hblank Hlines; unfold normalizeMultiline.
  rewrite (replaceAll_unmatched reCrLf [LF] y).
  - rewrite (replaceAll_unmatched reTrailingBlank [LF] y).
    + rewrite (replaceAll_unmatched reBlankLines [LF; LF] y); [reflexivity|].
      intros prev suf Hin; rewrite matchAt_reBlankLines.
      destruct (Nat.leb_spec 3 (leading (chr LF) suf)) as [Hrun|];
        [|reflexivity].
      apply In_suffixes in Hin; destruct Hin as [pre ->].
      apply leading_three_LF in Hrun.
      rewrite (includes_app_r pre suf) in Hlines; [discriminate|].
      destruct suf; cbn [includes]; rewrite Hrun; reflexivity.
    + intros prev suf Hin; rewrite matchAt_reTrailingBlank.
      destruct (leading spaceOrTab suf) as [|n] eqn:En; [reflexivity|].
      destruct (skipn (S n) suf) as [|z t] eqn:Et; [reflexivity|].
      destruct (N.eqb LF z) eqn:Ez; [|reflexivity].
      apply In_suffixes in Hin; destruct Hin as [pre ->].
      rewrite (follows_app_r _ _ pre suf) in Hblank; [discriminate|].
      eapply follows_run; eauto.
  - intros prev suf Hin; rewrite matchAt_reCrLf.
    destruct suf as [|x suf']; [reflexivity|].
    destruct (N.eqb_spec CR x) as [<-|]; [|reflexivity].
    apply In_suffixes in Hin; destruct Hin as [pre ->].
    contradiction Hcr; apply in_elt.
Qed.

Lemma normalizeMultiline_again (v : jsstring) :
  normalizeMultiline (normalizeMultiline v) = normalizeMultiline v.
Proof.
  destruct (normalizeMultiline_normal v) as (Hcr & Hblank & Hlines & Htrim).
  rewrite normalizeMultiline_of_normal; assumption.
Qed.

(** X17. A normalised text holds no carriage return, no space or tab
    before a line feed and no three line feeds in a row, and neither
    starts nor ends with white space; normalising it again changes
    nothing. *)
Theorem normalizeMultiline_idempotent (v : jsstring) :
  ~ In CR (normalizeMultiline v)
  /\ follows spaceOrTab (chr LF) (normalizeMultiline v) = false
  /\ includes (normalizeMultiline v) [LF; LF; LF] = false
  /\ trim (normalizeMultiline v) = normalizeMultiline v
  /\ normalizeMultiline (normalizeMultiline v) = normalizeMultiline v.
Proof.
  destruct (normalizeMultiline_normal v) as (Hcr & Hblank & Hlines & Htrim).
  repeat (split; [assumption|]).
  apply normalizeMultiline_again.
Qed.

(** X18. The draft-answer handler normalises the question and the
    candidates before it builds the guide context, and the context builder
    normalises them again: the context is the one built from the raw
    question and the first eight raw candidates. *)
Theorem buildGuideContext_normalised_twice {H : Host} {C : Config}
  (cached : list Page) (q : jsstring) (candidates : list Candidate) :
  buildGuideContext cached (normalizeMultiline q)
    (normalizedCandidates candidates)
  = buildGuideContext cached q (firstn 8 candidates).
Proof.
  unfold buildGuideContext.
  assert (Eseed : seedOf (normalizeMultiline q)
                    (normalizedCandidates candidates)
                  = seedOf q (firstn 8 candidates)).
  { unfold seedOf, normalizedCandidates; rewrite map_map.
    cbn [question answer].
    rewrite normalizeMultiline_again.
    f_equal; f_equal; apply map_ext; intros c.
    rewrite !normalizeMultiline_again; reflexivity. }
  rewrite Eseed; reflexivity.
Qed.

(* ------------------------------------------------------------------ *)
(** ** The text of a crawled page *)

Lemma stripHtmlToText_normalised (html txt : jsstring) :
  stripHtmlToText html = Normal txt ->
  exists raw, txt = normalizeMultiline raw.
Proof.
  unfold stripHtmlToText.
  destruct (decodeHtmlEntities (stripTags html)) as [decoded|m];
    [|discriminate].
  cbn [bind]; intros E; inversion E; eauto.
Qed.

(** A prefix of a normalised text is normalised but for white space at its
    end. *)
Lemma normalizeMultiline_prefix (raw : jsstring) (n : nat) :
  normalizeMultiline (firstn n (normalizeMultiline raw))
  = trimEnd (firstn n (normalizeMultiline raw)).
Proof.
  destruct (normalizeMultiline_normal raw) as (Hcr & Hblank & Hlines & _).
  pose proof (trim_head (replaceAll reBlankLines [LF; LF]
                           (replaceAll reTrailingBlank [LF]
                              (replaceAll reCrLf [LF] raw)))) as Hhead.
  fold (normalizeMultiline raw) in Hhead.
  set (x := normalizeMultiline raw) in *.
  assert (Ex : x = [] ++ firstn n x ++ skipn n x)
    by (symmetry; apply firstn_skipn).
  rewrite normalizeMultiline_of_normal.
  - unfold trim; rewrite trimStart_fixed; [reflexivity|].
    destruct x as [|c x']; destruct n; simpl; auto.
  - intros Hin; apply Hcr; rewrite Ex; apply in_or_app; right.
    apply in_or_app; left; exact Hin.
  - apply (follows_substring _ _ [] _ (skipn n x)); rewrite <- Ex;
      exact Hblank.
  - apply (includes_substring [] _ (skipn n x)); rewrite <- Ex;
      exact Hlines.
Qed.

Section CrawledText.

Context {H : Host} {C : Config}.

Lemma visitPage_texts (web : Web) (u : jsstring) (st : CrawlState) :
  (forall p, In p (crawled st) ->
     exists raw, text p = firstn (Z.to_nat 12000) (normalizeMultiline raw)) ->
  forall p, In p (crawled (visitPage web u st)) ->
    exists raw, text p = firstn (Z.to_nat 12000) (normalizeMultiline raw).
Proof.
  intros Hst; unfold visitPage.
  destruct (web u) as [html|]; [|exact Hst].
  destruct (extractTitleFromHtml html u) as [ttl|m]; [|exact Hst].
  destruct (stripHtmlToText html) as [txt|m] eqn:Etxt; [|exact Hst].
  cbn [visited queue crawled history].
  assert (Hpages :
            forall p,
              In p (if (80 <? len txt)%Z
                    then crawled st ++ [{| url := u; title := ttl;
                                           text := slice txt 0 12000 |}]
                    else crawled st) ->
              exists raw, text p = firstn (Z.to_nat 12000) (normalizeMultiline raw)).
  { destruct (80 <? len txt)%Z; [|exact Hst].
    intros p Hp; apply in_app_or in Hp; destruct Hp as [Hp|[<-|[]]];
      [auto|].
    destruct (stripHtmlToText_normalised _ Etxt) as [raw ->].
    exists raw; cbn [text]; apply slice_prefix; lia. }
  destruct (filterLinks (visited st) (extractHrefLinks html u));
    cbn [crawled]; exact Hpages.
Qed.

Lemma crawlReaches_texts (web : Web) (st : CrawlState) :
  crawlReaches web st ->
  forall p, In p (crawled st) ->
    exists raw, text p = firstn (Z.to_nat 12000) (normalizeMultiline raw).
Proof.
  induction 1 as [root Eroot|st st' Hreach IH Estep].
  - intros p [].
  - unfold crawlIteration in Estep.
    destruct (queue st) as [|u rest]; [discriminate|].
    destruct (GUIDE_MAX_PAGES <=? length (crawled st))%nat; [discriminate|].
    cbn [visited queue crawled history] in Estep.
    destruct (isEmpty u || has (visited st) u);
      [inversion Estep; subst; exact IH|].
    destruct (isAllowedGuideUrl u) as [[|]|m]; inversion Estep; subst;
      [|exact IH].
    apply visitPage_texts; exact IH.
Qed.

(** X19. The text of every page a crawl returns is the first 12000 code
    units of a normalised text. Normalising it again, as
    [pickGuideSnippet] does, only removes white space that the cut left at
    its end, and changes nothing when the text is shorter than 12000 code
    units; so without tokens the snippet of such a page is the first
    [limit] code units of the page text itself. *)
Theorem crawlGuidePages_text_normalised (web : Web) (fuel : nat)
  (found : list Page) :
  crawlGuidePages web fuel = Some (Normal found) ->
  forall p, In p found ->
    normalizeMultiline (text p) = trimEnd (text p)
    /\ ((len (text p) < 12000)%Z ->
        normalizeMultiline (text p) = text p
        /\ forall limit, pickGuideSnippet p [] limit = slice (text p) 0 limit).
Proof.
  unfold crawlGuidePages.
  destruct (crawlRun web fuel) as [[st|m]|] eqn:E; try discriminate.
  intros E' p Hp; inversion E'; subst.
  destruct (crawlReaches_texts (crawlRun_reaches _ _ E) p Hp) as [raw Et].
  assert (Enorm : normalizeMultiline (text p) = trimEnd (text p))
    by (rewrite Et; apply normalizeMultiline_prefix).
  split; [exact Enorm|].
  intros Hlen.
  assert (Ewhole : text p = normalizeMultiline raw).
  { rewrite Et; apply firstn_all2.
    rewrite Et in Hlen; unfold len in Hlen; rewrite length_firstn in Hlen.
    lia. }
  assert (Efix : normalizeMultiline (text p) = text p)
    by (rewrite Ewhole; apply normalizeMultiline_again).
  split; [exact Efix|].
  intros limit; unfold pickGuideSnippet; rewrite Efix.
  destruct (text p); [symmetry; apply slice_nil | reflexivity].
Qed.

End CrawledText.

(* ------------------------------------------------------------------ *)
(** ** Tokens *)

Lemma repGreedy_always (A : Type) (p : N -> bool) (k : pos -> option A)
  (f : jsstring -> A) (s : jsstring) (min : nat) (prev : option N) :
  (forall pv t, k (pv, t) = Some (f t)) ->
  repGreedy p min prev s k
  = if min <=? leading p s then Some (f (skipn (leading p s) s)) else None.
Proof.
  intros Hk; destruct (Nat.leb_spec min (leading p s)).
  - apply repGreedy_longest; [assumption | intros pv; apply Hk].
  - apply repGreedy_short; assumption.
Qed.

(** Every match of a global scan is a match of the pattern at some
    position, and is the text read there. *)
Lemma scanFrom_matches (r : regex) (m : jsstring) (cs : caps) (s : jsstring) :
  forall skip prev,
    In (Mat m cs) (scanFrom r skip prev s) ->
    exists prev' suf n,
      matchAt r prev' suf = Some (n, cs) /\ m = firstn n suf.
Proof.
  induction s as [|x s IH]; intros skip prev; cbn [scanFrom].
  - destruct skip; [|intros []].
    destruct (matchAt r prev []) as [[n cs']|] eqn:E; [|intros []].
    intros [E'|[]]; inversion E'; subst.
    exists prev, [], n; split; [assumption | destruct n; reflexivity].
  - destruct skip as [|k]; [|apply IH].
    destruct (matchAt r prev (x :: s)) as [[[|n] cs']|] eqn:E.
    + intros [E'|[E'|Hin]]; [|discriminate | exact (IH _ _ Hin)].
      inversion E'; subst.
      exists prev, (x :: s), 0; split; [assumption | reflexivity].
    + intros [E'|Hin]; [|exact (IH _ _ Hin)].
      inversion E'; subst.
      exists prev, (x :: s), (S n); split; [assumption | reflexivity].
    + intros [E'|Hin]; [discriminate | exact (IH _ _ Hin)].
Qed.

(** Every match of a global scan is a substring of the input. *)
Lemma scanFrom_substring (r : regex) (m : jsstring) (cs : caps)
  (s : jsstring) :
  forall skip prev,
    In (Mat m cs) (scanFrom r skip prev s) ->
    exists before after, s = before ++ m ++ after.
Proof.
  induction s as [|x s IH]; intros skip prev; cbn [scanFrom].
  - destruct skip; [|intros []].
    destruct (matchAt r prev []) as [[n cs']|]; [|intros []].
    intros [E'|[]]; inversion E'; subst.
    exists [], []; reflexivity.
  - assert (Hrest : forall k pv,
               In (Mat m cs) (scanFrom r k pv s) ->
               exists before after, x :: s = before ++ m ++ after).
    { intros k pv Hin; destruct (IH _ _ Hin) as (b & a & ->).
      exists (x :: b), a; reflexivity. }
    destruct skip as [|k]; [|apply Hrest].
    destruct (matchAt r prev (x :: s)) as [[[|n] cs']|].
    + intros [E'|[E'|Hin]]; [|discriminate | exact (Hrest _ _ Hin)].
      inversion E'; subst; exists [], (x :: s); reflexivity.
    + intros [E'|Hin]; [|exact (Hrest _ _ Hin)].
      inversion E'; subst.
      exists [], (skipn (S n) (x :: s)).
      symmetry; apply (firstn_skipn (S n) (x :: s)).
    + intros [E'|Hin]; [discriminate | exact (Hrest _ _ Hin)].
Qed.

Lemma matchAll_matches (r : regex) (m s : jsstring) :
  In m (matchAll r s) ->
  exists prev suf n cs,
    matchAt r prev suf = Some (n, cs) /\ m = firstn n suf.
Proof.
  unfold matchAll; intros Hin; apply in_flat_map in Hin.
  destruct Hin as ([c|m' cs] & Hseg & Hm); [destruct Hm|].
  destruct Hm as [<-|[]].
  destruct (scanFrom_matches _ _ _ _ _ _ Hseg) as (prev & suf & n & E & Em).
  exists prev, suf, n, cs; auto.
Qed.

Lemma matchAt_reToken (prev : option N) (s : jsstring) (n : nat) (cs : caps) :
  matchAt reToken prev s = Some (n, cs) ->
  (exists x s',
      s = x :: s' /\ isTokenHead x = true
      /\ 1 <= leading isTokenTail s' /\ n = S (leading isTokenTail s'))
  \/ (2 <= leading isCjk s /\ n = leading isCjk s).
Proof.
  unfold matchAt, reToken, cat; cbn [exec fold_right snd fst].
  pose proof (leading_le isCjk s) as Hcjk.
  assert (Hsecond :
            repGreedy isCjk 2 prev s
              (fun st' => Some (length s - length (snd st'), []))
            = Some (n, cs) ->
            2 <= leading isCjk s /\ n = leading isCjk s).
  { rewrite (repGreedy_always isCjk _ (fun t => (length s - length t, [])))
      by reflexivity.
    destruct (Nat.leb_spec 2 (leading isCjk s)); [|discriminate].
    rewrite length_skipn; intros E; injection E as En _; split; lia. }
  destruct s as [|x s']; [intros E; right; exact (Hsecond E)|].
  destruct (isTokenHead x) eqn:Ex; [|intros E; right; exact (Hsecond E)].
  cbn [exec snd fst].
  rewrite (@repGreedy_always (nat * caps) isTokenTail
             (fun st' =>
                Some (@pair nat caps (length (x :: s') - length (snd st'))
                        []))
             (fun t => @pair nat caps (length (x :: s') - length t) [])
             s' 1 (Some x) (fun _ _ => eq_refl)).
  pose proof (leading_le isTokenTail s') as Htail.
  destruct (Nat.leb_spec 1 (leading isTokenTail s'));
    [|intros E; right; exact (Hsecond E)].
  rewrite length_skipn.
  assert (Hlen : length (x :: s') = S (length s')) by reflexivity.
  remember (length (x :: s')) as L eqn:EL.
  intros E; injection E as En _.
  left; exists x, s'; repeat split; auto; lia.
Qed.

Lemma firstn_leading (p : N -> bool) (s : jsstring) :
  length (firstn (leading p s) s) = leading p s.
Proof. rewrite length_firstn; pose proof (leading_le p s); lia. Qed.

Section Tokens.

Context {H : Host}.

(** X20. Every token has at least two code units and is either a run of
    lower-case ASCII letters, digits, dots, underscores and hyphens that
    starts with a letter or a digit, or a run of kanji, hiragana and
    katakana; and it is a substring of the lower-cased input. *)
Theorem tokenize_shape (s tk : jsstring) :
  In tk (tokenize s) ->
  2 <= length tk
  /\ ((exists c w,
          tk = c :: w /\ isTokenHead c = true
          /\ forallb isTokenTail w = true)
      \/ forallb isCjk tk = true)
  /\ exists before after, toLowerCase s = before ++ tk ++ after.
Proof.
  unfold tokenize, unique; intros Hin.
  apply In_newSet, filter_In in Hin; destruct Hin as [Hin _].
  assert (Hsub : exists before after, toLowerCase s = before ++ tk ++ after).
  { unfold matchAll in Hin; apply in_flat_map in Hin.
    destruct Hin as ([c|m cs] & Hseg & Hm); [destruct Hm|].
    destruct Hm as [<-|[]].
    apply (scanFrom_substring _ _ _ _ _ _ Hseg). }
  destruct (matchAll_matches _ _ _ Hin) as (prev & suf & n & cs & E & ->).
  apply matchAt_reToken in E.
  destruct E as [(x & s' & -> & Hx & Hrun & ->)|(Hrun & ->)].
  - cbn [firstn length]; rewrite firstn_leading.
    split; [lia|]; split; [|exact Hsub].
    left; exists x, (firstn (leading isTokenTail s') s').
    repeat split; auto; apply leading_firstn.
  - rewrite firstn_leading; split; [assumption|]; split; [|exact Hsub].
    right; apply leading_firstn.
Qed.

End Tokens.

(* ------------------------------------------------------------------ *)
(** ** Character references out of range *)

Lemma leading_before (p : N -> bool) (a : jsstring) (y : N) (b : jsstring) :
  p y = false -> leading p (a ++ y :: b) <= length a.
Proof.
  intros Hy; induction a as [|x a IH]; cbn [app leading length].
  - rewrite Hy; lia.
  - destruct (p x); lia.
Qed.

Lemma matchAt_reDecimalEntity (prev : option N) (s : jsstring) :
  matchAt reDecimalEntity prev s
  = match s with
    | a :: s1 =>
        if N.eqb 38 a then
          match s1 with
          | b :: s2 =>
              if N.eqb 35 b then
                match leading isDigit s2, skipn (leading isDigit s2) s2 with
                | S n, y :: _ =>
                    if N.eqb SEMI y
                    then Some (S n + 3, [(1, firstn (S n) s2)])
                    else None
                | _, _ => None
                end
              else None
          | [] => None
          end
        else None
    | [] => None
    end.
Proof.
  unfold matchAt, reDecimalEntity, cat, plus; cbn [fold_right].
  rewrite lit_decimal_prefix; cbn [str exec snd fst].
  destruct s as [|a s]; [reflexivity|]; unfold chr at 1.
  destruct (N.eqb 38 a); [|reflexivity].
  destruct s as [|b s2]; [reflexivity|]; cbn [exec snd fst]; unfold chr at 1.
  destruct (N.eqb 35 b); [|reflexivity]; cbn [exec snd fst].
  pose proof (leading_le isDigit s2) as Hle.
  assert (Hdigit : forall y, isDigit y = true -> chr SEMI y = false).
  { intros y Hy; unfold chr; destruct (N.eqb_spec SEMI y) as [<-|];
      [discriminate | reflexivity]. }
  destruct (leading isDigit s2) as [|n] eqn:En.
  - apply repGreedy_short; rewrite En; lia.
  - assert (Hlen : length (skipn (S n) s2) = length s2 - S n)
      by apply length_skipn.
    destruct (skipn (S n) s2) as [|y t] eqn:Et.
    + apply repGreedy_fails; rewrite ?En, ?Et; [reflexivity|].
      intros pv y t Hy; cbn [exec snd fst]; rewrite (Hdigit y Hy);
        reflexivity.
    + destruct (N.eqb SEMI y) eqn:Ey.
      * apply repGreedy_longest; rewrite En; [lia|].
        intros pv; rewrite Et; cbn [exec snd fst]; unfold chr; rewrite Ey.
        cbn [length] in *.
        replace (S (S (length s2)) - length t) with (S n + 3) by lia.
        replace (length s2 - S (length t)) with (S n) by lia.
        reflexivity.
      * apply repGreedy_fails; rewrite ?En, ?Et.
        -- intros pv; cbn [exec snd fst]; unfold chr; rewrite Ey;
             reflexivity.
        -- intros pv z t' Hz; cbn [exec snd fst]; rewrite (Hdigit z Hz);
             reflexivity.
Qed.

Lemma codePointReplacer_outcome (radix : N) (m : jsstring) (cs : caps) :
  (exists out, codePointReplacer radix m cs = Normal out)
  \/ codePointReplacer radix m cs = Throw (lit "Invalid code point").
Proof.
  unfold codePointReplacer.
  destruct (numberIsFinite _); [|eauto].
  destruct (_ <=? 1114111)%N; eauto.
Qed.

(** The scan of the decimal pass reaches a reference that stands after
    [pre], and the replacer throws there, if not before. *)
Lemma decimal_pass_throws (digits post : jsstring) :
  digits <> [] -> forallb isDigit digits = true ->
  (1114111 < digitsValue 10 digits)%N ->
  numberIsFinite (digitsValue 10 digits) = true ->
  forall pre skip prev,
    skip <= length pre ->
    substitute (codePointReplacer 10)
      (scanFrom reDecimalEntity skip prev
         (pre ++ 38%N :: 35%N :: digits ++ SEMI :: post))
    = Throw (lit "Invalid code point").
Proof.
  intros Hne Hdigits Hbig Hfinite.
  assert (Hrun : leading isDigit (digits ++ SEMI :: post) = length digits)
    by (apply leading_app; [assumption | reflexivity]).
  assert (Hbind : forall (c : Completion jsstring)
                         (g : jsstring -> Completion jsstring),
             ((exists out, c = Normal out)
              \/ c = Throw (lit "Invalid code point")) ->
             (forall out, g out = Throw (lit "Invalid code point")) ->
             bind c g = Throw (lit "Invalid code point")).
  { intros c g [[out ->]| ->] Hg; [apply Hg | reflexivity]. }
  induction pre as [|x pre IH]; intros skip prev Hskip.
  - assert (skip = 0) by (simpl in Hskip; lia); subst skip.
    cbn [app scanFrom]; rewrite matchAt_reDecimalEntity, Hrun.
    change (N.eqb 38 38) with true; change (N.eqb 35 35) with true.
    cbv iota.
    rewrite skipn_app, skipn_all, Nat.sub_diag; cbn [app skipn].
    destruct (length digits) as [|n] eqn:El;
      [destruct digits; [contradiction Hne; reflexivity | discriminate]|].
    rewrite N.eqb_refl; cbn [Nat.add substitute].
    rewrite <- El, firstn_app, firstn_all, Nat.sub_diag, app_nil_r.
    unfold codePointReplacer at 1; cbn [group Nat.eqb].
    rewrite Hfinite.
    destruct (N.leb_spec (digitsValue 10 digits) 1114111); [lia|].
    reflexivity.
  - cbn [app scanFrom].
    destruct skip as [|k];
      [|apply IH; simpl in Hskip; lia].
    destruct (matchAt reDecimalEntity prev
                (x :: pre ++ 38%N :: 35%N :: digits ++ SEMI :: post))
      as [[[|n] cs]|] eqn:E; cbn [substitute].
    + apply Hbind; [apply codePointReplacer_outcome|]; intros out.
      rewrite IH by lia; reflexivity.
    + apply Hbind; [apply codePointReplacer_outcome|]; intros out.
      rewrite IH; [reflexivity|].
      rewrite matchAt_reDecimalEntity in E.
      destruct (N.eqb 38 x); [|discriminate].
      destruct (pre ++ 38%N :: 35%N :: digits ++ SEMI :: post)
        as [|b s2] eqn:Es; [discriminate|].
      destruct (N.eqb_spec 35 b) as [<-|]; [|discriminate].
      destruct pre as [|b pre']; [discriminate|].
      cbn [app] in Es; injection Es as Eb Es2; subst b.
      pose proof (@leading_before isDigit pre' 38%N
                    (35%N :: digits ++ SEMI :: post) eq_refl) as Hle.
      rewrite Es2 in Hle.
      destruct (leading isDigit s2) as [|n'] eqn:En; [discriminate|].
      destruct (skipn (S n') s2) as [|y t] eqn:Et; [discriminate|].
      destruct (N.eqb SEMI y) eqn:Ey; [|discriminate].
      inversion E; subst.
      assert (S n' <> length pre').
      { intros El; rewrite El in Et.
        rewrite skipn_app, skipn_all, Nat.sub_diag in Et.
        cbn [app skipn] in Et; injection Et as Ey' _; subst y;
          discriminate. }
      cbn [length]; lia.
    + rewrite IH by lia; reflexivity.
Qed.

Lemma decodeHtmlEntities_bad_reference (pre digits post : jsstring) :
  digits <> [] -> forallb isDigit digits = true ->
  (1114111 < digitsValue 10 digits)%N ->
  numberIsFinite (digitsValue 10 digits) = true ->
  decodeHtmlEntities (pre ++ lit "&#" ++ digits ++ [SEMI] ++ post)
  = Throw (lit "Invalid code point").
Proof.
  intros Hne Hdigits Hbig Hfinite.
  unfold decodeHtmlEntities, replaceAllWith, scan.
  rewrite lit_decimal_prefix.
  change (pre ++ [38; 35]%N ++ digits ++ [SEMI] ++ post)
    with (pre ++ 38%N :: 35%N :: digits ++ SEMI :: post).
  rewrite (@decimal_pass_throws digits post Hne Hdigits Hbig Hfinite pre 0
             None) by lia.
  reflexivity.
Qed.

Section BadReference.

Context {H : Host} {C : Config}.

(** X21. A decimal character reference above U+10FFFF makes
    [decodeHtmlEntities] throw, wherever it stands in the input. A page
    whose text holds one after its tags are removed is therefore dropped
    by the crawl: it is not recorded and none of its links is enqueued. *)
Theorem visitPage_drops_page_with_bad_reference
  (pre digits post : jsstring) :
  digits <> [] -> forallb isDigit digits = true ->
  (1114111 < digitsValue 10 digits)%N ->
  numberIsFinite (digitsValue 10 digits) = true ->
  (exists m,
      decodeHtmlEntities (pre ++ lit "&#" ++ digits ++ [SEMI] ++ post)
      = Throw m)
  /\ forall (web : Web) (u html : jsstring) (st : CrawlState),
       web u = Some html ->
       stripTags html = pre ++ lit "&#" ++ digits ++ [SEMI] ++ post ->
       (exists m, stripHtmlToText html = Throw m)
       /\ crawled (visitPage web u st) = crawled st
       /\ queue (visitPage web u st) = queue st.
Proof.
  intros Hne Hdigits Hbig Hfinite.
  pose proof (@decodeHtmlEntities_bad_reference pre digits post Hne Hdigits
                Hbig Hfinite) as Ethrow.
  split; [eauto|].
  intros web u html st Eweb Estrip.
  assert (Etext : stripHtmlToText html = Throw (lit "Invalid code point"))
    by (unfold stripHtmlToText; rewrite Estrip, Ethrow; reflexivity).
  split; [eauto|].
  unfold visitPage; rewrite Eweb, Etext.
  destruct (extractTitleFromHtml html u); split; reflexivity.
Qed.

End BadReference.

(* ------------------------------------------------------------------ *)
(** ** Single-line text *)

Lemma matchAt_reSpaces (prev : option N) (s : jsstring) :
  matchAt reSpaces prev s
  = if 1 <=? leading isWhiteSpace s
    then Some (leading isWhiteSpace s, []) else None.
Proof.
  unfold matchAt, reSpaces, plus; cbn [exec snd fst].
  pose proof (leading_le isWhiteSpace s) as Hle.
  destruct (Nat.leb_spec 1 (leading isWhiteSpace s)).
  - apply repGreedy_longest; [assumption|].
    intros pv; cbn [snd]; rewrite length_skipn; do 2 f_equal; lia.
  - apply repGreedy_short; assumption.
Qed.

(** After the replacement every white space is one space, and it stands
    alone. *)
Lemma reSpaces_replaced (s : jsstring) :
  forall skip prev,
    let o := render [SP] (scanFrom reSpaces skip prev s) in
    (forall c, In c o -> isWhiteSpace c = true -> c = SP)
    /\ follows isWhiteSpace isWhiteSpace o = false
    /\ (headIs isWhiteSpace o = true ->
        headIs isWhiteSpace (skipn skip s) = true).
Proof.
  induction s as [|x s IH]; intros skip prev; cbv zeta.
  - destruct skip; cbn [scanFrom]; [rewrite matchAt_reSpaces|]; simpl;
      repeat split; auto; intros c [].
  - destruct skip as [|k]; [|exact (IH k (Some x))].
    cbn [scanFrom skipn]; rewrite matchAt_reSpaces.
    cbn [leading headIs].
    destruct (isWhiteSpace x) eqn:Ex.
    + cbn [Nat.leb]; rewrite render_Mat; cbn [app].
      destruct (IH (leading isWhiteSpace s) (Some x)) as (IHa & IHb & IHc);
        cbv zeta in IHa, IHb, IHc.
      set (o := render [SP] (scanFrom reSpaces (leading isWhiteSpace s)
                               (Some x) s)) in *.
      split; [|split; [|reflexivity]].
      * intros c [<-|Hc]; [reflexivity | apply IHa; assumption].
      * cbn [follows]; rewrite IHb, orb_false_r.
        change (isWhiteSpace SP) with true; cbn [andb].
        destruct o as [|d o']; [reflexivity|].
        destruct (isWhiteSpace d) eqn:Ed; [|reflexivity].
        specialize (IHc Ed).
        pose proof (leading_stops isWhiteSpace s) as Hstop.
        destruct (skipn (leading isWhiteSpace s) s); cbn [headIs] in IHc;
          congruence.
    + cbn [Nat.leb]; rewrite render_Lit.
      destruct (IH 0 (Some x)) as (IHa & IHb & IHc);
        cbv zeta in IHa, IHb, IHc.
      split; [|split].
      * intros c [<-|Hc] Hw; [congruence | apply IHa; assumption].
      * cbn [follows]; rewrite Ex, IHb; reflexivity.
      * cbn [headIs]; congruence.
Qed.

Lemma cleanInline_single_spaced (v : jsstring) :
  (forall c, In c (cleanInline v) -> isWhiteSpace c = true -> c = SP)
  /\ follows isWhiteSpace isWhiteSpace (cleanInline v) = false
  /\ trim (cleanInline v) = cleanInline v.
Proof.
  unfold cleanInline.
  destruct (reSpaces_replaced v 0 None) as (Ha & Hb & _);
    cbv zeta in Ha, Hb.
  fold (scan reSpaces v) in Ha, Hb;
    fold (replaceAll reSpaces [SP] v) in Ha, Hb.
  destruct (trim_substring (replaceAll reSpaces [SP] v)) as (a & c & E).
  split; [|split].
  - intros d Hd; apply Ha, trim_In; exact Hd.
  - apply (follows_substring _ _ a _ c); rewrite <- E; exact Hb.
  - apply trim_idempotent.
Qed.

(** A single-spaced text is left as it is by the replacement. *)
Lemma reSpaces_unchanged (y : jsstring) :
  (forall c, In c y -> isWhiteSpace c = true -> c = SP) ->
  follows isWhiteSpace isWhiteSpace y = false ->
  forall prev, render [SP] (scanFrom reSpaces 0 prev y) = y.
Proof.
  induction y as [|x y IH]; intros Hsp Hsingle prev; cbn [scanFrom].
  - rewrite matchAt_reSpaces; reflexivity.
  - cbn [follows] in Hsingle; apply orb_false_iff in Hsingle.
    destruct Hsingle as [Hx Hy].
    assert (IH' : render [SP] (scanFrom reSpaces 0 (Some x) y) = y)
      by (apply IH; [intros c Hc; apply Hsp; right; exact Hc | exact Hy]).
    rewrite matchAt_reSpaces; cbn [leading].
    destruct (isWhiteSpace x) eqn:Ex.
    + assert (Ez : leading isWhiteSpace y = 0).
      { apply leading_zero; destruct y as [|d y']; [trivial|].
        cbn [andb] in Hx; exact Hx. }
      rewrite Ez; cbn [Nat.leb]; rewrite render_Mat, IH'.
      rewrite (Hsp x (or_introl eq_refl) Ex); reflexivity.
    + cbn [Nat.leb]; rewrite render_Lit, IH'; reflexivity.
Qed.

Lemma cleanInline_again (v : jsstring) :
  cleanInline (cleanInline v) = cleanInline v.
Proof.
  destruct (cleanInline_single_spaced v) as (Ha & Hb & Hc).
  unfold cleanInline at 1; unfold replaceAll, scan.
  rewrite reSpaces_unchanged by assumption; exact Hc.
Qed.

(** X22. In the result of [cleanInline] every white space is a single
    space between two other code units: the text is one line, without
    white space at either end and without two spaces in a row. Cleaning it
    again changes nothing. The title [extractTitleFromHtml] returns is the
    fallback or a text of that shape that is not empty. *)
Theorem cleanInline_idempotent (v : jsstring) :
  (forall c, In c (cleanInline v) -> isWhiteSpace c = true -> c = SP)
  /\ follows isWhiteSpace isWhiteSpace (cleanInline v) = false
  /\ trim (cleanInline v) = cleanInline v
  /\ cleanInline (cleanInline v) = cleanInline v
  /\ forall html fallback ttl,
       extractTitleFromHtml html fallback = Normal ttl ->
       ttl = fallback \/ (ttl <> [] /\ cleanInline ttl = ttl).
Proof.
  destruct (cleanInline_single_spaced v) as (Ha & Hb & Hc).
  repeat (split; [assumption|]).
  split; [apply cleanInline_again|].
  intros html fallback ttl; unfold extractTitleFromHtml.
  destruct (search reTitle None html) as [[[i n] cs]|];
    [|intros E; inversion E; auto].
  destruct (decodeHtmlEntities _) as [decoded|m]; cbn [bind];
    [|discriminate].
  destruct (cleanInline decoded) as [|c t] eqn:Et; cbn [isEmpty];
    intros E; inversion E; subst; [auto|].
  right; split; [discriminate|].
  rewrite <- Et; apply cleanInline_again.
Qed.

(* ------------------------------------------------------------------ *)
(** ** The queue *)

Section QueueGrowth.

Context {H : Host} {C : Config}.

Lemma visitPage_enqueues (web : Web) (u : jsstring) (st : CrawlState) :
  exists added,
    queue (visitPage web u st) = queue st ++ added /\ length added <= 60.
Proof.
  assert (Hnone : exists added : list jsstring,
             queue st = queue st ++ added /\ length added <= 60)
    by (exists []; rewrite app_nil_r; simpl; split; [reflexivity | lia]).
  unfold visitPage.
  destruct (web u) as [html|]; [|exact Hnone].
  destruct (extractTitleFromHtml html u) as [ttl|m]; [|exact Hnone].
  destruct (stripHtmlToText html) as [txt|m]; [|exact Hnone].
  cbn [visited queue crawled history].
  destruct (filterLinks _ (extractHrefLinks html u)) as [links|m];
    cbn [queue]; [|exact Hnone].
  exists (firstn 60 links); split; [reflexivity | apply firstn_le_length].
Qed.

(** X23. Each fetch takes one URL from the queue and adds at most sixty
    to it, and nothing else adds to the queue: in every state of a run the
    queue holds at most [1 + 59 n] URLs, [n] being the number of fetches
    made so far. *)
Theorem crawl_queue_bounded (web : Web) (st : CrawlState) :
  crawlReaches web st ->
  length (queue st) <= 1 + 59 * length (fetchedUrls (history st)).
Proof.
  induction 1 as [root Eroot|st st' Hreach IH Estep].
  - simpl; lia.
  - unfold crawlIteration in Estep.
    destruct (queue st) as [|u rest]; [discriminate|].
    destruct (GUIDE_MAX_PAGES <=? length (crawled st))%nat; [discriminate|].
    cbn [visited queue crawled history] in Estep.
    cbn [length] in IH.
    destruct (isEmpty u || has (visited st) u);
      [inversion Estep; subst; cbn [queue history]; lia|].
    destruct (isAllowedGuideUrl u) as [[|]|m]; inversion Estep; subst;
      [|cbn [queue history]; lia].
    set (st2 := {| visited := add (visited st) u; queue := rest;
                   crawled := crawled st; history := history st |}).
    rewrite (visitPage_fetched web u st2).
    destruct (visitPage_enqueues web u st2) as (added & -> & Hadded).
    cbn [queue history st2]; rewrite !length_app; cbn [length]; lia.
Qed.

End QueueGrowth.

(* ------------------------------------------------------------------ *)
(** ** Entities that cannot throw *)

Lemma numeric_patterns_need_hash (r : regex) :
  r = reDecimalEntity \/ r = reHexEntity ->
  forall prev s,
    match s with _ :: b :: _ => b <> 35%N | _ => True end ->
    matchAt r prev s = None.
Proof.
  intros Hr prev s Hs.
  destruct Hr as [->| ->];
    unfold matchAt, reDecimalEntity, reHexEntity, cat; cbn [fold_right];
    rewrite ?lit_decimal_prefix, ?lit_hex_prefix; cbn [str exec snd fst];
    (destruct s as [|a s]; [reflexivity|]);
    (destruct (chr 38 a); [|reflexivity]);
    (destruct s as [|b s]; [reflexivity|]); cbn [exec snd fst];
    unfold chr at 1; apply N.eqb_neq in Hs; rewrite N.eqb_sym, Hs;
    reflexivity.
Qed.

Lemma suffix_without (c : N) (s suf : jsstring) :
  ~ In c s -> In suf (suffixes s) ->
  match suf with _ :: b :: _ => b <> c | _ => True end.
Proof.
  intros Hs Hin; apply In_suffixes in Hin; destruct Hin as [pre ->].
  destruct suf as [|a [|b suf]]; trivial.
  intros ->; apply Hs; apply in_or_app; right; right; left; reflexivity.
Qed.

Lemma substitute_returns (f : jsstring -> caps -> Completion jsstring)
  (segs : list segment) :
  (forall m cs, exists out, f m cs = Normal out) ->
  exists out, substitute f segs = Normal out.
Proof.
  intros Hf; induction segs as [|[c|m cs] segs [out IH]]; cbn [substitute].
  - eauto.
  - rewrite IH; cbn [bind]; eauto.
  - destruct (Hf m cs) as [rep ->]; rewrite IH; cbn [bind]; eauto.
Qed.

(** X24. Only a numeric character reference can make [decodeHtmlEntities]
    throw: on an input without [#] the two numeric passes change nothing
    and the call returns; and an input without [&] is returned as it
    is. *)
Theorem decodeHtmlEntities_without_hash (s : jsstring) :
  (~ In 35%N s ->
   decodeHtmlEntities s = replaceAllWith reNamedEntity namedEntityReplacer s
   /\ exists out, decodeHtmlEntities s = Normal out)
  /\ (~ In AMP s -> decodeHtmlEntities s = Normal s).
Proof.
  split; [|apply decodeHtmlEntities_plain].
  intros Hs.
  assert (Hpass : forall r f,
             r = reDecimalEntity \/ r = reHexEntity ->
             replaceAllWith r f s = Normal s).
  { intros r f Hr; unfold replaceAllWith, scan.
    rewrite scanFrom_unmatched; [apply substitute_literals|].
    intros prev suf Hin; apply (@numeric_patterns_need_hash r Hr).
    apply (@suffix_without 35%N s suf Hs Hin). }
  assert (E : decodeHtmlEntities s
              = replaceAllWith reNamedEntity namedEntityReplacer s).
  { unfold decodeHtmlEntities.
    rewrite (Hpass reDecimalEntity _ (or_introl eq_refl)); cbn [bind].
    rewrite (Hpass reHexEntity _ (or_intror eq_refl)); reflexivity. }
  split; [exact E|].
  rewrite E; apply substitute_returns.
  intros m cs; unfold namedEntityReplacer.
  destruct (htmlEntityMap _); eauto.
Qed.

(** ** The further properties on the sample site *)

Lemma sample_href_parses (root : URL) :
  @newURL Sample.host (@GUIDE_ROOT_URL Sample.config) = Some root ->
  @newURL Sample.host (href root) <> None.
Proof.
  intros E; vm_compute in E; inversion E; subst; vm_compute; discriminate.
Qed.

Lemma crawlGuidePages_at_most_max_pages_witness :
  length Examples.portalPages <= 24.
Proof.
  apply (@crawlGuidePages_at_most_max_pages Sample.host Sample.config
           Sample.portal 10 Examples.portalPages).
  vm_compute; reflexivity.
Defined.

Lemma crawlGuidePages_pages_well_formed_witness :
  NoDup (map url Examples.portalPages)
  /\ forall p, In p Examples.portalPages ->
       @isAllowedGuideUrl Sample.host Sample.config (url p) = Normal true
       /\ url p <> [] /\ title p <> []
       /\ (80 < len (text p) <= 12000)%Z.
Proof.
  apply (@crawlGuidePages_pages_well_formed Sample.host Sample.config
           Sample.portal 10 Examples.portalPages).
  vm_compute; reflexivity.
Defined.

Lemma crawl_fetches_only_allowed_urls_witness :
  @isAllowedGuideUrl Sample.host Sample.config Sample.urlA = Normal true.
Proof.
  apply (@crawl_fetches_only_allowed_urls Sample.host Sample.config
           Sample.site Sample.finalState).
  - apply (@crawlRun_reaches Sample.host Sample.config Sample.site 10).
    vm_compute; reflexivity.
  - vm_compute; right; left; reflexivity.
Defined.

Lemma crawlGuidePages_throws_iff_bad_root_witness :
  (exists m, @crawlGuidePages Sample.host Sample.config Sample.portal 10
             = Some (Throw m))
  <-> @newURL Sample.host (@GUIDE_ROOT_URL Sample.config) = None.
Proof.
  apply (@crawlGuidePages_throws_iff_bad_root Sample.host Sample.config
           Sample.portal 10).
  exact sample_href_parses.
Defined.

Lemma crawlGuidePages_without_start_page_witness :
  @crawlGuidePages Sample.host Sample.config Sample.offline 2
  = Some (Normal []).
Proof.
  apply (@crawlGuidePages_without_start_page Sample.host Sample.config
           Sample.offline Examples.sampleRoot 2).
  - vm_compute; reflexivity.
  - vm_compute; discriminate.
  - reflexivity.
  - lia.
Defined.

Lemma isAllowedGuideUrl_root_witness :
  (@isAllowedGuideUrl Sample.host Examples.folderConfig (href Examples.folderRoot)
   = Normal true
   <-> documentPath (pathname Examples.folderRoot))
  /\ (~ documentPath (pathname Examples.folderRoot) ->
      @isAllowedGuideUrl Sample.host Examples.folderConfig (href Examples.folderRoot)
      = Normal false
      /\ forall web fuel,
           2 <= fuel ->
           @crawlGuidePages Sample.host Examples.folderConfig web fuel
           = Some (Normal [])).
Proof.
  apply (@isAllowedGuideUrl_root Sample.host Examples.folderConfig Examples.folderRoot).
  - vm_compute; reflexivity.
  - vm_compute; reflexivity.
Defined.

Lemma cacheState_records_witness :
  Sample.populated = guideCache
  \/ (lastError Sample.populated = []
      /\ Some [Sample.page1] = Some (pages Sample.populated)
      /\ expiresAt Sample.populated
         = (fetchedAt Sample.populated + @GUIDE_CACHE_TTL_MS Sample.config)%Z)
  \/ (lastError Sample.populated <> []
      /\ expiresAt Sample.populated
         = (fetchedAt Sample.populated
            + Z.min (5 * 60 * 1000) (@GUIDE_CACHE_TTL_MS Sample.config))%Z).
Proof.
  apply (@cacheState_records Sample.config Sample.populated
           (Some [Sample.page1])).
  exact sample_populated.
Defined.

Lemma getGuidePages_failed_crawl_not_retried_witness :
  let c' := snd (afterCrawl (C := Sample.config) 21600000 (Throw (lit "down"))
                   Sample.populated) in
  @callsGetGuidePages Sample.config
    Examples.retryCalls c'
  = ([[Sample.page1]; [Sample.page1]], c')
  /\ forall now' crawl,
       In (now', crawl) Examples.retryCalls ->
       @getGuidePages Sample.config now' c' = Done [Sample.page1].
Proof.
  apply (@getGuidePages_failed_crawl_not_retried Sample.config
           Sample.populated (Some [Sample.page1]) 21600000 (lit "down")
           (afterCrawl (C := Sample.config) 21600000)
           Examples.retryCalls).
  - exact sample_populated.
  - vm_compute; discriminate.
  - vm_compute; reflexivity.
  - intros now' crawl [E|[E|[]]]; inversion E; subst; reflexivity.
Defined.

Lemma getGuidePages_disabled_witness :
  (forall now c, @getGuidePages Examples.disabledConfig now c = Done [])
  /\ (forall calls c,
        @callsGetGuidePages Examples.disabledConfig calls c
        = (map (fun _ => []) calls, c))
  /\ (forall c l, @cacheState Examples.disabledConfig c l -> c = guideCache /\ l = None).
Proof.
  apply (@getGuidePages_disabled Examples.disabledConfig); reflexivity.
Defined.

Lemma selectPages_no_match_first_two_witness :
  map page (selectPages (@scorePages Sample.host [lit "zzz"]
                           Examples.cachedPages))
  = [Sample.page1; Sample.bodyOnly].
Proof.
  apply (@selectPages_no_match_first_two Sample.host [lit "zzz"]
           Examples.cachedPages).
  intros tk p [<-|[]] [<-|[<-|[<-|[]]]]; vm_compute; reflexivity.
Defined.

Lemma pickGuideSnippet_no_hit_witness :
  @pickGuideSnippet Sample.host Sample.page1 [lit "zzz"] 540
  = slice (normalizeMultiline (text Sample.page1)) 0 540.
Proof.
  apply (@pickGuideSnippet_no_hit Sample.host Sample.page1 [lit "zzz"] 540).
  intros tk [<-|[]]; vm_compute; reflexivity.
Defined.

Lemma fetchGuidePages_unreachable_site_witness :
  let c' := {| pages := []; fetchedAt := 0;
               expiresAt := (0 + @GUIDE_CACHE_TTL_MS Sample.config)%Z;
               lastError := [] |} in
  @fetchGuidePages Sample.host Sample.config Sample.offline 2 0 guideCache
  = Some ([], c')
  /\ forall now',
       @getGuidePages Sample.config now' c'
       = AwaitCrawl (@afterCrawl Sample.config now').
Proof.
  apply (@fetchGuidePages_unreachable_site Sample.host Sample.config
           Sample.offline Examples.sampleRoot 2 0%Z guideCache).
  - reflexivity.
  - vm_compute; reflexivity.
  - vm_compute; discriminate.
  - reflexivity.
  - lia.
  - left; reflexivity.
Defined.

Lemma crawlGuidePages_text_normalised_witness :
  normalizeMultiline (text Examples.portalRoot)
  = trimEnd (text Examples.portalRoot)
  /\ ((len (text Examples.portalRoot) < 12000)%Z ->
      normalizeMultiline (text Examples.portalRoot) = text Examples.portalRoot
      /\ forall limit,
           @pickGuideSnippet Sample.host Examples.portalRoot [] limit
           = slice (text Examples.portalRoot) 0 limit).
Proof.
  apply (@crawlGuidePages_text_normalised Sample.host Sample.config
           Sample.portal 10 Examples.portalPages).
  - vm_compute; reflexivity.
  - vm_compute; left; reflexivity.
Defined.

Lemma tokenize_shape_witness :
  2 <= length (lit "open")
  /\ ((exists c w,
          lit "open" = c :: w /\ isTokenHead c = true
          /\ forallb isTokenTail w = true)
      \/ forallb isCjk (lit "open") = true)
  /\ exists before after,
       @toLowerCase Sample.host (lit "Open the portal-page")
       = before ++ lit "open" ++ after.
Proof.
  apply (@tokenize_shape Sample.host (lit "Open the portal-page")
           (lit "open")).
  vm_compute; left; reflexivity.
Defined.

Lemma visitPage_drops_page_with_bad_reference_witness :
  (exists m,
      decodeHtmlEntities
        (lit "a" ++ lit "&#" ++ lit "1114112" ++ [SEMI] ++ lit "b")
      = Throw m)
  /\ forall (web : Web) (u html : jsstring) (st : CrawlState),
       web u = Some html ->
       stripTags html
       = lit "a" ++ lit "&#" ++ lit "1114112" ++ [SEMI] ++ lit "b" ->
       (exists m, stripHtmlToText html = Throw m)
       /\ crawled (@visitPage Sample.host Sample.config web u st)
          = crawled st
       /\ queue (@visitPage Sample.host Sample.config web u st) = queue st.
Proof.
  apply (@visitPage_drops_page_with_bad_reference Sample.host Sample.config
           (lit "a") (lit "1114112") (lit "b")).
  - discriminate.
  - reflexivity.
  - vm_compute; reflexivity.
  - vm_compute; reflexivity.
Defined.

Lemma crawl_queue_bounded_witness :
  length (queue Sample.finalState)
  <= 1 + 59 * length (fetchedUrls (history Sample.finalState)).
Proof.
  apply (@crawl_queue_bounded Sample.host Sample.config Sample.site
           Sample.finalState).
  apply (@crawlRun_reaches Sample.host Sample.config Sample.site 10).
  vm_compute; reflexivity.
Defined.
